(** * UEC_PV: graph construction, epoch schedule and joint optimizer

    A shallow embedding of [src/uecpv/uec_.py].  Each definition below is the
    translation of the Python function of the same name.

    Numbers.  NumPy floats are read as exact rationals ([Q]); equalities
    between computed numbers are therefore stated with [==] and every
    "within tolerance" becomes exact.  The places where the source relies
    on non-finite floats are written out: the binary search bound
    [hi = NPY_INFINITY] is an [option Q], and the array divisions of
    [make_epochs_per_sample] and [find_ab_params] return an [npfloat]
    (finite, infinite or NaN).  Rationals neither round, underflow nor
    overflow.  Integers are [Z], array positions are [nat].

    Arrays.  A one-dimensional array is a [list], a two-dimensional array a
    list of rows, all of one length.  Reads go through [!!]; a read outside
    the array ends the run with [IndexError] (the compiled loops do not
    check bounds, so the source gives such a read no meaning).

    Library code that is not in the file is a parameter: [np.exp], [pow],
    [np.log2] and [tau_rand_int] are the fields of the class [Externals];
    [joblib.hash], [check_array], [curve_fit], the neighbour searches,
    k-means, the initial layout and [normalize] are the fields of the class
    [Collaborators]; the row normalisation of [reset_local_connectivity] and
    the assignment solver of [best_cluster_fit] are variables of their
    sections.

    The functions [get_tptnfpfn] and [get_accuracy] of
    [src/uecpv/clustering_umap.py] are in the module [ClusteringUmap]. *)

From Stdlib Require Import QArith Qround Qabs Lqa ZArith List String Bool Lia.
From stdpp Require Import gmap list strings.

Open Scope Q_scope.

(** ** Results of fallible code *)

Inductive exn : Type :=
| IndexError
| ValueError (msg : string)
| TypeError (msg : string)
| AttributeError (attr : string)
| ZeroDivisionError.

Inductive result (A : Type) : Type :=
| Ok (a : A)
| Err (e : exn).

Arguments Ok {A} a.
Arguments Err {A} e.

#[global] Instance result_bind : MBind result :=
  fun A B k r => match r with Ok a => k a | Err e => Err e end.
#[global] Instance result_ret : MRet result := fun A a => Ok a.

(** [a[i]] *)
Definition get {A : Type} (a : list A) (i : nat) : result A :=
  match a !! i with
  | Some x => Ok x
  | None => Err IndexError
  end.

(** Apply a fallible function to every element, left to right. *)
Fixpoint mapM {A B : Type} (f : A -> result B) (l : list A) : result (list B) :=
  match l with
  | [] => Ok []
  | x :: t => y ← f x; ys ← mapM f t; Ok (y :: ys)
  end.

(** ** Numbers *)

Definition Qltb (x y : Q) : bool := negb (Qle_bool y x).

Definition Qsum (l : list Q) : Q := fold_right Qplus 0 l.

(** [np.mean] of a flat array. *)
Definition mean (l : list Q) : Q := Qsum l / inject_Z (Z.of_nat (length l)).

(** [np.max] of a non-empty flat array. *)
Definition Qmaximum (x : Q) (l : list Q) : Q :=
  fold_left (fun m y => if Qltb m y then y else m) l x.

Abbreviation array2 := (list (list Q)).

(** ** Library functions used by the file *)

(** The rows of an integer array. *)
Abbreviation iarray2 := (list (list Z)).

Class Externals : Type := {
  np_exp : Q -> Q;
  np_pow : Q -> Q -> Q;
  np_log2 : Q -> Q;
  rng_state : Type;
  tau_rand_int : rng_state -> Z * rng_state
}.

(** ** Constants *)

Definition SMOOTH_K_TOLERANCE : Q := 1 # 100000.
Definition MIN_K_DIST_SCALE : Q := 1 # 1000.

(** ** smooth_knn_dist *)

Section SmoothKnn.
Context `{Externals}.

(** [ith_distances[ith_distances > 0.0]] *)
Definition smooth_knn_non_zero (row : list Q) : list Q :=
  List.filter (fun d => Qltb 0 d) row.

(** The local connectivity radius of one row. *)
Definition smooth_knn_rho (row : list Q) (local_connectivity : Q) : result Q :=
  let non_zero_dists := smooth_knn_non_zero row in
  if Qle_bool local_connectivity (inject_Z (Z.of_nat (length non_zero_dists))) then
    let index := Qfloor local_connectivity in
    let interpolation := local_connectivity - inject_Z index in
    if (0 <? index)%Z then
      r ← get non_zero_dists (Z.to_nat (index - 1));
      if Qltb SMOOTH_K_TOLERANCE interpolation then
        nxt ← get non_zero_dists (Z.to_nat index);
        Ok (r + interpolation * (nxt - r))
      else Ok r
    else
      d0 ← get non_zero_dists 0;
      Ok (interpolation * d0)
  else
    match non_zero_dists with
    | [] => Ok 0
    | d :: ds => Ok (Qmaximum d ds)
    end.

(** The inner sum over [j in range(1, distances.shape[1])]. *)
Definition smooth_knn_psum (row : list Q) (rho mid : Q) : Q :=
  fold_left
    (fun psum dij =>
       let d := dij - rho in
       if Qltb 0 d then psum + np_exp (- (d / mid)) else psum + 1)
    (tl row) 0.

(** The loop [for n in range(n_iter)], with [hi = None] for [NPY_INFINITY]. *)
Fixpoint smooth_knn_search (n_iter : nat) (row : list Q) (rho target lo : Q)
    (hi : option Q) (mid : Q) : Q :=
  match n_iter with
  | O => mid
  | S n' =>
      let psum := smooth_knn_psum row rho mid in
      if Qltb (Qabs (psum - target)) SMOOTH_K_TOLERANCE then mid
      else if Qltb target psum then
        smooth_knn_search n' row rho target lo (Some mid) ((lo + mid) / 2)
      else
        match hi with
        | None => smooth_knn_search n' row rho target mid None (mid * 2)
        | Some h => smooth_knn_search n' row rho target mid (Some h) ((mid + h) / 2)
        end
  end.

(** The clamp at the end of the loop body. *)
Definition smooth_knn_floor (mid rho : Q) (row : list Q) (mean_distances : Q) : Q :=
  if Qltb 0 rho then
    let mean_ith_distances := mean row in
    if Qltb mid (MIN_K_DIST_SCALE * mean_ith_distances)
    then MIN_K_DIST_SCALE * mean_ith_distances else mid
  else
    if Qltb mid (MIN_K_DIST_SCALE * mean_distances)
    then MIN_K_DIST_SCALE * mean_distances else mid.

(** One iteration of [for i in range(distances.shape[0])]: [(result[i], rho[i])]. *)
Definition smooth_knn_row (n_iter : nat) (target local_connectivity mean_distances : Q)
    (row : list Q) : result (Q * Q) :=
  rho ← smooth_knn_rho row local_connectivity;
  let mid := smooth_knn_search n_iter row rho target 0 None 1 in
  Ok (smooth_knn_floor mid rho row mean_distances, rho).

Definition smooth_knn_dist (distances : array2) (k : Q) (n_iter : nat)
    (local_connectivity bandwidth : Q) : result (list Q * list Q) :=
  let target := np_log2 k * bandwidth in
  let mean_distances := mean (concat distances) in
  rows ← mapM (smooth_knn_row n_iter target local_connectivity mean_distances) distances;
  Ok (map fst rows, map snd rows).

End SmoothKnn.

(** ** compute_membership_strengths *)

(** The three arrays [rows], [cols], [vals] of the COO triplets. *)
Abbreviation coo := (list Z * list Z * list Q)%type.

Section Membership.
Context `{Externals}.

(** [knn_indices.shape[1]] *)
Definition shape1 {A : Type} (a : list (list A)) : nat :=
  match a with
  | [] => O
  | r :: _ => length r
  end.

(** The value [val] computed for slot [(i, j)] once the neighbour is known
    not to be the sentinel.  The division by [sigmas[i]] is the division of
    compiled code under its default error model: it raises on a zero
    divisor. *)
Definition membership_val (knn_dists : array2) (sigmas rhos : list Q)
    (i j : nat) (idx : Z) : result Q :=
  if (idx =? Z.of_nat i)%Z then Ok 0
  else
    drow ← get knn_dists i;
    d ← get drow j;
    rho ← get rhos i;
    if Qle_bool (d - rho) 0 then Ok 1
    else
      sigma ← get sigmas i;
      if Qeq_bool sigma 0 then Err ZeroDivisionError
      else Ok (np_exp (- ((d - rho) / sigma))).

(** The body of the loop over [j]. *)
Definition membership_cell (knn_indices : iarray2) (knn_dists : array2)
    (sigmas rhos : list Q) (n_neighbors i : nat) (st : coo) (j : nat) : result coo :=
  let '(rows, cols, vals) := st in
  irow ← get knn_indices i;
  idx ← get irow j;
  if (idx =? -1)%Z then Ok st
  else
    val ← membership_val knn_dists sigmas rhos i j idx;
    let pos := (i * n_neighbors + j)%nat in
    Ok (<[pos := Z.of_nat i]> rows, <[pos := idx]> cols, <[pos := val]> vals).

(** A [for] loop whose body may raise. *)
Fixpoint foldM {A St : Type} (f : St -> A -> result St) (l : list A) (s : St)
    : result St :=
  match l with
  | [] => Ok s
  | x :: t => s' ← f s x; foldM f t s'
  end.

Definition compute_membership_strengths (knn_indices : iarray2)
    (knn_dists : array2) (sigmas rhos : list Q) : result coo :=
  let n_samples := length knn_indices in
  let n_neighbors := shape1 knn_indices in
  let size := (n_samples * n_neighbors)%nat in
  let init : coo := (replicate size 0%Z, replicate size 0%Z, replicate size 0) in
  foldM
    (fun st i =>
       foldM (membership_cell knn_indices knn_dists sigmas rhos n_neighbors i)
             (seq 0 n_neighbors) st)
    (seq 0 n_samples) init.

End Membership.

(** ** Sparse matrices

    [scipy.sparse] is library code; a sparse matrix is read as the finite
    map from positions to stored values. *)

Module Sparse.

Abbreviation t := (gmap (nat * nat) Q).

Definition add_entry (m : t) (k : nat * nat) (v : Q) : t :=
  match m !! k with
  | Some old => <[k := old + v]> m
  | None => <[k := v]> m
  end.

(** [coo_matrix((vals, (rows, cols)), shape)]: positions are checked against
    the shape, entries with the same position add up. *)
Fixpoint of_coo (shape : nat * nat) (rows cols : list Z) (vals : list Q) : result t :=
  match rows, cols, vals with
  | r :: rows', c :: cols', v :: vals' =>
      m ← of_coo shape rows' cols' vals';
      if ((0 <=? r) && (r <? Z.of_nat (fst shape))
          && (0 <=? c) && (c <? Z.of_nat (snd shape)))%Z
      then Ok (add_entry m (Z.to_nat r, Z.to_nat c) v)
      else Err (ValueError "index exceeds matrix dimensions")
  | [], [], [] => Ok ∅
  | _, _, _ => Err (ValueError "row, column, and data arrays must be the same length")
  end.

Definition eliminate_zeros (m : t) : t :=
  filter (fun kv => Qeq_bool (snd kv) 0 = false) m.

Definition transpose (m : t) : t := kmap prod_swap m.

(** Element-wise product: stored where both operands are. *)
Definition multiply (a b : t) : t :=
  intersection_with (fun x y => Some (x * y)) a b.

Definition add (a b : t) : t :=
  union_with (fun x y => Some (x + y)) a b.

Definition sub (a b : t) : t :=
  merge (fun ox oy =>
           match ox, oy with
           | Some x, Some y => Some (x - y)
           | Some x, None => Some x
           | None, Some y => Some (- y)
           | None, None => None
           end) a b.

Definition scale (c : Q) (m : t) : t := Qmult c <$> m.

(** The value at a position, stored or not. *)
Definition entry (m : t) (i j : nat) : Q := default 0 (m !! (i, j)).

End Sparse.

(** ** fuzzy_simplicial_set *)

Section FuzzySet.
Context `{Externals}.

(** The function from the point where the neighbour arrays are known; [n] is
    [X.shape[0]]. [smooth_knn_dist] runs with its defaults [n_iter = 64] and
    [bandwidth = 1.0]. *)
Definition fuzzy_simplicial_set (n n_neighbors : nat) (knn_indices : iarray2)
    (knn_dists : array2) (set_op_mix_ratio local_connectivity : Q)
    : result Sparse.t :=
  '(sigmas, rhos) ← smooth_knn_dist knn_dists (inject_Z (Z.of_nat n_neighbors))
                       64 local_connectivity 1;
  '(rows, cols, vals) ← compute_membership_strengths knn_indices knn_dists sigmas rhos;
  result ← Sparse.of_coo (n, n) rows cols vals;
  let result := Sparse.eliminate_zeros result in
  let transpose := Sparse.transpose result in
  let prod_matrix := Sparse.multiply result transpose in
  let result :=
    Sparse.add
      (Sparse.scale set_op_mix_ratio
         (Sparse.sub (Sparse.add result transpose) prod_matrix))
      (Sparse.scale (1 - set_op_mix_ratio) prod_matrix) in
  Ok (Sparse.eliminate_zeros result).

End FuzzySet.

(** ** make_epochs_per_sample *)

(** What a NumPy float division can return. *)
Inductive npfloat : Type :=
| Finite (q : Q)
| PosInf
| NegInf
| NaN.

(** [x / y] on floats: no exception, [0/0] is NaN and [x/0] an infinity. *)
Definition np_divide (x y : Q) : npfloat :=
  if Qeq_bool y 0 then
    if Qeq_bool x 0 then NaN
    else if Qltb 0 x then PosInf else NegInf
  else Finite (x / y).

(** [c * v] *)
Definition np_times (c : Q) (v : npfloat) : npfloat :=
  match v with
  | Finite q => Finite (c * q)
  | PosInf => if Qeq_bool c 0 then NaN else if Qltb 0 c then PosInf else NegInf
  | NegInf => if Qeq_bool c 0 then NaN else if Qltb 0 c then NegInf else PosInf
  | NaN => NaN
  end.

(** [v > 0] *)
Definition np_positive (v : npfloat) : bool :=
  match v with
  | Finite q => Qltb 0 q
  | PosInf => true
  | NegInf | NaN => false
  end.

(** [c / v] for a [v] that passed [v > 0]. *)
Definition np_over (c : Q) (v : npfloat) : Q :=
  match v with
  | Finite q => c / q
  | _ => 0
  end.

(** [n_epochs * (weights / weights.max())] *)
Definition n_samples_of (weights : list Q) (n_epochs wmax : Q) : list npfloat :=
  map (fun w => np_times n_epochs (np_divide w wmax)) weights.

Definition make_epochs_per_sample (weights : list Q) (n_epochs : Q)
    : result (list Q) :=
  match weights with
  | [] => Err (ValueError "zero-size array to reduction operation maximum")
  | w :: ws =>
      let n_samples := n_samples_of weights n_epochs (Qmaximum w ws) in
      Ok (map (fun ns => if np_positive ns then np_over n_epochs ns else -1)
              n_samples)
  end.

(** ** clip, clip_clust, rdist *)

Definition clip_clust (val : Q) : Q :=
  if Qltb 1 val then 1
  else if Qltb val (-1) then -1
  else val.

Definition clip (val : Q) : Q :=
  if Qltb 4 val then 4
  else if Qltb val (-4) then -4
  else val.

(** [rdist]: the loop runs over the positions of [x] and reads [y] there. *)
Fixpoint rdist_from (acc : Q) (x y : list Q) : result Q :=
  match x, y with
  | [], _ => Ok acc
  | xi :: x', yi :: y' => rdist_from (acc + (xi - yi) * (xi - yi)) x' y'
  | _ :: _, [] => Err IndexError
  end.

Definition rdist (x y : list Q) : result Q := rdist_from 0 x y.

(** ** Soft assignments and their target distribution *)

Module Soft.
Section WithExternals.
Context `{Externals}.

(** Column sums [q.sum(0)], one per column of the first row. *)
Definition col_sums (q : array2) : list Q :=
  map (fun k => Qsum (map (fun row => nth k row 0) q)) (seq 0 (shape1 q)).

(** [q ** 2 / q.sum(0)], one row. *)
Definition weight_row (sums row : list Q) : list Q :=
  zip_with (fun x s => x * x / s) row sums.

(** [T]: every weight row divided by its own sum [weight.sum(1)]. *)
Definition T (q : array2) : array2 :=
  let weight := map (weight_row (col_sums q)) q in
  map (fun wrow => map (fun w => w / Qsum wrow) wrow) weight.

(** [S]: the kernel value of every point against every centroid. *)
Definition S (embedding centroids : array2) (a b : Q) : result array2 :=
  mapM (fun data =>
          mapM (fun centroid =>
                  dist_squared ← rdist data centroid;
                  Ok (np_pow (1 + a * np_pow dist_squared b) (-1)))
               centroids)
       embedding.

End WithExternals.
End Soft.

(** ** The optimizers *)

(** The force an in-place addition comes from. *)
Inductive term : Type :=
| Attraction
| Repulsion
| Clustering
| CentroidStep.

(** One in-place addition [x += u_grad * u_rate] to one coordinate. *)
Record update : Type := {
  u_term : term;
  u_grad : Q;
  u_rate : Q
}.

(** [int(x)] on a float: truncation towards zero. *)
Definition Qtrunc (x : Q) : Z := Z.quot (Qnum x) (Z.pos (Qden x)).

Section Optimizer.
Context `{Externals}.

(** The arrays and local variables the loops of [optimize_layout] and
    [init_optimize_layout] write.  [tail_embedding = None] says that the
    caller passed one array object for both embeddings, so that a write
    through either name is seen through the other.  [updates] is a ghost
    log of the additions made, last one first; nothing reads it. *)
Record opt_state : Type := {
  head_embedding : array2;
  tail_embedding : option array2;
  centroids : array2;
  epoch_of_next_sample : list Q;
  epoch_of_next_negative_sample : list Q;
  rng : rng_state;
  eta : Q;
  target : array2;
  updates : list update
}.

Definition tail_array (st : opt_state) : array2 :=
  match tail_embedding st with
  | None => head_embedding st
  | Some t => t
  end.

Definition set_head (st : opt_state) (h : array2) : opt_state :=
  {| head_embedding := h; tail_embedding := tail_embedding st;
     centroids := centroids st;
     epoch_of_next_sample := epoch_of_next_sample st;
     epoch_of_next_negative_sample := epoch_of_next_negative_sample st;
     rng := rng st; eta := eta st; target := target st;
     updates := updates st |}.

Definition set_tail (st : opt_state) (t : array2) : opt_state :=
  match tail_embedding st with
  | None => set_head st t
  | Some _ =>
      {| head_embedding := head_embedding st; tail_embedding := Some t;
         centroids := centroids st;
         epoch_of_next_sample := epoch_of_next_sample st;
         epoch_of_next_negative_sample := epoch_of_next_negative_sample st;
         rng := rng st; eta := eta st; target := target st;
         updates := updates st |}
  end.

Definition set_centroids (st : opt_state) (c : array2) : opt_state :=
  {| head_embedding := head_embedding st; tail_embedding := tail_embedding st;
     centroids := c;
     epoch_of_next_sample := epoch_of_next_sample st;
     epoch_of_next_negative_sample := epoch_of_next_negative_sample st;
     rng := rng st; eta := eta st; target := target st;
     updates := updates st |}.

Definition set_next_sample (st : opt_state) (e : list Q) : opt_state :=
  {| head_embedding := head_embedding st; tail_embedding := tail_embedding st;
     centroids := centroids st;
     epoch_of_next_sample := e;
     epoch_of_next_negative_sample := epoch_of_next_negative_sample st;
     rng := rng st; eta := eta st; target := target st;
     updates := updates st |}.

Definition set_next_negative_sample (st : opt_state) (e : list Q) : opt_state :=
  {| head_embedding := head_embedding st; tail_embedding := tail_embedding st;
     centroids := centroids st;
     epoch_of_next_sample := epoch_of_next_sample st;
     epoch_of_next_negative_sample := e;
     rng := rng st; eta := eta st; target := target st;
     updates := updates st |}.

Definition set_rng (st : opt_state) (r : rng_state) : opt_state :=
  {| head_embedding := head_embedding st; tail_embedding := tail_embedding st;
     centroids := centroids st;
     epoch_of_next_sample := epoch_of_next_sample st;
     epoch_of_next_negative_sample := epoch_of_next_negative_sample st;
     rng := r; eta := eta st; target := target st;
     updates := updates st |}.

Definition set_eta (st : opt_state) (e : Q) : opt_state :=
  {| head_embedding := head_embedding st; tail_embedding := tail_embedding st;
     centroids := centroids st;
     epoch_of_next_sample := epoch_of_next_sample st;
     epoch_of_next_negative_sample := epoch_of_next_negative_sample st;
     rng := rng st; eta := e; target := target st;
     updates := updates st |}.

Definition set_target (st : opt_state) (t : array2) : opt_state :=
  {| head_embedding := head_embedding st; tail_embedding := tail_embedding st;
     centroids := centroids st;
     epoch_of_next_sample := epoch_of_next_sample st;
     epoch_of_next_negative_sample := epoch_of_next_negative_sample st;
     rng := rng st; eta := eta st; target := t;
     updates := updates st |}.

Definition log (st : opt_state) (u : update) : opt_state :=
  {| head_embedding := head_embedding st; tail_embedding := tail_embedding st;
     centroids := centroids st;
     epoch_of_next_sample := epoch_of_next_sample st;
     epoch_of_next_negative_sample := epoch_of_next_negative_sample st;
     rng := rng st; eta := eta st; target := target st;
     updates := u :: updates st |}.

(** [a[i, d]] and [a[i, d] = v] *)
Definition read_cell (a : array2) (i d : nat) : result Q :=
  row ← get a i; get row d.

Definition write_cell (a : array2) (i d : nat) (v : Q) : array2 :=
  alter (fun row => <[d := v]> row) i a.

(** [current[d] += grad * rate] where [current] is row [j] of the head
    embedding. *)
Definition add_to_current (tm : term) (j d : nat) (grad rate : Q)
    (st : opt_state) : result opt_state :=
  x ← read_cell (head_embedding st) j d;
  Ok (log (set_head st (write_cell (head_embedding st) j d (x + grad * rate)))
          {| u_term := tm; u_grad := grad; u_rate := rate |}).

(** [other[d] += grad * rate] where [other] is row [k] of the tail
    embedding. *)
Definition add_to_other (tm : term) (k d : nat) (grad rate : Q)
    (st : opt_state) : result opt_state :=
  x ← read_cell (tail_array st) k d;
  Ok (log (set_tail st (write_cell (tail_array st) k d (x + grad * rate)))
          {| u_term := tm; u_grad := grad; u_rate := rate |}).

(** The coefficient of the attractive force. *)
Definition attraction_coeff (a b dist_squared : Q) : Q :=
  if Qltb 0 dist_squared then
    (-2 * a * b * np_pow dist_squared (b - 1)) / (a * np_pow dist_squared b + 1)
  else 0.

(** The positive sample of edge [(j, k)]: [rate_current] is what
    [current[d]] is scaled with, [rate_other] what [other[d]] is. *)
Definition attract (a b rate_current rate_other : Q) (move_other : bool)
    (dim j k : nat) (st : opt_state) : result opt_state :=
  current ← get (head_embedding st) j;
  other ← get (tail_array st) k;
  dist_squared ← rdist current other;
  let grad_coeff := attraction_coeff a b dist_squared in
  foldM
    (fun st d =>
       cd ← read_cell (head_embedding st) j d;
       od ← read_cell (tail_array st) k d;
       let grad_d := clip (grad_coeff * (cd - od)) in
       st ← add_to_current Attraction j d grad_d rate_current st;
       if move_other then add_to_other Attraction k d (- grad_d) rate_other st
       else Ok st)
    (seq 0 dim) st.

(** The loop over the coordinates of one negative sample. *)
Definition repel_coords (grad_coeff rate : Q) (dim j k : nat) (st : opt_state)
    : result opt_state :=
  foldM
    (fun st d =>
       grad_d ← (if Qltb 0 grad_coeff then
                   cd ← read_cell (head_embedding st) j d;
                   od ← read_cell (tail_array st) k d;
                   Ok (clip (grad_coeff * (cd - od)))
                 else Ok 4);
       add_to_current Repulsion j d grad_d rate st)
    (seq 0 dim) st.

(** One iteration of [for p in range(n_neg_samples)]. *)
Definition negative_sample (a b gamma rate : Q) (n_vertices : Z) (dim j : nat)
    (st : opt_state) : result opt_state :=
  let '(r, rng') := tau_rand_int (rng st) in
  let st := set_rng st rng' in
  if (n_vertices =? 0)%Z then Err ZeroDivisionError
  else
    let k := (r mod n_vertices)%Z in
    if (k <? 0)%Z then Err IndexError
    else
      current ← get (head_embedding st) j;
      other ← get (tail_array st) (Z.to_nat k);
      dist_squared ← rdist current other;
      if Qltb 0 dist_squared then
        let grad_coeff :=
          (2 * gamma * b)
          / ((0.001 + dist_squared) * (a * np_pow dist_squared b + 1)) in
        repel_coords grad_coeff rate dim j (Z.to_nat k) st
      else if (Z.of_nat j =? k)%Z then Ok st
      else repel_coords 0 rate dim j (Z.to_nat k) st.

(** [int((n - epoch_of_next_negative_sample[i]) / epochs_per_negative_sample[i])] *)
Definition n_neg_samples_of (n : nat) (next_negative per_negative : Q) : Z :=
  Qtrunc ((inject_Z (Z.of_nat n) - next_negative) / per_negative).

(** The test [epoch_of_next_sample[i] <= n] that decides whether edge [i]
    is sampled in epoch [n]. *)
Definition sample_due (next_sample : Q) (n : nat) : bool :=
  Qle_bool next_sample (inject_Z (Z.of_nat n)).

(** [x[i] += v] on a flat array. *)
Definition bump (x : list Q) (i : nat) (v : Q) : result (list Q) :=
  old ← get x i; Ok (<[i := old + v]> x).

(** The coefficient of the force between a point and a centroid, with the
    sign given by [sign]. *)
Definition centroid_coeff (sign a b dist_squared : Q) : Q :=
  if Qltb 0 dist_squared then
    (sign * a * b * np_pow dist_squared (b - 1)) / (a * np_pow dist_squared b + 1)
  else 0.

(** [row += v] for a whole row. *)
Definition add_scalar (v : Q) (row : list Q) : list Q := map (fun x => x + v) row.

Definition log_all (st : opt_state) (us : list update) : opt_state :=
  fold_left log us st.

(** One iteration of the loop over the centroids inside a sampled edge:
    [current += grad_coeff * beta * etaKL * 1e-5]. *)
Definition cluster_pull (a b : Q) (j : nat) (st : opt_state) (k : nat)
    : result opt_state :=
  centroid ← get (centroids st) k;
  current ← get (head_embedding st) j;
  dist_squared ← rdist current centroid;
  let grad_coeff := clip_clust (centroid_coeff 2 a b dist_squared) in
  let rate := 1 * 1 * 0.00001 in
  let st := set_head st (alter (add_scalar (grad_coeff * rate)) j (head_embedding st)) in
  Ok (log_all st
        (replicate (length current)
           {| u_term := Clustering; u_grad := grad_coeff; u_rate := rate |})).

(** The body of [if epoch_of_next_sample[i] <= n] in [optimize_layout]. *)
Definition sampled_edge (head tail : list nat) (epochs_per_sample
    epochs_per_negative_sample : list Q) (a b gamma : Q) (n_vertices : Z)
    (n_clusters dim : nat) (move_other : bool) (n i : nat) (st : opt_state)
    : result opt_state :=
  j ← get head i;
  k ← get tail i;
  st ← attract a b (eta st * 1) (eta st) move_other dim j k st;
  per_sample ← get epochs_per_sample i;
  next ← bump (epoch_of_next_sample st) i per_sample;
  let st := set_next_sample st next in
  next_negative ← get (epoch_of_next_negative_sample st) i;
  per_negative ← get epochs_per_negative_sample i;
  let n_neg_samples := n_neg_samples_of n next_negative per_negative in
  st ← foldM (fun st _ => negative_sample a b gamma (eta st) n_vertices dim j st)
        (seq 0 (Z.to_nat n_neg_samples)) st;
  st ← foldM (cluster_pull a b j) (seq 0 n_clusters) st;
  next_neg ← bump (epoch_of_next_negative_sample st) i
                (inject_Z n_neg_samples * per_negative);
  Ok (set_next_negative_sample st next_neg).

(** The centroid pass at the end of an epoch, for centroid [k] and point
    [i]: [centroid += (grad_coeff * etaKL) / (nn_sample * 100)]. *)
Definition centroid_push (a b : Q) (nn_sample k : nat) (st : opt_state) (i : nat)
    : result opt_state :=
  centroid ← get (centroids st) k;
  current ← get (head_embedding st) i;
  dist_squared ← rdist current centroid;
  let grad_coeff := clip (centroid_coeff (-2) a b dist_squared) in
  let rate := 1 / (inject_Z (Z.of_nat nn_sample) * 100) in
  let st := set_centroids st
              (alter (add_scalar (grad_coeff * 1 / (inject_Z (Z.of_nat nn_sample) * 100)))
                     k (centroids st)) in
  Ok (log_all st
        (replicate (length centroid)
           {| u_term := CentroidStep; u_grad := grad_coeff; u_rate := rate |})).

(** One epoch [n] of [optimize_layout]. *)
Definition optimize_epoch (head tail : list nat) (epochs_per_sample
    epochs_per_negative_sample : list Q) (a b gamma : Q) (n_vertices : Z)
    (n_clusters dim : nat) (move_other : bool) (n_epochs update_interval : nat)
    (st : opt_state) (n : nat) : result opt_state :=
  st ← (if (n mod update_interval =? 0)%nat then
          soft ← Soft.S (head_embedding st) (centroids st) a b;
          Ok (set_target st (Soft.T soft))
        else Ok st);
  st ← foldM
        (fun st i =>
           next ← get (epoch_of_next_sample st) i;
           if sample_due next n then
             sampled_edge head tail epochs_per_sample epochs_per_negative_sample
               a b gamma n_vertices n_clusters dim move_other n i st
           else Ok st)
        (seq 0 (length epochs_per_sample)) st;
  let nn_sample := length (head_embedding st) in
  st ← foldM
        (fun st k => foldM (centroid_push a b nn_sample k) (seq 0 nn_sample) st)
        (seq 0 n_clusters) st;
  Ok (set_eta st (1 * (1 - inject_Z (Z.of_nat n) / inject_Z (Z.of_nat n_epochs)))).

(** [optimize_layout].  The arguments [n_epochs], [y_pred], [P] and
    [initial_eta] are not read: the body starts by setting
    [update_interval = 5] and [n_epochs = 10].  In the array division
    [epochs_per_sample / negative_sample_rate] a zero rate gives [0] here and
    a non-finite float in the source; either way no negative sample is
    drawn.  The diagnostic arrays [derv_zi_ce], [derv_zi_kl], [derv_muk_kl]
    and [max_dist] are left out; the result is the pair of the head embedding
    and the centroids, the first two components of the tuple returned. *)
Definition optimize_layout (head_emb : array2) (tail_emb : option array2)
    (head tail : list nat) (n_epochs : Q) (y_pred : list Z) (cents : array2)
    (P : Q) (n_vertices : Z) (epochs_per_sample : list Q) (a b : Q)
    (n_clusters : nat) (rng0 : rng_state)
    (gamma initial_eta negative_sample_rate : Q)
    : result opt_state :=
  let update_interval := 5%nat in
  let n_epochs := 10%nat in
  let dim := shape1 head_emb in
  let move_other :=
    match tail_emb with
    | None => true
    | Some t => (length head_emb =? length t)%nat
    end in
  let epochs_per_negative_sample :=
    map (fun e => e / negative_sample_rate) epochs_per_sample in
  let st := {| head_embedding := head_emb; tail_embedding := tail_emb;
               centroids := cents;
               epoch_of_next_sample := epochs_per_sample;
               epoch_of_next_negative_sample := epochs_per_negative_sample;
               rng := rng0; eta := 1; target := []; updates := [] |} in
  foldM (optimize_epoch head tail epochs_per_sample epochs_per_negative_sample
           a b gamma n_vertices n_clusters dim move_other n_epochs update_interval)
        (seq 0 n_epochs) st.

(** The body of [if epoch_of_next_sample[i] <= n] in [init_optimize_layout]. *)
Definition init_sampled_edge (head tail : list nat) (epochs_per_sample
    epochs_per_negative_sample : list Q) (a b gamma : Q) (n_vertices : Z)
    (dim : nat) (move_other : bool) (n i : nat) (st : opt_state)
    : result opt_state :=
  j ← get head i;
  k ← get tail i;
  st ← attract a b (eta st) (eta st) move_other dim j k st;
  per_sample ← get epochs_per_sample i;
  next ← bump (epoch_of_next_sample st) i per_sample;
  let st := set_next_sample st next in
  next_negative ← get (epoch_of_next_negative_sample st) i;
  per_negative ← get epochs_per_negative_sample i;
  let n_neg_samples := n_neg_samples_of n next_negative per_negative in
  st ← foldM (fun st _ => negative_sample a b gamma (eta st) n_vertices dim j st)
        (seq 0 (Z.to_nat n_neg_samples)) st;
  next_neg ← bump (epoch_of_next_negative_sample st) i
                (inject_Z n_neg_samples * per_negative);
  Ok (set_next_negative_sample st next_neg).

(** [init_optimize_layout]: the attraction and repulsion loops alone, over
    the caller's [n_epochs], with [alpha] (kept in [eta]) annealed from
    [initial_alpha]. *)
Definition init_optimize_layout (head_emb : array2) (tail_emb : option array2)
    (head tail : list nat) (n_epochs : nat) (P : Q) (n_vertices : Z)
    (epochs_per_sample : list Q) (a b : Q) (rng0 : rng_state)
    (gamma initial_alpha negative_sample_rate : Q) : result opt_state :=
  let dim := shape1 head_emb in
  let move_other :=
    match tail_emb with
    | None => true
    | Some t => (length head_emb =? length t)%nat
    end in
  let epochs_per_negative_sample :=
    map (fun e => e / negative_sample_rate) epochs_per_sample in
  let st := {| head_embedding := head_emb; tail_embedding := tail_emb;
               centroids := [];
               epoch_of_next_sample := epochs_per_sample;
               epoch_of_next_negative_sample := epochs_per_negative_sample;
               rng := rng0; eta := initial_alpha; target := []; updates := [] |} in
  foldM
    (fun st n =>
       st ← foldM
             (fun st i =>
                next ← get (epoch_of_next_sample st) i;
                if sample_due next n then
                  init_sampled_edge head tail epochs_per_sample
                    epochs_per_negative_sample a b gamma n_vertices dim
                    move_other n i st
                else Ok st)
             (seq 0 (length epochs_per_sample)) st;
       Ok (set_eta st (initial_alpha
                       * (1 - inject_Z (Z.of_nat n) / inject_Z (Z.of_nat n_epochs)))))
    (seq 0 n_epochs) st.

End Optimizer.

(** ** init_transform *)

(** The weighted average of the neighbours' embedded positions. *)
Definition init_transform (indices : list (list nat)) (weights embedding : array2)
    : result array2 :=
  let dim := shape1 embedding in
  let n_nb := shape1 indices in
  foldM
    (fun result i =>
       foldM
         (fun result j =>
            foldM
              (fun result d =>
                 irow ← get indices i;
                 ij ← get irow j;
                 w ← read_cell weights i j;
                 e ← read_cell embedding ij d;
                 old ← read_cell result i d;
                 Ok (write_cell result i d (old + w * e)))
              (seq 0 dim) result)
         (seq 0 n_nb) result)
    (seq 0 (length indices))
    (replicate (length indices) (replicate dim 0)).

(** ** Calls with positional and keyword arguments *)

Inductive pynum : Type :=
| PyInt (z : Z)
| PyFloat (q : Q).

Definition num_val (x : pynum) : Q :=
  match x with
  | PyInt z => inject_Z z
  | PyFloat q => q
  end.

Section Values.
Context `{Externals}.

(** The values that are passed to and returned by the optimizers;
    [VLayout] is the tuple [optimize_layout] returns, with its embedding and
    centroid components. *)
Inductive pyval : Type :=
| VArray2 (a : array2)
| VArray1 (a : list Q)
| VIndex (a : list nat)
| VNum (x : pynum)
| VBool (b : bool)
| VRng (r : rng_state)
| VLayout (head_emb cents : array2).

Inductive param : Type :=
| Required (name : string)
| Defaulted (name : string) (default : pyval).

Definition param_name (p : param) : string :=
  match p with
  | Required n => n
  | Defaulted n _ => n
  end.

Definition keyword (name : string) (kwargs : list (string * pyval)) : option pyval :=
  snd <$> List.find (fun kv => String.eqb (fst kv) name) kwargs.

(** Python's binding of a call's arguments to a function's parameters: the
    values in parameter order, or the [TypeError] of the call. *)
Fixpoint bind_arguments (params : list param) (args : list pyval)
    (kwargs : list (string * pyval)) : result (list pyval) :=
  match params, args with
  | [], [] =>
      match kwargs with
      | [] => Ok []
      | _ :: _ => Err (TypeError "got an unexpected keyword argument")
      end
  | [], _ :: _ => Err (TypeError "too many positional arguments")
  | p :: ps, v :: vs =>
      match keyword (param_name p) kwargs with
      | Some _ => Err (TypeError "multiple values for argument")
      | None => rest ← bind_arguments ps vs kwargs; Ok (v :: rest)
      end
  | p :: ps, [] =>
      let others :=
        List.filter (fun kv => negb (String.eqb (fst kv) (param_name p))) kwargs in
      match keyword (param_name p) kwargs, p with
      | Some v, _ => rest ← bind_arguments ps [] others; Ok (v :: rest)
      | None, Defaulted _ d => rest ← bind_arguments ps [] others; Ok (d :: rest)
      | None, Required n =>
          Err (TypeError ("missing a required argument: " ++ n))
      end
  end.

(** The parameter list of [optimize_layout]. *)
Definition optimize_layout_params : list param :=
  [ Required "head_embedding"; Required "tail_embedding"; Required "head";
    Required "tail"; Required "n_epochs"; Required "y_pred";
    Required "centroids"; Required "P"; Required "n_vertices";
    Required "epochs_per_sample"; Required "a"; Required "b";
    Required "n_clusters"; Required "rng_state";
    Defaulted "gamma" (VNum (PyFloat 1));
    Defaulted "initial_eta" (VNum (PyFloat 0.00001));
    Defaulted "negative_sample_rate" (VNum (PyFloat 5));
    Defaulted "verbose" (VBool false) ].

(** [optimize_layout] entered with bound arguments: they are read at the
    types the body uses them at, and the result is the returned tuple (its
    embedding and centroid components). *)
Definition optimize_layout_bound (bound : list pyval) : result pyval :=
  match bound with
  | [ VArray2 head_emb; VArray2 tail_emb; VIndex head; VIndex tail; VNum n_epochs;
      VIndex y_pred; VArray2 cents; VNum P; VNum (PyInt n_vertices);
      VArray1 epochs_per_sample; VNum a; VNum b; VNum (PyInt n_clusters);
      VRng r; VNum gamma; VNum initial_eta; VNum negative_sample_rate;
      VBool _ ] =>
      st ← optimize_layout head_emb (Some tail_emb) head tail (num_val n_epochs)
             (map Z.of_nat y_pred) cents (num_val P) n_vertices epochs_per_sample
             (num_val a) (num_val b) (Z.to_nat n_clusters) r (num_val gamma)
             (num_val initial_eta) (num_val negative_sample_rate);
      Ok (VLayout (head_embedding st) (centroids st))
  | _ => Err (TypeError "no matching definition for argument types")
  end.

(** A call of [optimize_layout] with the positional arguments [args] and the
    keyword arguments [kwargs]. *)
Definition call_optimize_layout (args : list pyval)
    (kwargs : list (string * pyval)) : result pyval :=
  bound ← bind_arguments optimize_layout_params args kwargs;
  optimize_layout_bound bound.

End Values.

(** ** The estimator *)

Inductive init_arg : Type :=
| InitStr (s : string)
| InitArray (a : array2)
| InitOther.

Inductive metric_arg : Type :=
| MetricStr (s : string)
| MetricCallable
| MetricOther.

(** An input array of [fit] or [transform]: its rows, and whether it is a
    CSR sparse matrix.  An array that [check_array] accepts is returned with
    the same content, so that [check_array] below is the test alone;
    [transform] is entered with an array that has passed it. *)
Record dataset : Type := {
  samples : array2;
  is_csr : bool
}.

(** Code the estimator calls that is not in the file: functions of
    [joblib], [sklearn], [scipy] and [numpy], and the parts of this file that
    rest on modules outside it ([nearest_neighbors] on the forest and descent
    of [uecpv.rp_tree] and [uecpv.nndescent], the fusion with a target graph
    on [uecpv.sparse] and [normalize]).  A piece whose type is not a
    [result] is taken to return. *)
Class Collaborators `{Externals} : Type := {
  joblib_hash : dataset -> string;
  (** [check_array(X, dtype=np.float32, ...)]: the exception it raises on an
      array it refuses *)
  check_array : dataset -> result unit;
  (** [curve_fit(curve, xv, yv)] for [curve(x, a, b) = 1 / (1 + a x^(2b))]:
      the fitted [params[0], params[1]], or the exception it raises *)
  curve_fit : list Q -> list npfloat -> result (Q * Q);
  pairwise_distances : array2 -> array2 -> metric_arg -> array2;
  (** [nearest_neighbors] on a distance matrix ([metric = "precomputed"]) *)
  knn_precomputed : array2 -> nat -> iarray2 * array2;
  (** [nearest_neighbors] by random projection forest and descent *)
  knn_descent : dataset -> nat -> metric_arg -> result (iarray2 * array2);
  (** the neighbours of new points among the fitted ones, small data *)
  knn_exact_new : array2 -> nat -> iarray2 * array2;
  (** the same through [initialise_search] and the search graph *)
  knn_search_new : dataset -> dataset -> nat -> iarray2 * array2;
  (** [normalize(graph.tocsr(), norm="l1")] reshaped to [(n, k)] *)
  l1_rows : nat * nat -> list Z -> list Z -> list Q -> nat
            -> result (list (list nat) * array2);
  (** the initial coordinates for ["random"], ["spectral"] or a given array *)
  initial_layout : init_arg -> dataset -> list (nat * nat * Q) -> nat -> array2;
  (** [KMeans(n_clusters, random_state=0)]: labels and centres *)
  kmeans : array2 -> nat -> list nat * array2;
  (** [random_state.randint(INT32_MIN, INT32_MAX, 3)] *)
  seed_rng : option Z -> rng_state;
  (** the supervised branch of [fit]: the graph fused with the graph of the
      target [y] and its local connectivity reset *)
  target_fusion : Sparse.t -> list Q -> Sparse.t
}.

Section CurveParameters.
Context `{Collaborators}.

(** [np.linspace(0, stop, num)]: the points [i * (stop / (num - 1))]. *)
Definition linspace (stop : Q) (num : nat) : list Q :=
  map (fun i => inject_Z (Z.of_nat i) * (stop / inject_Z (Z.of_nat (num - 1))))
      (seq 0 num).

(** [np.exp] of what an array division returned. *)
Definition np_exp_of (v : npfloat) : npfloat :=
  match v with
  | Finite q => Finite (np_exp q)
  | PosInf => PosInf
  | NegInf => Finite 0
  | NaN => NaN
  end.

(** [find_ab_params]: the offset exponential decay sampled at 300 points of
    [[0, 3 * spread]], handed to [curve_fit].  Every point falls under one of
    the two masks [xv < min_dist] and [xv >= min_dist]; the division by
    [spread] is NumPy's. *)
Definition find_ab_params (spread min_dist : Q) : result (Q * Q) :=
  let xv := linspace (spread * 3) 300 in
  let yv :=
    map (fun x => if Qltb x min_dist then Finite 1
                  else np_exp_of (np_divide (- (x - min_dist)) spread)) xv in
  curve_fit xv yv.

End CurveParameters.

(** Index of the first largest element, [argmax]. *)
Fixpoint argmax_from (best : Q) (best_i i : nat) (l : list Q) : nat :=
  match l with
  | [] => best_i
  | x :: t =>
      if Qltb best x then argmax_from x i (Datatypes.S i) t
      else argmax_from best best_i (Datatypes.S i) t
  end.

Definition argmax (l : list Q) : nat :=
  match l with
  | [] => O
  | x :: t => argmax_from x O 1%nat t
  end.

(** [graph.data[graph.data < graph.data.max() / float(n_epochs)] = 0.0]
    followed by [graph.eliminate_zeros()], on COO triplets. *)
Definition prune_coo (n_epochs : Q) (g : list (nat * nat * Q))
    : result (list (nat * nat * Q)) :=
  match map snd g with
  | [] => Err (ValueError "zero-size array to reduction operation maximum")
  | w :: ws =>
      let cut := Qmaximum w ws / n_epochs in
      Ok (List.filter
            (fun e => negb (Qltb (snd e) cut) && negb (Qeq_bool (snd e) 0)) g)
  end.

Section Embedding.
Context `{Collaborators}.

(** [simplicial_set_embedding]: the embedding, the labels and the centroids. *)
Definition simplicial_set_embedding (data : dataset) (graph : Sparse.t)
    (n_vertices : nat) (n_components n_clusters : nat)
    (initial_alpha a b gamma negative_sample_rate : Q) (n_epochs : Z) (P : Q)
    (init : init_arg) (random_state : option Z)
    : result (array2 * list nat * array2) :=
  let graph := map_to_list graph in
  let n_epochs :=
    if (n_epochs <=? 0)%Z then
      if (Z.of_nat n_vertices <=? 10000)%Z then 500%Z else 200%Z
    else n_epochs in
  graph ← prune_coo (inject_Z n_epochs) graph;
  let embedding := initial_layout init data graph n_components in
  epochs_per_sample ← make_epochs_per_sample (map snd graph) (inject_Z n_epochs);
  let head := map (fun e => fst (fst e)) graph in
  let tail := map (fun e => snd (fst e)) graph in
  let rng_state := seed_rng random_state in
  st ← init_optimize_layout embedding None head tail (Z.to_nat n_epochs) P
         (Z.of_nat n_vertices) epochs_per_sample a b rng_state gamma
         initial_alpha negative_sample_rate;
  let embedding := head_embedding st in
  let '(y_pred, cents) := kmeans embedding n_clusters in
  st ← optimize_layout embedding None head tail (inject_Z n_epochs)
         (map Z.of_nat y_pred) cents P (Z.of_nat n_vertices) epochs_per_sample
         a b n_clusters (rng st) gamma initial_alpha negative_sample_rate;
  let embedding := head_embedding st in
  let cents := centroids st in
  soft ← Soft.S embedding cents a b;
  Ok (embedding, map argmax soft, cents).

End Embedding.

Module UEC_PV.

(** The constructor arguments. *)
Record params : Type := {
  n_neighbors : Z;
  n_components : pynum;
  metric : metric_arg;
  n_epochs : option pynum;
  n_clusters : nat;
  learning_rate : Q;
  init : init_arg;
  min_dist : Q;
  spread : Q;
  set_op_mix_ratio : Q;
  local_connectivity : Q;
  repulsion_strength : Q;
  negative_sample_rate : Q;
  transform_queue_size : Q;
  a : option Q;
  b : option Q;
  random_state : option Z;
  target_n_neighbors : Z;
  transform_seed : Z
}.

(** The estimator object: its parameters and the attributes [fit] sets, each
    [None] until it is assigned. *)
Record estimator : Type := {
  config : params;
  _raw_data : option dataset;
  _a : option Q;
  _b : option Q;
  _initial_alpha : option Q;
  embedding_ : option array2;
  _n_neighbors : option nat;
  _sparse_data : option bool;
  _small_data : option bool;
  graph_ : option Sparse.t;
  y_pred : option (list nat);
  centroids : option array2;
  _input_hash : option string
}.

Definition new (p : params) : estimator :=
  {| config := p; _raw_data := None; _a := None; _b := None;
     _initial_alpha := None; embedding_ := None; _n_neighbors := None;
     _sparse_data := None; _small_data := None; graph_ := None;
     y_pred := None; centroids := None; _input_hash := None |}.

(** Reading an attribute that was never assigned. *)
Definition attr {A : Type} (name : string) (o : option A) : result A :=
  match o with
  | Some x => Ok x
  | None => Err (AttributeError name)
  end.

Definition is_int (x : pynum) : bool :=
  match x with PyInt _ => true | PyFloat _ => false end.

Definition check (bad : bool) (msg : string) : result unit :=
  if bad then Err (ValueError msg) else Ok tt.

Definition _validate_parameters (p : params) (initial_alpha : Q) : result unit :=
  _ ← check (Qltb (set_op_mix_ratio p) 0 || Qltb 1 (set_op_mix_ratio p))
        "set_op_mix_ratio must be between 0.0 and 1.0";
  _ ← check (Qltb (repulsion_strength p) 0) "repulsion_strength cannot be negative";
  _ ← check (Qltb (spread p) (min_dist p))
        "min_dist must be less than or equal to spread";
  _ ← check (Qltb (min_dist p) 0) "min_dist must be greater than 0.0";
  _ ← check (match init p with InitOther => true | _ => false end)
        "init must be a string or ndarray";
  _ ← check (match init p with
             | InitStr s => negb (String.eqb s "spectral" || String.eqb s "random")
             | _ => false
             end)
        "string init values must be spectral or random";
  _ ← check (match init p with
             | InitArray arr =>
                 negb (Qeq_bool (inject_Z (Z.of_nat (shape1 arr)))
                                (num_val (n_components p)))
             | _ => false
             end)
        "init ndarray must match n_components value";
  _ ← check (match metric p with MetricOther => true | _ => false end)
        "metric must be string or callable";
  _ ← check (Qltb (negative_sample_rate p) 0) "negative sample rate must be positive";
  _ ← check (Qltb initial_alpha 0) "learning_rate must be positive";
  _ ← check (n_neighbors p <? 2)%Z "n_neighbors must be greater than 2";
  _ ← check ((target_n_neighbors p <? 2)%Z
             && negb (target_n_neighbors p =? -1)%Z)
        "target_n_neighbors must be greater than 2";
  _ ← check (negb (is_int (n_components p))) "n_components must be an int";
  _ ← check (Qltb (num_val (n_components p)) 1) "n_components must be greater than 0";
  check (match n_epochs p with
         | None => false
         | Some e => Qle_bool (num_val e) 10 || negb (is_int e)
         end)
    "n_epochs must be a positive integer larger than 10".

Section Methods.
Context `{Collaborators}.

(** The assignments [fit] makes before it looks at the size of the data. *)
Definition with_setup (self : estimator) (X : dataset) (ab : Q * Q) : estimator :=
  {| config := config self; _raw_data := Some X;
     _a := Some (fst ab); _b := Some (snd ab);
     _initial_alpha := Some (learning_rate (config self));
     embedding_ := embedding_ self; _n_neighbors := _n_neighbors self;
     _sparse_data := _sparse_data self; _small_data := _small_data self;
     graph_ := graph_ self; y_pred := y_pred self; centroids := centroids self;
     _input_hash := _input_hash self |}.

Definition with_embedding (self : estimator) (e : array2) : estimator :=
  {| config := config self; _raw_data := _raw_data self;
     _a := _a self; _b := _b self; _initial_alpha := _initial_alpha self;
     embedding_ := Some e; _n_neighbors := _n_neighbors self;
     _sparse_data := _sparse_data self; _small_data := _small_data self;
     graph_ := graph_ self; y_pred := y_pred self; centroids := centroids self;
     _input_hash := _input_hash self |}.

(** The attributes assigned on the way through the rest of [fit]. *)
Definition with_fit (self : estimator) (k : nat) (small : bool) (g : Sparse.t)
    (e : array2) (labels : list nat) (cents : array2) : estimator :=
  {| config := config self; _raw_data := _raw_data self;
     _a := _a self; _b := _b self; _initial_alpha := _initial_alpha self;
     embedding_ := Some e; _n_neighbors := Some k;
     _sparse_data := is_csr <$> _raw_data self; _small_data := Some small;
     graph_ := Some g; y_pred := Some labels; centroids := Some cents;
     _input_hash := joblib_hash <$> _raw_data self |}.

(** The curve parameters of a run: [self.a] and [self.b] when both are
    given, the fit of [find_ab_params] otherwise. *)
Definition ab_params (p : params) : result (Q * Q) :=
  match a p, b p with
  | Some a0, Some b0 => Ok (a0, b0)
  | _, _ => find_ab_params (spread p) (min_dist p)
  end.

(** [check_array(self.init, dtype=np.float32, accept_sparse=False)] when
    [init] is an array. *)
Definition check_init (p : params) : result unit :=
  match init p with
  | InitArray a0 => check_array {| samples := a0; is_csr := false |}
  | _ => Ok tt
  end.

(** [fit(X, y)] on the estimator [self]: the estimator after the call.
    [check_array], the curve parameters and the check of an [init] array
    come first, in this order, then [_validate_parameters] and the test of
    the size of the data.  On large data the search structures kept for
    [transform] ([_search_graph], [_rp_forest], the distance function) live
    inside [knn_search_new]; an unrecognised metric name is refused by
    [knn_descent], as [nearest_neighbors] does before [fit] looks at it
    again. *)
Definition fit (self : estimator) (X : dataset) (y : option (list Q))
    : result estimator :=
  let p := config self in
  _ ← check_array X;
  ab ← ab_params p;
  _ ← check_init p;
  let self := with_setup self X ab in
  _ ← _validate_parameters p (learning_rate p);
  let n := length (samples X) in
  if (Z.of_nat n <=? n_neighbors p)%Z && (n =? 1)%nat then
    Ok (with_embedding self [replicate (Z.to_nat (Qfloor (num_val (n_components p)))) 0])
  else
    let k := if (Z.of_nat n <=? n_neighbors p)%Z then (n - 1)%nat
             else Z.to_nat (n_neighbors p) in
    let small := (Z.of_nat n <? 4096)%Z in
    graph ←
      (if small then
         let dmat := pairwise_distances (samples X) (samples X) (metric p) in
         let '(knn_indices, knn_dists) := knn_precomputed dmat k in
         fuzzy_simplicial_set n k knn_indices knn_dists
           (set_op_mix_ratio p) (local_connectivity p)
       else
         '(knn_indices, knn_dists) ← knn_descent X k (metric p);
         fuzzy_simplicial_set n (Z.to_nat (n_neighbors p)) knn_indices knn_dists
           (set_op_mix_ratio p) (local_connectivity p));
    graph ←
      match y with
      | None => Ok graph
      | Some labels =>
          _ ← check (negb (n =? length labels)%nat)
                "Length of x and length of y must be equal";
          Ok (target_fusion graph labels)
      end;
    let n_epochs0 :=
      match n_epochs p with
      | None => 0%Z
      | Some e => Qfloor (num_val e)
      end in
    '(embedding, labels, cents) ←
      simplicial_set_embedding X graph n
        (Z.to_nat (Qfloor (num_val (n_components p)))) (n_clusters p)
        (learning_rate p) (fst ab) (snd ab) (repulsion_strength p)
        (negative_sample_rate p) n_epochs0 0 (init p) (random_state p);
    Ok (with_fit self k small graph embedding labels cents).

(** [fit_transform(X, y)] *)
Definition fit_transform (self : estimator) (X : dataset) (y : option (list Q))
    : result (estimator * (array2 * list nat * array2)) :=
  self ← fit self X y;
  e ← attr "embedding_" (embedding_ self);
  l ← attr "y_pred" (y_pred self);
  c ← attr "centroids" (centroids self);
  Ok (self, (e, l, c)).

(** The COO graph of [transform]: its positions are checked against the
    shape. *)
Definition coo_matrix (shape : nat * nat) (rows cols : list Z) (vals : list Q)
    : result (list (nat * nat * Q)) :=
  _ ← Sparse.of_coo shape rows cols vals;
  Ok (zip (zip (map Z.to_nat rows) (map Z.to_nat cols)) vals).

(** The positional arguments of the call of [optimize_layout] that ends
    [transform]. *)
Definition transform_call_args (embedding fitted : array2) (head tail : list nat)
    (n_epochs : pynum) (n_cols : nat) (epochs_per_sample : list Q) (a0 b0 : Q)
    (rng0 : rng_state) (p : params) (initial_alpha : Q) : list pyval :=
  [ VArray2 embedding; VArray2 fitted; VIndex head; VIndex tail; VNum n_epochs;
    VNum (PyInt (Z.of_nat n_cols)); VArray1 epochs_per_sample;
    VNum (PyFloat a0); VNum (PyFloat b0); VRng rng0;
    VNum (PyFloat (repulsion_strength p)); VNum (PyFloat initial_alpha);
    VNum (PyFloat (negative_sample_rate p)) ].

(** [transform(X)]: the value returned. *)
Definition transform (self : estimator) (X : dataset) : result pyval :=
  let p := config self in
  fitted ← attr "embedding_" (embedding_ self);
  if (length fitted =? 1)%nat then
    Err (ValueError "Transform unavailable when model was fit with only a single data sample.")
  else
    let x_hash := joblib_hash X in
    input_hash ← attr "_input_hash" (_input_hash self);
    if String.eqb x_hash input_hash then Ok (VArray2 fitted)
    else
      sparse_data ← attr "_sparse_data" (_sparse_data self);
      if (sparse_data : bool) then Err (ValueError "Transform not available for sparse input.")
      else if match metric p with
              | MetricStr s => String.eqb s "precomputed"
              | _ => false
              end
      then Err (ValueError "Transform of new data not available for precomputed metric.")
      else
        let rng0 := seed_rng (Some (transform_seed p)) in
        small ← attr "_small_data" (_small_data self);
        raw ← attr "_raw_data" (_raw_data self);
        k ← attr "_n_neighbors" (_n_neighbors self);
        let '(indices, dists) :=
          if (small : bool) then
            knn_exact_new (pairwise_distances (samples X) (samples raw) (metric p)) k
          else knn_search_new raw X k in
        let adjusted_local_connectivity :=
          if Qltb 0 (local_connectivity p - 1) then local_connectivity p - 1 else 0 in
        '(sigmas, rhos) ← smooth_knn_dist dists (inject_Z (Z.of_nat k)) 64
                             adjusted_local_connectivity 1;
        '(rows, cols, vals) ← compute_membership_strengths indices dists sigmas rhos;
        let shape := (length (samples X), length (samples raw)) in
        graph ← coo_matrix shape rows cols vals;
        '(inds, weights) ← l1_rows shape rows cols vals k;
        embedding ← init_transform inds weights fitted;
        let n_epochs1 :=
          match n_epochs p with
          | None => if (Z.of_nat (fst shape) <=? 10000)%Z then PyInt 100 else PyInt 30
          | Some e => PyFloat (inject_Z (Qfloor (num_val e / 3)))
          end in
        graph ← prune_coo (num_val n_epochs1) graph;
        epochs_per_sample ← make_epochs_per_sample (map snd graph) (num_val n_epochs1);
        let head := map (fun e => fst (fst e)) graph in
        let tail := map (fun e => snd (fst e)) graph in
        a0 ← attr "_a" (_a self);
        b0 ← attr "_b" (_b self);
        initial_alpha ← attr "_initial_alpha" (_initial_alpha self);
        call_optimize_layout
          (transform_call_args embedding fitted head tail n_epochs1 (snd shape)
             epochs_per_sample a0 b0 rng0 p initial_alpha)
          [("verbose", VBool false)].

End Methods.

End UEC_PV.

(** ** Further functions of the file *)

(** [rdist2]: the loop of [rdist] without the square. *)
Fixpoint rdist2_from (acc : Q) (x y : list Q) : result Q :=
  match x, y with
  | [], _ => Ok acc
  | xi :: x', yi :: y' => rdist2_from (acc + (xi - yi)) x' y'
  | _ :: _, [] => Err IndexError
  end.

Definition rdist2 (x y : list Q) : result Q := rdist2_from 0 x y.

(** *** Intersection with a categorical target *)

Section Intersection.
Context `{Externals}.

(** One iteration of [for nz in range(rows.shape[0])] of
    [fast_intersection].  The rows and columns are those of a sparse matrix
    in coordinate form, the labels are numbers.  The test
    [(target[i] == -1) or (target[j] == -1)] reads [target[j]] only when
    the first comparison fails. *)
Definition fast_intersection_step (rows cols : list nat) (target : list Q)
    (unknown_dist far_dist : Q) (values : list Q) (nz : nat) : result (list Q) :=
  i ← get rows nz;
  j ← get cols nz;
  ti ← get target i;
  if Qeq_bool ti (-1) then
    v ← get values nz; Ok (<[nz := v * np_exp (- unknown_dist)]> values)
  else
    tj ← get target j;
    if Qeq_bool tj (-1) then
      v ← get values nz; Ok (<[nz := v * np_exp (- unknown_dist)]> values)
    else if negb (Qeq_bool ti tj) then
      v ← get values nz; Ok (<[nz := v * np_exp (- far_dist)]> values)
    else Ok values.

(** [fast_intersection]: the array [values] after the call. *)
Definition fast_intersection (rows cols : list nat) (values target : list Q)
    (unknown_dist far_dist : Q) : result (list Q) :=
  foldM (fast_intersection_step rows cols target unknown_dist far_dist)
        (seq 0 (length rows)) values.

End Intersection.

Section ResetLocalConnectivity.

(** [normalize(simplicial_set, norm="max")] of scikit-learn. *)
Variable normalize_max : Sparse.t -> Sparse.t.

Definition reset_local_connectivity (simplicial_set : Sparse.t) : Sparse.t :=
  let simplicial_set := normalize_max simplicial_set in
  let transpose := Sparse.transpose simplicial_set in
  let prod_matrix := Sparse.multiply simplicial_set transpose in
  let simplicial_set :=
    Sparse.sub (Sparse.add simplicial_set transpose) prod_matrix in
  Sparse.eliminate_zeros simplicial_set.

Context `{Externals}.

(** [categorical_simplicial_set_intersection]: the entries of the matrix in
    coordinate form go through [fast_intersection], stored zeros are dropped
    and the local connectivity is reset. *)
Definition categorical_simplicial_set_intersection (simplicial_set : Sparse.t)
    (target : list Q) (unknown_dist far_dist : Q) : result Sparse.t :=
  let entries := map_to_list simplicial_set in
  let row := map (fun e => fst (fst e)) entries in
  let col := map (fun e => snd (fst e)) entries in
  data ← fast_intersection row col (map snd entries) target unknown_dist far_dist;
  let simplicial_set : Sparse.t := list_to_map (zip (zip row col) data) in
  Ok (reset_local_connectivity (Sparse.eliminate_zeros simplicial_set)).

End ResetLocalConnectivity.

(** *** sigma_binary_search *)

(** The loop [for i in range(n)] of [sigma_binary_search], entered with the
    limits [lo] and [hi]; [approx_sigma] is the value the name holds when
    the loop is entered.  [k_of_sigma] is called as a function without
    effects. *)
Fixpoint sigma_search (n : nat) (k_of_sigma : Q -> Q) (fixed_k lo hi approx_sigma : Q)
    : Q :=
  match n with
  | O => approx_sigma
  | Datatypes.S n' =>
      let approx_sigma := (lo + hi) / 2 in
      let lo' := if Qltb (k_of_sigma approx_sigma) fixed_k then approx_sigma else lo in
      let hi' := if Qltb (k_of_sigma approx_sigma) fixed_k then hi else approx_sigma in
      if Qle_bool (Qabs (fixed_k - k_of_sigma approx_sigma)) (1 # 100000)
      then approx_sigma
      else sigma_search n' k_of_sigma fixed_k lo' hi' approx_sigma
  end.

(** [sigma_binary_search]: twenty rounds between 0 and 1000.  The name
    [approx_sigma] is assigned in the first round. *)
Definition sigma_binary_search (k_of_sigma : Q -> Q) (fixed_k : Q) : Q :=
  sigma_search 20 k_of_sigma fixed_k 0 1000 0.

(** *** clustering_layout_SGD *)

(** The arrays and the learning rate the loops of [clustering_layout_SGD]
    write, and the ghost log of the additions made (last one first). *)
Record sgd_state : Type := {
  sgd_embedding : array2;
  sgd_centroids : array2;
  sgd_target : array2;
  sgd_alpha : Q;
  sgd_updates : list update
}.

Section ClusteringSGD.
Context `{Externals}.

(** The body of the loop over the centroids [k] for point [i]:
    [embedding[i] += grad_coeff * alpha]. *)
Definition sgd_point_step (a b : Q) (i : nat) (st : sgd_state) (k : nat)
    : result sgd_state :=
  centroid ← get (sgd_centroids st) k;
  current ← get (sgd_embedding st) i;
  dist_squared ← rdist current centroid;
  grad_coeff ←
    (if Qltb 0 dist_squared then
       t ← read_cell (sgd_target st) i k;
       Ok ((2 * a * b * np_pow dist_squared (b - 1) * t)
           / (a * np_pow dist_squared b + 1))
     else Ok 0);
  let grad_coeff := clip grad_coeff in
  Ok {| sgd_embedding :=
          alter (add_scalar (grad_coeff * sgd_alpha st)) i (sgd_embedding st);
        sgd_centroids := sgd_centroids st;
        sgd_target := sgd_target st;
        sgd_alpha := sgd_alpha st;
        sgd_updates :=
          {| u_term := Clustering; u_grad := grad_coeff; u_rate := sgd_alpha st |}
          :: sgd_updates st |}.

(** The body of the loop over the points [i] for centroid [k]:
    [centroid += grad_coeff * alpha], where [centroid] is row [k] of
    [centroids]. *)
Definition sgd_centroid_step (a b : Q) (k : nat) (st : sgd_state) (i : nat)
    : result sgd_state :=
  centroid ← get (sgd_centroids st) k;
  x ← get (sgd_embedding st) i;
  dist_squared ← rdist x centroid;
  grad_coeff ←
    (if Qltb 0 dist_squared then
       t ← read_cell (sgd_target st) i k;
       Ok ((-2 * a * b * np_pow dist_squared (b - 1) * t)
           / (a * np_pow dist_squared b + 1))
     else Ok 0);
  let grad_coeff := clip grad_coeff in
  Ok {| sgd_embedding := sgd_embedding st;
        sgd_centroids :=
          alter (add_scalar (grad_coeff * sgd_alpha st)) k (sgd_centroids st);
        sgd_target := sgd_target st;
        sgd_alpha := sgd_alpha st;
        sgd_updates :=
          {| u_term := CentroidStep; u_grad := grad_coeff; u_rate := sgd_alpha st |}
          :: sgd_updates st |}.

(** One iteration of [for n in range(n_epochs)].  The last statement
    evaluates [n % int(n_epochs / 5)]. *)
Definition sgd_epoch (a b initial_alpha : Q) (n_epochs : Z)
    (n_clusters update_interval : nat) (st : sgd_state) (n : nat)
    : result sgd_state :=
  st ← (if (n mod update_interval =? 0)%nat then
          soft ← Soft.S (sgd_embedding st) (sgd_centroids st) a b;
          Ok {| sgd_embedding := sgd_embedding st;
                sgd_centroids := sgd_centroids st;
                sgd_target := Soft.T soft;
                sgd_alpha := sgd_alpha st;
                sgd_updates := sgd_updates st |}
        else Ok st);
  st ← foldM (fun st i => foldM (sgd_point_step a b i) (seq 0 n_clusters) st)
        (seq 0 (length (sgd_embedding st))) st;
  st ← foldM (fun st k =>
                foldM (sgd_centroid_step a b k)
                      (seq 0 (length (sgd_embedding st))) st)
        (seq 0 n_clusters) st;
  let st := {| sgd_embedding := sgd_embedding st;
               sgd_centroids := sgd_centroids st;
               sgd_target := sgd_target st;
               sgd_alpha :=
                 initial_alpha
                 * (1 - inject_Z (Z.of_nat n) / inject_Z n_epochs);
               sgd_updates := sgd_updates st |} in
  if (Z.quot n_epochs 5 =? 0)%Z then Err ZeroDivisionError else Ok st.

(** The loop of [clustering_layout_SGD].  The body starts by setting
    [initial_alpha = 1e-30]; the arguments [initial_alpha] and [y_pred] are
    not read. *)
Definition clustering_layout_SGD_run (embedding centroids : array2)
    (initial_alpha a b : Q) (n_epochs : Z) (y_pred : list Z) : result sgd_state :=
  let initial_alpha := 1 # 1000000000000000000000000000000 in
  let update_interval := 20%nat in
  let n_clusters := length centroids in
  foldM (sgd_epoch a b initial_alpha n_epochs n_clusters update_interval)
        (seq 0 (Z.to_nat n_epochs))
        {| sgd_embedding := embedding; sgd_centroids := centroids;
           sgd_target := []; sgd_alpha := initial_alpha; sgd_updates := [] |}.

(** [clustering_layout_SGD]: the embedding and the centroids returned. *)
Definition clustering_layout_SGD (embedding centroids : array2)
    (initial_alpha a b : Q) (n_epochs : Z) (y_pred : list Z)
    : result (array2 * array2) :=
  st ← clustering_layout_SGD_run embedding centroids initial_alpha a b n_epochs
         y_pred;
  Ok (sgd_embedding st, sgd_centroids st).

End ClusteringSGD.

(** *** best_cluster_fit and cluster_acc *)

(** An index into an axis of length [n], as NumPy reads it: a negative
    index counts from the end. *)
Definition np_index (n : nat) (i : Z) : result nat :=
  if ((0 <=? i) && (i <? Z.of_nat n))%Z then Ok (Z.to_nat i)
  else if ((- Z.of_nat n <=? i) && (i <? 0))%Z then Ok (Z.to_nat (Z.of_nat n + i))
  else Err IndexError.

(** [np.max] of a non-empty integer array. *)
Definition Zmaximum (x : Z) (l : list Z) : Z := fold_left Z.max l x.

Definition Zsum (l : list Z) : Z := fold_right Z.add 0%Z l.

(** [w[i, j]] on a two-dimensional integer array. *)
Definition matrix_cell (w : list (list Z)) (i j : Z) : result Z :=
  r ← np_index (length w) i;
  row ← get w r;
  c ← np_index (length row) j;
  get row c.

(** [w[y_pred[i], y_true[i]] += 1] *)
Definition confusion_step (y_pred y_true : list Z) (w : list (list Z)) (i : nat)
    : result (list (list Z)) :=
  p ← get y_pred i;
  t ← get y_true i;
  r ← np_index (length w) p;
  row ← get w r;
  c ← np_index (length row) t;
  old ← get row c;
  Ok (<[r := <[c := (old + 1)%Z]> row]> w).

Section ClusterAccuracy.

(** [linear_assignment] of scikit-learn: the rows [[i, j]] of the array it
    returns for a cost matrix. *)
Variable linear_assignment : list (list Z) -> list (Z * Z).

(** [best_cluster_fit] on two flat arrays of integer labels: the triple
    [(best_fit, ind, w)]. *)
Definition best_cluster_fit (y_true y_pred : list Z)
    : result (list Z * list (Z * Z) * list (list Z)) :=
  match y_pred, y_true with
  | p :: ps, t :: ts =>
      let D := (Z.max (Zmaximum p ps) (Zmaximum t ts) + 1)%Z in
      if (D <? 0)%Z then Err (ValueError "negative dimensions are not allowed")
      else
        let zeros := replicate (Z.to_nat D) (replicate (Z.to_nat D) 0%Z) in
        w ← foldM (confusion_step y_pred y_true) (seq 0 (length y_pred)) zeros;
        match concat w with
        | [] => Err (ValueError "zero-size array to reduction operation maximum")
        | x :: xs =>
            let ind := linear_assignment (map (map (fun v => Zmaximum x xs - v)%Z) w) in
            let best_fit :=
              flat_map (fun label =>
                          map snd (List.filter (fun ij => (fst ij =? label)%Z) ind))
                       y_pred in
            Ok (best_fit, ind, w)
        end
  | _, _ => Err (ValueError "zero-size array to reduction operation maximum")
  end.

(** [cluster_acc]: [sum([w[i, j] for i, j in ind]) * 1.0 / y_pred.size]. *)
Definition cluster_acc (y_true y_pred : list Z) : result Q :=
  '(_, ind, w) ← best_cluster_fit y_true y_pred;
  picked ← mapM (fun ij => matrix_cell w (fst ij) (snd ij)) ind;
  Ok (inject_Z (Zsum picked) * 1 / inject_Z (Z.of_nat (length y_pred))).

End ClusterAccuracy.

(** ** clustering_umap.py: the confusion counts and their accuracy

    The functions [best_cluster_fit], [cluster_acc] and [rdist] of that file
    are those of [uec_.py] above, word for word. *)

Module ClusteringUmap.

(** The exceptions of dictionary reads and of the division. *)
Inductive raised : Type :=
| KeyError (key : string)
| ZeroDivision.

Inductive outcome (A : Type) : Type :=
| Returns (a : A)
| Raises (e : raised).

Arguments Returns {A} a.
Arguments Raises {A} e.

(** The four counters [tp, tn, fp, fn]. *)
Record counts : Type := {
  tp : Z;
  tn : Z;
  fp : Z;
  fn : Z
}.

(** [preds[preds >= 0.5] = 1] followed by [preds[preds < 0.5] = 0], on one
    entry. *)
Definition threshold (p : Q) : Q := if Qle_bool 0.5 p then 1 else 0.

(** The body of the inner loop. *)
Definition count_cell (c : counts) (cell : Q * Q) : counts :=
  let '(real, pred) := cell in
  if Qeq_bool pred 1 then
    if Qeq_bool real 1
    then {| tp := tp c + 1; tn := tn c; fp := fp c; fn := fn c |}
    else {| tp := tp c; tn := tn c; fp := fp c + 1; fn := fn c |}
  else
    if Qeq_bool real 1
    then {| tp := tp c; tn := tn c; fp := fp c; fn := fn c + 1 |}
    else {| tp := tp c; tn := tn c + 1; fp := fp c; fn := fn c |}.

(** The cells the two loops over [zip(y, preds)] and
    [zip(real_line, pred_line)] go through, in order. *)
Definition compared (preds y : array2) : list (Q * Q) :=
  concat (zip_with zip y preds).

(** [get_tptnfpfn(preds, y)]: the dictionary returned, and the array
    [preds] after the call (it is overwritten in place). *)
Definition get_tptnfpfn (preds y : array2) : gmap string Z * array2 :=
  let preds := map (map threshold) preds in
  let c := fold_left count_cell (compared preds y)
             {| tp := 0; tn := 0; fp := 0; fn := 0 |} in
  ({[ "tp" := tp c; "fp" := fp c; "tn" := tn c; "fn" := fn c ]}, preds).

(** [data[key]] *)
Definition item (data : gmap string Z) (key : string) : outcome Z :=
  match data !! key with
  | Some v => Returns v
  | None => Raises (KeyError key)
  end.

Definition get_accuracy (data : gmap string Z) : outcome Q :=
  match item data "tp" with
  | Raises e => Raises e
  | Returns tp =>
  match item data "tn" with
  | Raises e => Raises e
  | Returns tn =>
  match item data "fp" with
  | Raises e => Raises e
  | Returns fp =>
  match item data "fn" with
  | Raises e => Raises e
  | Returns fn =>
      let sum_ := (tp + tn + fp + fn)%Z in
      if (sum_ =? 0)%Z then Raises ZeroDivision
      else Returns (inject_Z (tp + tn) / inject_Z sum_)
  end end end end.

End ClusteringUmap.


(** ** Predicates of the properties *)

(** A schedule under which no edge is ever sampled: the test of the
    optimizers fails for every edge in every epoch. *)
Definition never_sampled (epochs_per_sample : list Q) : Prop :=
  forall e n, e ∈ epochs_per_sample -> sample_due e n = false.

(** The clip bound of each force. *)
Definition clip_bound (tm : term) : Q :=
  match tm with
  | Clustering => 1
  | Attraction | Repulsion | CentroidStep => 4
  end.

(** An update whose per-coordinate gradient is within the clip bound of its
    force, scaled by a rate between [0] and [1]. *)
Definition clipped (u : update) : Prop :=
  Qabs (u_grad u) <= clip_bound (u_term u) /\ 0 <= u_rate u /\ u_rate u <= 1.

(** The update a negative sample makes on a coordinate of a point that
    coincides with its partner. *)
Definition nudge (rate : Q) : update :=
  {| u_term := Repulsion; u_grad := 4; u_rate := rate |}.

(** An update that adds nothing. *)
Definition no_force (u : update) : Prop := u_grad u == 0.

(** Two arrays with equal numbers at every position. *)
Definition array_eq (a b : array2) : Prop := Forall2 (Forall2 Qeq) a b.

Section StatePredicates.
Context `{Externals}.

(** What a step at distance zero leaves behind: additions of zero
    gradients only, and both embeddings as they were. *)
Definition untouched (st st' : opt_state) : Prop :=
  (exists new, updates st' = new ++ updates st /\ Forall no_force new)
  /\ array_eq (head_embedding st') (head_embedding st)
  /\ array_eq (tail_array st') (tail_array st).

End StatePredicates.

(** ** Stand-ins for the library functions

    Concrete instances of the two classes, on which the definitions above
    can be run, and the inputs of the runs at the end of the file. *)


(** A number between 0 and 1. *)
Definition unit_interval (v : Q) : Prop := 0 <= v /\ v <= 1.

(** [a[i, d]], zero outside the array. *)
Definition entry2 (a : array2) (i d : nat) : Q := default 0 (a !! i ≫= (.!! d)).

(** The term neighbour slot [j] of new point [i] adds to coordinate [d] in
    [init_transform]. *)
Definition neighbour_term (indices : list (list nat)) (weights embedding : array2)
    (i d j : nat) : Q :=
  entry2 weights i j * entry2 embedding (default O (indices !! i ≫= (.!! j))) d.

(** The weighted sum over the neighbour slots of new point [i]. *)
Definition neighbour_average (indices : list (list nat)) (weights embedding : array2)
    (i d : nat) : Q :=
  Qsum (map (neighbour_term indices weights embedding i d) (seq 0 (shape1 indices))).

(** An array of [n] rows of [dim] entries. *)
Definition rectangular (n dim : nat) (a : array2) : Prop :=
  length a = n /\ Forall (fun row => length row = dim) a.

(** The lengths of the rows of an array. *)
Definition row_lengths (a : array2) : list nat := map length a.

(** An update whose gradient is within [4] and whose rate is within
    [[0, alpha]]. *)
Definition rate_bounded (alpha : Q) (u : update) : Prop :=
  Qabs (u_grad u) <= 4 /\ 0 <= u_rate u /\ u_rate u <= alpha.

(** The entry of an integer matrix at a position, zero outside it. *)
Definition entryZ (w : list (list Z)) (r c : nat) : Z :=
  default 0%Z (w !! r ≫= (.!! c)).

(** A prediction of at least [0.5] for a label equal to [1], or one below
    [0.5] for another label. *)
Definition agrees (cell : Q * Q) : bool :=
  Bool.eqb (Qle_bool 0.5 (snd cell)) (Qeq_bool (fst cell) 1).

(** The number of entries of [preds] that agree with the label in [y] at
    the same place. *)
Definition agreements (preds y : array2) : nat :=
  length (List.filter agrees (zip (concat y) (concat preds))).

Module Sample.

(** A rational stand-in for [exp] on non-positive arguments, within [(0, 1]]. *)
Definition exp (x : Q) : Q := 1 / (1 - x).

(** A constant kernel power, so that coefficients stay small. *)
Definition pow (x y : Q) : Q := 1.

Definition log2 (x : Q) : Q := inject_Z (Z.log2 (Qfloor x)).

#[export] Instance externals : Externals :=
  {| np_exp := exp; np_pow := pow; np_log2 := log2;
     rng_state := Z; tau_rand_int := fun s => (s, (s + 1)%Z) |}.

(** Manhattan distance between two rows. *)
Definition distance (x y : list Q) : Q := Qsum (zip_with (fun u v => Qabs (u - v)) x y).

(** The first [k] columns as neighbours. *)
Definition first_neighbours (dmat : array2) (k : nat) : iarray2 * array2 :=
  (map (fun _ => map Z.of_nat (seq 0 k)) dmat, map (take k) dmat).

(** The last [k] columns as neighbours. *)
Definition last_neighbours (dmat : array2) (k : nat) : iarray2 * array2 :=
  let n := shape1 dmat in
  (map (fun _ => map Z.of_nat (seq (n - k) k)) dmat, map (drop (n - k)) dmat).

Fixpoint chunks {A : Type} (n k : nat) (l : list A) : list (list A) :=
  match n with
  | O => []
  | Datatypes.S n' => take k l :: chunks n' k (drop k l)
  end.

Definition normalized (row : list Q) : list Q := map (fun w => w / Qsum row) row.

Definition hash (X : dataset) : string :=
  fold_right (fun _ s => ("x" ++ s)%string) EmptyString (samples X).

(** An array with a row and a column is accepted. *)
Definition accepted (X : dataset) : result unit :=
  match samples X with
  | [] => Err (ValueError "Found array with 0 sample(s)")
  | [] :: _ => Err (ValueError "Found array with 0 feature(s)")
  | _ :: _ => Ok tt
  end.

Definition finite (v : npfloat) : bool :=
  match v with
  | Finite _ => true
  | _ => false
  end.

(** Fixed curve parameters for data that is finite; data with a NaN or an
    infinity is refused, as [curve_fit] does with its default
    [check_finite=True]. *)
Definition fitted_curve (xv : list Q) (yv : list npfloat) : result (Q * Q) :=
  if forallb finite yv then Ok (1577 # 1000, 895 # 1000)
  else Err (ValueError "array must not contain infs or NaNs").

#[export] Instance collaborators : Collaborators :=
  {| joblib_hash := hash;
     check_array := accepted;
     curve_fit := fitted_curve;
     pairwise_distances := fun X Y _ => map (fun x => map (distance x) Y) X;
     knn_precomputed := first_neighbours;
     knn_descent := fun _ _ _ => Err (ValueError "no neighbour search here");
     knn_exact_new := last_neighbours;
     knn_search_new := fun _ _ _ => ([], []);
     l1_rows := fun shape rows cols vals k =>
                  Ok (chunks (fst shape) k (map Z.to_nat cols),
                      map normalized (chunks (fst shape) k vals));
     initial_layout := fun _ X _ nc => map (take nc) (samples X);
     kmeans := fun e n => (replicate (length e) O, take n e);
     seed_rng := fun s => default 42%Z s;
     target_fusion := fun g _ => g |}.

(** The constructor defaults, with eleven epochs, one component, one
    cluster and no repulsion strength. *)
Definition params : UEC_PV.params :=
  {| UEC_PV.n_neighbors := 15; UEC_PV.n_components := PyInt 1;
     UEC_PV.metric := MetricStr "euclidean"; UEC_PV.n_epochs := Some (PyInt 11);
     UEC_PV.n_clusters := 1; UEC_PV.learning_rate := 1;
     UEC_PV.init := InitStr "spectral"; UEC_PV.min_dist := 0.1;
     UEC_PV.spread := 1; UEC_PV.set_op_mix_ratio := 1;
     UEC_PV.local_connectivity := 1; UEC_PV.repulsion_strength := 0;
     UEC_PV.negative_sample_rate := 5; UEC_PV.transform_queue_size := 4;
     UEC_PV.a := None; UEC_PV.b := None; UEC_PV.random_state := None;
     UEC_PV.target_n_neighbors := -1; UEC_PV.transform_seed := 42 |}.

Definition one_point : dataset := {| samples := [[3; 4; 5]]; is_csr := false |}.

Definition two_points : dataset := {| samples := [[0]; [1000]]; is_csr := false |}.

Definition new_point : dataset := {| samples := [[1]]; is_csr := false |}.

(** Two coincident points and a centroid on top of them. *)
Definition coincident : opt_state :=
  {| head_embedding := [[0]; [0]]; tail_embedding := None; centroids := [[0]];
     epoch_of_next_sample := [1]; epoch_of_next_negative_sample := [0.2];
     rng := 1%Z; eta := 1; target := []; updates := [] |}.

End Sample.

(** Further inputs of the runs at the end of the file. *)

Module SampleInputs.

(** Two points joined in both directions with full weight. *)
Definition two_point_graph : Sparse.t :=
  {[ (O, 1%nat) := 1; (1%nat, O) := 1 ]}.

(** The two points of [Sample.two_points] as a sparse matrix. *)
Definition sparse_points : dataset :=
  {| samples := [[0]; [1000]]; is_csr := true |}.


(** One edge of full weight. *)
Definition one_edge : Sparse.t := {[ (O, 1%nat) := 1 ]}.

(** An assignment that pairs row 0 with column 1 and row 1 with column 0. *)
Definition swap_assignment (cost : list (list Z)) : list (Z * Z) :=
  [(0, 1); (1, 0)]%Z.

End SampleInputs.

(** * Properties *)

(** ** Comparisons and sums of rationals *)

Lemma Qltb_lt (x y : Q) : Qltb x y = true <-> x < y.
Proof.
  unfold Qltb. rewrite negb_true_iff. split.
  - intros Hf. apply Qnot_le_lt. intros Hle.
    apply Qle_bool_iff in Hle. congruence.
  - intros Hlt. destruct (Qle_bool y x) eqn:E; [|reflexivity].
    apply Qle_bool_iff in E. exfalso. apply (Qlt_not_le _ _ Hlt E).
Qed.

Lemma Qltb_ge (x y : Q) : Qltb x y = false <-> y <= x.
Proof.
  unfold Qltb. rewrite negb_false_iff. apply Qle_bool_iff.
Qed.

Lemma clip_range (val : Q) : -4 <= clip val /\ clip val <= 4.
Proof.
  unfold clip.
  destruct (Qltb 4 val) eqn:Hhi; [split; lra|].
  destruct (Qltb val (-4)) eqn:Hlo; [split; lra|].
  apply Qltb_ge in Hhi, Hlo. split; lra.
Qed.

Lemma clip_clust_range (val : Q) : -1 <= clip_clust val /\ clip_clust val <= 1.
Proof.
  unfold clip_clust.
  destruct (Qltb 1 val) eqn:Hhi; [split; lra|].
  destruct (Qltb val (-1)) eqn:Hlo; [split; lra|].
  apply Qltb_ge in Hhi, Hlo. split; lra.
Qed.

Lemma Qabs_bound (x c : Q) : - c <= x -> x <= c -> Qabs x <= c.
Proof. intros Hlo Hhi. apply Qabs_Qle_condition. split; assumption. Qed.

Lemma clip_abs (val : Q) : Qabs (clip val) <= 4.
Proof. destruct (clip_range val). apply Qabs_bound; lra. Qed.

Lemma clip_clust_abs (val : Q) : Qabs (clip_clust val) <= 1.
Proof. destruct (clip_clust_range val). apply Qabs_bound; lra. Qed.

(** ** The error monad *)

Lemma bind_Ok {A B : Type} (r : result A) (k : A -> result B) (b : B) :
  r ≫= k = Ok b -> exists a, r = Ok a /\ k a = Ok b.
Proof.
  destruct r as [a|e]; simpl; intros Hk; [|discriminate].
  exists a. split; [reflexivity|exact Hk].
Qed.

Lemma get_Ok {A : Type} (l : list A) (i : nat) (x : A) :
  get l i = Ok x <-> l !! i = Some x.
Proof.
  unfold get. destruct (l !! i); split; intros Hx; congruence.
Qed.

Lemma mapM_lookup {A B : Type} (f : A -> result B) (l : list A) (ys : list B) :
  mapM f l = Ok ys ->
  forall i x, l !! i = Some x -> exists y, ys !! i = Some y /\ f x = Ok y.
Proof.
  revert ys. induction l as [|x0 l IH]; intros ys Hm i x Hi.
  - destruct i; discriminate.
  - simpl in Hm. apply bind_Ok in Hm as (y0 & Hy0 & Hm).
    apply bind_Ok in Hm as (ys' & Hys' & Hm). injection Hm as <-.
    destruct i as [|i]; simpl in *.
    + injection Hi as <-. exists y0. split; [reflexivity|exact Hy0].
    + exact (IH ys' Hys' i x Hi).
Qed.

Lemma mapM_length {A B : Type} (f : A -> result B) (l : list A) (ys : list B) :
  mapM f l = Ok ys -> length ys = length l.
Proof.
  revert ys. induction l as [|x0 l IH]; intros ys Hm; simpl in Hm.
  - injection Hm as <-. reflexivity.
  - apply bind_Ok in Hm as (y0 & _ & Hm).
    apply bind_Ok in Hm as (ys' & Hys' & Hm). injection Hm as <-.
    simpl. f_equal. exact (IH ys' Hys').
Qed.

(** A property kept by every iteration of a loop holds when it ends. *)
Lemma foldM_invariant {A St : Type} (P : St -> Prop) (f : St -> A -> result St)
    (l : list A) :
  (forall s x s', In x l -> P s -> f s x = Ok s' -> P s') ->
  forall s s', P s -> foldM f l s = Ok s' -> P s'.
Proof.
  induction l as [|x l IH]; intros Hstep s s' Hs Hrun; simpl in Hrun.
  - injection Hrun as <-. exact Hs.
  - apply bind_Ok in Hrun as (s1 & Hs1 & Hrun).
    apply (IH (fun s0 y s0' Hy => Hstep s0 y s0' (or_intror Hy)) s1 s');
      [|exact Hrun].
    exact (Hstep s x s1 (or_introl eq_refl) Hs Hs1).
Qed.

(** ** smooth_knn_dist *)

Section SmoothKnnFacts.
Context `{Externals}.

Lemma smooth_knn_floor_positive (mid rho : Q) (row : list Q) (mean_distances : Q) :
  0 < rho -> MIN_K_DIST_SCALE * mean row <= smooth_knn_floor mid rho row mean_distances.
Proof.
  intros Hrho. unfold smooth_knn_floor.
  apply Qltb_lt in Hrho. rewrite Hrho.
  destruct (Qltb mid (MIN_K_DIST_SCALE * mean row)) eqn:Hlt.
  - apply Qle_refl.
  - apply Qltb_ge in Hlt. exact Hlt.
Qed.

Lemma smooth_knn_floor_zero (mid rho : Q) (row : list Q) (mean_distances : Q) :
  rho <= 0 ->
  MIN_K_DIST_SCALE * mean_distances <= smooth_knn_floor mid rho row mean_distances.
Proof.
  intros Hrho. unfold smooth_knn_floor.
  apply Qltb_ge in Hrho. rewrite Hrho.
  destruct (Qltb mid (MIN_K_DIST_SCALE * mean_distances)) eqn:Hlt.
  - apply Qle_refl.
  - apply Qltb_ge in Hlt. exact Hlt.
Qed.

Lemma mapM_returns {A B : Type} (f : A -> result B) (l : list A) :
  Forall (fun x => exists y, f x = Ok y) l -> exists ys, mapM f l = Ok ys.
Proof.
  induction l as [|x l IH]; intros Hall; simpl.
  - exists []. reflexivity.
  - destruct (Forall_inv Hall) as [y Hy].
    destruct (IH (Forall_inv_tail Hall)) as [ys Hys].
    exists (y :: ys). rewrite Hy. simpl. rewrite Hys. reflexivity.
Qed.

Lemma get_returns {A : Type} (l : list A) (i : nat) :
  (i < length l)%nat -> exists x, get l i = Ok x.
Proof.
  intros Hi. destruct (lookup_lt_is_Some_2 l i Hi) as [x Hx].
  exists x. apply get_Ok. exact Hx.
Qed.

(** The radius is defined for every row as soon as the local connectivity
    is at least one neighbour, or the row has a positive distance. *)
Lemma smooth_knn_rho_returns (row : list Q) (local_connectivity : Q) :
  1 <= local_connectivity \/ smooth_knn_non_zero row <> [] ->
  exists rho, smooth_knn_rho row local_connectivity = Ok rho.
Proof.
  intros Hside. unfold smooth_knn_rho.
  set (nz := smooth_knn_non_zero row) in *.
  destruct (Qle_bool local_connectivity (inject_Z (Z.of_nat (length nz)))) eqn:Hsize.
  - apply Qle_bool_iff in Hsize.
    pose proof (Qfloor_le local_connectivity) as Hfloor.
    destruct (0 <? Qfloor local_connectivity)%Z eqn:Hindex.
    + apply Z.ltb_lt in Hindex.
      assert (Hle : (Qfloor local_connectivity <= Z.of_nat (length nz))%Z).
      { rewrite Zle_Qle. lra. }
      destruct (get_returns nz (Z.to_nat (Qfloor local_connectivity - 1)))
        as [r Hr]; [lia|].
      rewrite Hr. simpl.
      destruct (Qltb SMOOTH_K_TOLERANCE
                  (local_connectivity - inject_Z (Qfloor local_connectivity)))
        eqn:Hinterp; [|eexists; reflexivity].
      apply Qltb_lt in Hinterp. unfold SMOOTH_K_TOLERANCE in Hinterp.
      assert (Hlt : (Qfloor local_connectivity < Z.of_nat (length nz))%Z).
      { rewrite Zlt_Qlt. lra. }
      destruct (get_returns nz (Z.to_nat (Qfloor local_connectivity)))
        as [nxt Hnxt]; [lia|].
      rewrite Hnxt. simpl. eexists. reflexivity.
    + apply Z.ltb_ge in Hindex.
      assert (Hnz : nz <> []).
      { destruct Hside as [Hone|Hnz]; [|exact Hnz]. exfalso.
        pose proof (Qfloor_resp_le 1 local_connectivity Hone) as Hmono.
        change (Qfloor 1) with 1%Z in Hmono. lia. }
      destruct nz as [|d0 nz']; [congruence|]. simpl. eexists. reflexivity.
  - destruct nz; eexists; reflexivity.
Qed.

Lemma smooth_knn_dist_returns (distances : array2) (k : Q) (n_iter : nat)
    (local_connectivity bandwidth : Q) :
  1 <= local_connectivity
  \/ Forall (fun row => smooth_knn_non_zero row <> []) distances ->
  exists sigmas rhos,
    smooth_knn_dist distances k n_iter local_connectivity bandwidth
    = Ok (sigmas, rhos).
Proof.
  intros Hside. unfold smooth_knn_dist.
  destruct (mapM_returns
              (smooth_knn_row n_iter (np_log2 k * bandwidth) local_connectivity
                 (mean (concat distances))) distances) as [rows Hrows].
  - apply Forall_forall. intros row Hrow. unfold smooth_knn_row.
    destruct (smooth_knn_rho_returns row local_connectivity) as [rho Hrho].
    + destruct Hside as [Hone|Hall]; [left; exact Hone|right].
      rewrite Forall_forall in Hall. exact (Hall row Hrow).
    + rewrite Hrho. simpl. eexists. reflexivity.
  - rewrite Hrows. simpl. eexists. eexists. reflexivity.
Qed.

(** C7.  Whenever [smooth_knn_dist] returns, the bandwidth of every row [i]
    is at least [1e-3] times the mean of the row's distances if [rho[i] > 0],
    and at least [1e-3] times the mean of all distances if [rho[i] == 0]. *)
Theorem smooth_knn_dist_sigma_floor (distances : array2) (k : Q) (n_iter : nat)
    (local_connectivity bandwidth : Q) (sigmas rhos : list Q) (i : nat)
    (row : list Q) :
  smooth_knn_dist distances k n_iter local_connectivity bandwidth
    = Ok (sigmas, rhos) ->
  distances !! i = Some row ->
  exists sigma rho,
    sigmas !! i = Some sigma /\ rhos !! i = Some rho /\
    (0 < rho -> MIN_K_DIST_SCALE * mean row <= sigma) /\
    (rho == 0 -> MIN_K_DIST_SCALE * mean (concat distances) <= sigma).
Proof.
  intros Hrun Hrow. unfold smooth_knn_dist in Hrun.
  apply bind_Ok in Hrun as (rows & Hrows & Hret).
  injection Hret as <- <-.
  destruct (mapM_lookup _ _ _ Hrows i row Hrow) as ([sigma rho] & Hi & Hstep).
  exists sigma, rho.
  repeat split.
  - rewrite list_lookup_fmap, Hi. reflexivity.
  - rewrite list_lookup_fmap, Hi. reflexivity.
  - intros Hpos. unfold smooth_knn_row in Hstep.
    apply bind_Ok in Hstep as (rho' & _ & Hret). injection Hret as <- <-.
    apply smooth_knn_floor_positive. exact Hpos.
  - intros Hzero. unfold smooth_knn_row in Hstep.
    apply bind_Ok in Hstep as (rho' & _ & Hret). injection Hret as <- <-.
    apply smooth_knn_floor_zero. rewrite Hzero. apply Qle_refl.
Qed.

End SmoothKnnFacts.

(** ** compute_membership_strengths *)

(** A loop over [seq start len] carries an invariant indexed by the loop
    counter. *)
Lemma foldM_seq_counter {St : Type} (P : nat -> St -> Prop)
    (f : St -> nat -> result St) (len : nat) :
  forall start s s',
    (forall k s0 s1, (start <= k < start + len)%nat ->
                     P k s0 -> f s0 k = Ok s1 -> P (Datatypes.S k) s1) ->
    P start s -> foldM f (seq start len) s = Ok s' -> P (start + len)%nat s'.
Proof.
  induction len as [|len IH]; intros start s s' Hstep Hs Hrun; simpl in Hrun.
  - injection Hrun as <-. rewrite Nat.add_0_r. exact Hs.
  - apply bind_Ok in Hrun as (s1 & Hs1 & Hrun).
    replace (start + Datatypes.S len)%nat with (Datatypes.S start + len)%nat by lia.
    apply (IH (Datatypes.S start) s1 s'); [| |exact Hrun].
    + intros k s0 s2 Hk. apply Hstep. lia.
    + apply (Hstep start s s1); [lia|exact Hs|exact Hs1].
Qed.

Lemma slot_position_inj (n i j i' j' : nat) :
  (j < n)%nat -> (j' < n)%nat -> (i * n + j = i' * n + j')%nat -> i = i' /\ j = j'.
Proof.
  intros Hj Hj' Heq.
  assert (i = i') as ->.
  { destruct (Nat.lt_trichotomy i i') as [Hlt|[Heq'|Hgt]]; [|exact Heq'|]; nia. }
  split; [reflexivity|lia].
Qed.

Section MembershipFacts.
Context `{Externals}.

Variables (knn_indices : iarray2) (knn_dists : array2) (sigmas rhos : list Q).

Let n_neighbors := shape1 knn_indices.
Let n_samples := length knn_indices.

(** Slot [(i, j)] holds what the loop body leaves there. *)
Definition slot_written (st : coo) (i j : nat) : Prop :=
  let '(rows, cols, vals) := st in
  let pos := (i * n_neighbors + j)%nat in
  exists irow idx,
    knn_indices !! i = Some irow /\ irow !! j = Some idx /\
    (idx = (-1)%Z ->
       rows !! pos = Some 0%Z /\ cols !! pos = Some 0%Z /\ vals !! pos = Some 0) /\
    (idx <> (-1)%Z ->
       rows !! pos = Some (Z.of_nat i) /\ cols !! pos = Some idx /\
       exists val, vals !! pos = Some val /\
                   membership_val knn_dists sigmas rhos i j idx = Ok val).

(** Slot [(i, j)] still holds the zeros the arrays start with. *)
Definition slot_blank (st : coo) (i j : nat) : Prop :=
  let '(rows, cols, vals) := st in
  let pos := (i * n_neighbors + j)%nat in
  rows !! pos = Some 0%Z /\ cols !! pos = Some 0%Z /\ vals !! pos = Some 0.

(** The state after the first [p] slots, in row-major order. *)
Definition membership_inv (p : nat) (st : coo) : Prop :=
  forall i j, (i < n_samples)%nat -> (j < n_neighbors)%nat ->
    ((i * n_neighbors + j < p)%nat -> slot_written st i j) /\
    ((p <= i * n_neighbors + j)%nat -> slot_blank st i j).

Lemma membership_inv_init :
  membership_inv 0
    (replicate (n_samples * n_neighbors) 0%Z,
     replicate (n_samples * n_neighbors) 0%Z,
     replicate (n_samples * n_neighbors) 0).
Proof.
  intros i j Hi Hj. split; [lia|]. intros _.
  assert (i * n_neighbors + j < n_samples * n_neighbors)%nat by nia.
  unfold slot_blank. repeat split; apply lookup_replicate_2; assumption.
Qed.

Lemma membership_cell_inv (i j : nat) (st st' : coo) :
  (i < n_samples)%nat -> (j < n_neighbors)%nat ->
  membership_inv (i * n_neighbors + j) st ->
  membership_cell knn_indices knn_dists sigmas rhos n_neighbors i st j = Ok st' ->
  membership_inv (Datatypes.S (i * n_neighbors + j)) st'.
Proof.
  intros Hi Hj Hinv Hcell.
  destruct st as [[rows cols] vals]. unfold membership_cell in Hcell.
  apply bind_Ok in Hcell as (irow & Hirow & Hcell). apply get_Ok in Hirow.
  apply bind_Ok in Hcell as (idx & Hidx & Hcell). apply get_Ok in Hidx.
  destruct (Hinv i j Hi Hj) as [_ Hblank].
  specialize (Hblank (Nat.le_refl _)). destruct Hblank as (Hr & Hc & Hv).
  destruct (idx =? -1)%Z eqn:Hskip.
  - apply Z.eqb_eq in Hskip. injection Hcell as <-.
    intros i' j' Hi' Hj'. destruct (Hinv i' j' Hi' Hj') as [Hdone Htodo].
    split.
    + intros Hlt.
      destruct (Nat.eq_dec (i' * n_neighbors + j')%nat (i * n_neighbors + j)%nat) as [Heq|Hne].
      * apply slot_position_inj in Heq as [-> ->]; [|assumption..].
        exists irow, idx. repeat split; try assumption; try congruence.
      * apply Hdone. lia.
    + intros Hge. apply Htodo. lia.
  - apply Z.eqb_neq in Hskip.
    apply bind_Ok in Hcell as (val & Hval & Hcell). injection Hcell as <-.
    intros i' j' Hi' Hj'. destruct (Hinv i' j' Hi' Hj') as [Hdone Htodo].
    destruct (Nat.eq_dec (i' * n_neighbors + j')%nat (i * n_neighbors + j)%nat) as [Heq|Hne].
    + split; [|lia]. intros _.
      apply slot_position_inj in Heq as [-> ->]; [|assumption..].
      exists irow, idx. split; [assumption|]. split; [assumption|].
      split; [congruence|]. intros _.
      split; [apply list_lookup_insert_eq; eapply lookup_lt_Some; eassumption|].
      split; [apply list_lookup_insert_eq; eapply lookup_lt_Some; eassumption|].
      exists val. split; [|assumption].
      apply list_lookup_insert_eq. eapply lookup_lt_Some; eassumption.
    + split.
      * intros Hlt. assert (Hlt' : (i' * n_neighbors + j' < i * n_neighbors + j)%nat) by lia.
        specialize (Hdone Hlt'). unfold slot_written in *.
        rewrite !list_lookup_insert_ne by (intros E; apply Hne; symmetry; exact E).
        exact Hdone.
      * intros Hge. assert (Hge' : (i * n_neighbors + j <= i' * n_neighbors + j')%nat) by lia.
        specialize (Htodo Hge'). unfold slot_blank in *.
        rewrite !list_lookup_insert_ne by (intros E; apply Hne; symmetry; exact E).
        exact Htodo.
Qed.

Lemma compute_membership_strengths_inv (st : coo) :
  compute_membership_strengths knn_indices knn_dists sigmas rhos = Ok st ->
  membership_inv (n_samples * n_neighbors) st.
Proof.
  unfold compute_membership_strengths.
  fold n_samples n_neighbors. intros Hrun.
  apply (foldM_seq_counter (fun i s => membership_inv (i * n_neighbors) s))
    in Hrun; [exact Hrun| |exact membership_inv_init].
  intros i s0 s1 Hi Hs0 Hinner.
  apply (foldM_seq_counter (fun j s => membership_inv (i * n_neighbors + j) s))
    in Hinner.
  - replace (Datatypes.S i * n_neighbors)%nat with (i * n_neighbors + (0 + n_neighbors))%nat
      by lia.
    exact Hinner.
  - intros j s2 s3 Hj Hs2 Hcell.
    replace (i * n_neighbors + Datatypes.S j)%nat
      with (Datatypes.S (i * n_neighbors + j)) by lia.
    apply (membership_cell_inv i j s2 s3); [lia|lia|exact Hs2|exact Hcell].
  - rewrite Nat.add_0_r. exact Hs0.
Qed.

(** The three cases of the value written. *)
Lemma membership_val_cases (i j : nat) (idx : Z) (val : Q) :
  membership_val knn_dists sigmas rhos i j idx = Ok val ->
  (idx = Z.of_nat i -> val = 0) /\
  (idx <> Z.of_nat i ->
     exists drow d rho,
       knn_dists !! i = Some drow /\ drow !! j = Some d /\ rhos !! i = Some rho /\
       (d - rho <= 0 -> val = 1) /\
       (0 < d - rho ->
          exists sigma, sigmas !! i = Some sigma /\
                        val = np_exp (- ((d - rho) / sigma)))).
Proof.
  unfold membership_val. intros Hval.
  destruct (idx =? Z.of_nat i)%Z eqn:Hself.
  - apply Z.eqb_eq in Hself. injection Hval as <-.
    split; [reflexivity|congruence].
  - apply Z.eqb_neq in Hself. split; [congruence|]. intros _.
    apply bind_Ok in Hval as (drow & Hdrow & Hval). apply get_Ok in Hdrow.
    apply bind_Ok in Hval as (d & Hd & Hval). apply get_Ok in Hd.
    apply bind_Ok in Hval as (rho & Hrho & Hval). apply get_Ok in Hrho.
    exists drow, d, rho. repeat split; try assumption.
    + intros Hle. apply Qle_bool_iff in Hle. rewrite Hle in Hval.
      injection Hval as <-. reflexivity.
    + intros Hlt. destruct (Qle_bool (d - rho) 0) eqn:Hle.
      * apply Qle_bool_iff in Hle. exfalso. apply (Qlt_not_le _ _ Hlt Hle).
      * apply bind_Ok in Hval as (sigma & Hsigma & Hval). apply get_Ok in Hsigma.
        destruct (Qeq_bool sigma 0); [discriminate|].
        injection Hval as <-. exists sigma. split; [assumption|reflexivity].
Qed.

(** C2.  For every row [i] and neighbour slot [j] of a rectangular index
    array: a slot whose neighbour is the sentinel [-1] is skipped (its
    triplet keeps the zeros the arrays start with); any other slot holds the
    edge [(i, knn_indices[i, j])] with strength [0] if the neighbour is [i]
    itself, [1] if [knn_dists[i, j] - rhos[i] <= 0], and
    [exp(-(knn_dists[i, j] - rhos[i]) / sigmas[i])] otherwise. *)
Theorem compute_membership_strengths_slot (rows cols : list Z) (vals : list Q)
    (i j : nat) (irow : list Z) (idx : Z) :
  compute_membership_strengths knn_indices knn_dists sigmas rhos
    = Ok (rows, cols, vals) ->
  Forall (fun r => length r = shape1 knn_indices) knn_indices ->
  knn_indices !! i = Some irow ->
  irow !! j = Some idx ->
  let pos := (i * shape1 knn_indices + j)%nat in
  (idx = (-1)%Z ->
     rows !! pos = Some 0%Z /\ cols !! pos = Some 0%Z /\ vals !! pos = Some 0) /\
  (idx <> (-1)%Z ->
     rows !! pos = Some (Z.of_nat i) /\ cols !! pos = Some idx /\
     exists val,
       vals !! pos = Some val /\
       (idx = Z.of_nat i -> val = 0) /\
       (idx <> Z.of_nat i ->
          exists drow d rho,
            knn_dists !! i = Some drow /\ drow !! j = Some d /\
            rhos !! i = Some rho /\
            (d - rho <= 0 -> val = 1) /\
            (0 < d - rho ->
               exists sigma, sigmas !! i = Some sigma /\
                             val = np_exp (- ((d - rho) / sigma))))).
Proof.
  intros Hrun Hrect Hirow Hidx pos.
  apply compute_membership_strengths_inv in Hrun.
  assert (Hi : (i < n_samples)%nat) by (eapply lookup_lt_Some; eassumption).
  assert (Hj : (j < n_neighbors)%nat).
  { rewrite Forall_forall in Hrect.
    assert (Hlen : length irow = shape1 knn_indices).
    { apply Hrect. eapply list_elem_of_lookup_2; eassumption. }
    unfold n_neighbors. rewrite <- Hlen.
    eapply lookup_lt_Some; eassumption. }
  destruct (Hrun i j Hi Hj) as [Hdone _].
  assert (Hlt : (i * n_neighbors + j < n_samples * n_neighbors)%nat) by nia.
  destruct (Hdone Hlt) as (irow' & idx' & Hirow' & Hidx' & Hskip & Hset).
  rewrite Hirow in Hirow'. injection Hirow' as <-.
  rewrite Hidx in Hidx'. injection Hidx' as <-.
  split; [exact Hskip|].
  intros Hne. destruct (Hset Hne) as (Hr & Hc & val & Hv & Hval).
  split; [exact Hr|]. split; [exact Hc|].
  exists val. split; [exact Hv|].
  exact (membership_val_cases i j idx val Hval).
Qed.

End MembershipFacts.

(** ** The fuzzy union is symmetric *)

Lemma Qplus_swap (x y : Q) : Qplus x y = Qplus y x.
Proof. unfold Qplus. f_equal; [ring|apply Pos.mul_comm]. Qed.

Lemma Qmult_swap (x y : Q) : Qmult x y = Qmult y x.
Proof. unfold Qmult. f_equal; [ring|apply Pos.mul_comm]. Qed.

Module SparseFacts.
Import Sparse.

Lemma lookup_transpose (m : t) (i j : nat) : transpose m !! (i, j) = m !! (j, i).
Proof.
  unfold transpose.
  change (i, j) with (prod_swap (j, i)).
  apply (lookup_kmap prod_swap).
Qed.

Lemma transpose_involutive (m : t) : transpose (transpose m) = m.
Proof.
  apply map_eq. intros [i j]. rewrite !lookup_transpose. reflexivity.
Qed.

Lemma lookup_eliminate_zeros (m : t) (k : nat * nat) :
  eliminate_zeros m !! k
  = match m !! k with
    | Some v => if Qeq_bool v 0 then None else Some v
    | None => None
    end.
Proof.
  unfold eliminate_zeros. rewrite map_lookup_filter.
  destruct (m !! k) as [v|]; simpl; [|reflexivity].
  destruct (Qeq_bool v 0) eqn:E.
  - rewrite option_guard_False; [reflexivity|]. simpl. congruence.
  - rewrite option_guard_True; [reflexivity|]. simpl. reflexivity.
Qed.

Lemma eliminate_zeros_transpose (m : t) :
  transpose (eliminate_zeros m) = eliminate_zeros (transpose m).
Proof.
  apply map_eq. intros [i j].
  rewrite lookup_transpose, !lookup_eliminate_zeros, lookup_transpose.
  reflexivity.
Qed.

(** The combination [ratio * (A + B - A∘B) + (1 - ratio) * (A∘B)] that both
    [fuzzy_simplicial_set] and the proofs below speak about. *)
Definition mix (ratio : Q) (a b : t) : t :=
  add (scale ratio (sub (add a b) (multiply a b)))
      (scale (1 - ratio) (multiply a b)).

Lemma lookup_mix_swap (ratio : Q) (a b : t) (k k' : nat * nat) :
  a !! k = b !! k' -> b !! k = a !! k' ->
  mix ratio a b !! k = mix ratio a b !! k'.
Proof.
  intros Ha Hb. unfold mix, add, scale, sub, multiply.
  rewrite !lookup_union_with, !lookup_fmap, !lookup_merge,
    !lookup_union_with, !lookup_intersection_with.
  rewrite Ha, Hb.
  destruct (a !! k') as [x|], (b !! k') as [y|]; simpl; try reflexivity.
  rewrite (Qplus_swap y x), (Qmult_swap y x). reflexivity.
Qed.

Lemma mix_transpose_symmetric (ratio : Q) (a : t) :
  transpose (mix ratio a (transpose a)) = mix ratio a (transpose a).
Proof.
  apply map_eq. intros [i j]. rewrite lookup_transpose.
  apply lookup_mix_swap; rewrite !lookup_transpose; reflexivity.
Qed.

End SparseFacts.

Section FuzzySetFacts.
Context `{Externals}.

(** C3.  For every neighbour input and every mix ratio, the graph that
    [fuzzy_simplicial_set] returns is equal to its own transpose: the same
    positions are stored, with the same values. *)
Theorem fuzzy_simplicial_set_symmetric (n n_neighbors : nat)
    (knn_indices : iarray2) (knn_dists : array2)
    (set_op_mix_ratio local_connectivity : Q) (graph : Sparse.t) :
  fuzzy_simplicial_set n n_neighbors knn_indices knn_dists set_op_mix_ratio
    local_connectivity = Ok graph ->
  Sparse.transpose graph = graph.
Proof.
  unfold fuzzy_simplicial_set. intros Hrun.
  apply bind_Ok in Hrun as ([sigmas rhos] & _ & Hrun).
  apply bind_Ok in Hrun as ([[rows cols] vals] & _ & Hrun).
  apply bind_Ok in Hrun as (m & _ & Hrun).
  injection Hrun as <-.
  rewrite SparseFacts.eliminate_zeros_transpose. f_equal.
  apply SparseFacts.mix_transpose_symmetric.
Qed.

End FuzzySetFacts.

(** ** The target distribution *)

Lemma Qsum_positive (l : list Q) :
  l <> [] -> Forall (fun x => 0 < x) l -> 0 < Qsum l.
Proof.
  intros Hne Hpos. destruct l as [|x l]; [congruence|]. clear Hne.
  revert x Hpos. induction l as [|y l IH]; intros x Hpos; simpl.
  - apply Forall_inv in Hpos. simpl in Hpos. lra.
  - pose proof (Forall_inv Hpos) as Hx. simpl in Hx.
    apply Forall_inv_tail in Hpos.
    specialize (IH y Hpos). simpl in IH. lra.
Qed.

Lemma Qsum_scaled (s : Q) (l : list Q) :
  ~ s == 0 -> Qsum (map (fun w => w / s) l) == Qsum l / s.
Proof.
  intros Hs. induction l as [|x l IH]; simpl.
  - field. exact Hs.
  - rewrite IH. field. exact Hs.
Qed.

Lemma square_over_positive (x s : Q) : 0 < x -> 0 < s -> 0 < x * x / s.
Proof.
  intros Hx Hs. unfold Qdiv.
  apply Qmult_lt_0_compat; [apply Qmult_lt_0_compat; assumption|].
  apply Qinv_lt_0_compat. exact Hs.
Qed.

Module SoftFacts.
Import Soft.

Lemma weight_row_positive (sums row : list Q) :
  Forall (fun x => 0 < x) sums -> Forall (fun x => 0 < x) row ->
  Forall (fun x => 0 < x) (weight_row sums row).
Proof.
  unfold weight_row. intros Hsums. revert sums Hsums.
  induction row as [|x row IH]; intros sums Hsums Hrow; simpl.
  - constructor.
  - destruct sums as [|s sums]; [constructor|].
    constructor.
    + apply square_over_positive.
      * exact (Forall_inv Hrow).
      * exact (Forall_inv Hsums).
    + apply IH; [exact (Forall_inv_tail Hsums)|exact (Forall_inv_tail Hrow)].
Qed.

Lemma weight_row_length (sums row : list Q) :
  length (weight_row sums row) = Nat.min (length row) (length sums).
Proof. unfold weight_row. apply length_zip_with. Qed.

Lemma col_sums_length (q : array2) : length (col_sums q) = shape1 q.
Proof. unfold col_sums. rewrite length_map, length_seq. reflexivity. Qed.

Lemma col_sums_positive (q : array2) :
  Forall (fun r => length r = shape1 q) q ->
  Forall (Forall (fun x => 0 < x)) q ->
  Forall (fun s => 0 < s) (col_sums q).
Proof.
  intros Hrect Hpos. unfold col_sums.
  apply Forall_map, Forall_forall. intros k Hk.
  apply elem_of_seq in Hk. destruct Hk as [_ Hk]. simpl in Hk.
  apply Qsum_positive.
  - destruct q as [|r q]; [simpl in Hk; lia|]. discriminate.
  - apply Forall_map, Forall_forall. intros row Hrow. simpl.
    rewrite Forall_forall in Hrect, Hpos.
    specialize (Hrect row Hrow). specialize (Hpos row Hrow).
    rewrite Forall_forall in Hpos. apply Hpos.
    apply list_elem_of_In, nth_In. lia.
Qed.

End SoftFacts.

(** C4.  For a soft-assignment matrix with at least one column and every
    entry positive, every row of [T q] sums to [1]. *)
Theorem T_rows_sum_to_one (q : array2) (trow : list Q) :
  (0 < shape1 q)%nat ->
  Forall (fun r => length r = shape1 q) q ->
  Forall (Forall (fun x => 0 < x)) q ->
  trow ∈ Soft.T q ->
  Qsum trow == 1.
Proof.
  intros Hcols Hrect Hpos Hin. unfold Soft.T in Hin.
  apply list_elem_of_fmap in Hin as (wrow & -> & Hin).
  apply list_elem_of_fmap in Hin as (row & -> & Hrow).
  pose proof (SoftFacts.col_sums_positive q Hrect Hpos) as Hsums.
  assert (Hrowpos : Forall (fun x => 0 < x) row).
  { rewrite Forall_forall in Hpos. exact (Hpos row Hrow). }
  assert (Hlen : length row = shape1 q).
  { rewrite Forall_forall in Hrect. exact (Hrect row Hrow). }
  pose proof (SoftFacts.weight_row_positive _ _ Hsums Hrowpos) as Hw.
  assert (Hsum : 0 < Qsum (Soft.weight_row (Soft.col_sums q) row)).
  { apply Qsum_positive; [|exact Hw].
    intros Hnil. apply (f_equal length) in Hnil.
    rewrite SoftFacts.weight_row_length, SoftFacts.col_sums_length, Hlen in Hnil.
    simpl in Hnil. lia. }
  rewrite Qsum_scaled by lra.
  field. lra.
Qed.

(** ** The schedule of an all-zero weight vector *)

Lemma Qmaximum_zero (w : Q) (ws : list Q) :
  w == 0 -> Forall (fun x => x == 0) ws -> Qmaximum w ws == 0.
Proof.
  unfold Qmaximum. revert w. induction ws as [|y ws IH]; intros w Hw Hws; simpl.
  - exact Hw.
  - pose proof (Forall_inv Hws) as Hy. simpl in Hy.
    apply Forall_inv_tail in Hws.
    destruct (Qltb w y) eqn:E; apply IH; assumption.
Qed.

Lemma n_samples_of_zero (weights : list Q) (n_epochs wmax : Q) :
  wmax == 0 -> Forall (fun x => x == 0) weights ->
  n_samples_of weights n_epochs wmax = replicate (length weights) NaN.
Proof.
  intros Hmax Hall. unfold n_samples_of.
  induction weights as [|w ws IH]; simpl; [reflexivity|].
  pose proof (Forall_inv Hall) as Hw. simpl in Hw.
  apply Forall_inv_tail in Hall. rewrite (IH Hall). f_equal.
  unfold np_divide.
  apply Qeq_bool_iff in Hmax, Hw. rewrite Hmax, Hw. reflexivity.
Qed.

Lemma sentinel_always_due (n : nat) : sample_due (-1) n = true.
Proof.
  unfold sample_due. apply Qle_bool_iff.
  assert (0 <= inject_Z (Z.of_nat n)).
  { change 0 with (inject_Z 0). rewrite <- Zle_Qle. lia. }
  lra.
Qed.

(** C6, as the code has it.  For a non-empty all-zero weight vector the
    division by the maximum is carried out ([0/0], NaN for every edge), the
    mask [n_samples > 0] fails everywhere, and the result is [-1.0] for every
    edge, without an error.  The value [-1.0] does not stop sampling: the
    optimizers' test [epoch_of_next_sample[i] <= n] holds for it in every
    epoch. *)
Theorem make_epochs_per_sample_zero_weights (weights : list Q) (n_epochs : Q) :
  weights <> [] ->
  Forall (fun w => w == 0) weights ->
  make_epochs_per_sample weights n_epochs = Ok (replicate (length weights) (-1))
  /\ (forall e n, e ∈ replicate (length weights) (-1) -> sample_due e n = true).
Proof.
  intros Hne Hall. split.
  - destruct weights as [|w ws]; [congruence|].
    unfold make_epochs_per_sample.
    rewrite n_samples_of_zero.
    + f_equal. generalize (length (w :: ws)). intros k.
      induction k as [|k IH]; simpl; [reflexivity|]. f_equal. exact IH.
    + apply Qmaximum_zero; [exact (Forall_inv Hall)|exact (Forall_inv_tail Hall)].
    + exact Hall.
  - intros e n He. apply elem_of_replicate in He as [-> _].
    apply sentinel_always_due.
Qed.

(** C6, counterexample.  For the weights [[0; 0]] the schedule returned is not
    one under which nothing is sampled. *)
Lemma make_epochs_per_sample_zero_weights_sampled :
  ~ (exists epochs_per_sample,
       make_epochs_per_sample [0; 0] 500 = Ok epochs_per_sample
       /\ never_sampled epochs_per_sample).
Proof.
  intros (eps & Hrun & Hnever).
  vm_compute in Hrun. injection Hrun as <-.
  specialize (Hnever (-1) 0%nat (list_elem_of_here _ _)).
  vm_compute in Hnever. discriminate.
Qed.

(** ** Every update of the joint optimizer is clipped *)

Section OptimizerFacts.
Context `{Externals}.

Definition all_clipped (st : opt_state) : Prop :=
  Forall clipped (updates st) /\ 0 <= eta st /\ eta st <= 1.

Lemma add_to_current_clipped (tm : term) (j d : nat) (grad rate : Q)
    (st st' : opt_state) :
  clipped {| u_term := tm; u_grad := grad; u_rate := rate |} ->
  all_clipped st -> add_to_current tm j d grad rate st = Ok st' -> all_clipped st'.
Proof.
  intros Hu [Hlog Heta] Hrun. unfold add_to_current in Hrun.
  apply bind_Ok in Hrun as (x & _ & Hrun). injection Hrun as <-.
  split; simpl; [constructor; assumption|exact Heta].
Qed.

Lemma add_to_other_clipped (tm : term) (k d : nat) (grad rate : Q)
    (st st' : opt_state) :
  clipped {| u_term := tm; u_grad := grad; u_rate := rate |} ->
  all_clipped st -> add_to_other tm k d grad rate st = Ok st' -> all_clipped st'.
Proof.
  intros Hu [Hlog Heta] Hrun. unfold add_to_other in Hrun.
  apply bind_Ok in Hrun as (x & _ & Hrun). injection Hrun as <-.
  unfold set_tail. destruct (tail_embedding st);
    (split; simpl; [constructor; assumption|exact Heta]).
Qed.

Lemma Qabs_opp_le (x c : Q) : Qabs x <= c -> Qabs (- x) <= c.
Proof. rewrite Qabs_opp. tauto. Qed.

Lemma attract_clipped (a b rate_current rate_other : Q) (move_other : bool)
    (dim j k : nat) (st st' : opt_state) :
  0 <= rate_current <= 1 -> 0 <= rate_other <= 1 ->
  all_clipped st ->
  attract a b rate_current rate_other move_other dim j k st = Ok st' ->
  all_clipped st'.
Proof.
  intros Hrc Hro Hst Hrun. unfold attract in Hrun.
  apply bind_Ok in Hrun as (current & _ & Hrun).
  apply bind_Ok in Hrun as (other & _ & Hrun).
  apply bind_Ok in Hrun as (dist_squared & _ & Hrun).
  revert Hst Hrun. apply foldM_invariant.
  intros s d s' _ Hs Hstep.
  apply bind_Ok in Hstep as (cd & _ & Hstep).
  apply bind_Ok in Hstep as (od & _ & Hstep).
  apply bind_Ok in Hstep as (s1 & Hs1 & Hstep).
  assert (Hs1' : all_clipped s1).
  { revert Hs1. apply add_to_current_clipped; [|exact Hs].
    split; simpl; [apply clip_abs|tauto]. }
  destruct move_other.
  - revert Hstep. apply add_to_other_clipped; [|exact Hs1'].
    split; simpl; [apply Qabs_opp_le, clip_abs|tauto].
  - injection Hstep as <-. exact Hs1'.
Qed.

Lemma repel_coords_clipped (grad_coeff rate : Q) (dim j k : nat)
    (st st' : opt_state) :
  0 <= rate <= 1 -> all_clipped st ->
  repel_coords grad_coeff rate dim j k st = Ok st' -> all_clipped st'.
Proof.
  intros Hrate. unfold repel_coords. apply foldM_invariant.
  intros s d s' _ Hs Hstep.
  apply bind_Ok in Hstep as (grad_d & Hgrad & Hstep).
  revert Hstep. apply add_to_current_clipped; [|exact Hs].
  split; simpl; [|tauto].
  destruct (Qltb 0 grad_coeff).
  - apply bind_Ok in Hgrad as (cd & _ & Hgrad).
    apply bind_Ok in Hgrad as (od & _ & Hgrad).
    injection Hgrad as <-. apply clip_abs.
  - injection Hgrad as <-. apply Qabs_bound; lra.
Qed.

Lemma negative_sample_clipped (a b gamma rate : Q) (n_vertices : Z) (dim j : nat)
    (st st' : opt_state) :
  0 <= rate <= 1 -> all_clipped st ->
  negative_sample a b gamma rate n_vertices dim j st = Ok st' -> all_clipped st'.
Proof.
  intros Hrate Hst Hrun. unfold negative_sample in Hrun.
  destruct (tau_rand_int (rng st)) as [r rng'].
  destruct (n_vertices =? 0)%Z; [discriminate|].
  destruct (r mod n_vertices <? 0)%Z; [discriminate|].
  apply bind_Ok in Hrun as (current & _ & Hrun).
  apply bind_Ok in Hrun as (other & _ & Hrun).
  apply bind_Ok in Hrun as (dist_squared & _ & Hrun).
  assert (Hst' : all_clipped (set_rng st rng')) by exact Hst.
  destruct (Qltb 0 dist_squared).
  - revert Hrun. apply repel_coords_clipped; assumption.
  - destruct (Z.of_nat j =? r mod n_vertices)%Z.
    + injection Hrun as <-. exact Hst'.
    + revert Hrun. apply repel_coords_clipped; assumption.
Qed.

Lemma log_all_clipped (st : opt_state) (us : list update) :
  Forall clipped us -> all_clipped st -> all_clipped (log_all st us).
Proof.
  unfold log_all. revert st. induction us as [|u us IH]; intros st Hus Hst; simpl.
  - exact Hst.
  - apply IH; [exact (Forall_inv_tail Hus)|].
    destruct Hst as [Hlog Heta]. split; simpl; [|exact Heta].
    constructor; [exact (Forall_inv Hus)|exact Hlog].
Qed.

Lemma cluster_pull_clipped (a b : Q) (j : nat) (st st' : opt_state) (k : nat) :
  all_clipped st -> cluster_pull a b j st k = Ok st' -> all_clipped st'.
Proof.
  intros Hst Hrun. unfold cluster_pull in Hrun.
  apply bind_Ok in Hrun as (centroid & _ & Hrun).
  apply bind_Ok in Hrun as (current & _ & Hrun).
  apply bind_Ok in Hrun as (dist_squared & _ & Hrun).
  injection Hrun as <-.
  apply log_all_clipped; [|exact Hst].
  apply Forall_replicate. split; simpl; [apply clip_clust_abs|lra].
Qed.

Lemma centroid_push_clipped (a b : Q) (nn_sample k : nat) (st st' : opt_state)
    (i : nat) :
  (0 < nn_sample)%nat ->
  all_clipped st -> centroid_push a b nn_sample k st i = Ok st' -> all_clipped st'.
Proof.
  intros Hnn Hst Hrun. unfold centroid_push in Hrun.
  apply bind_Ok in Hrun as (centroid & _ & Hrun).
  apply bind_Ok in Hrun as (current & _ & Hrun).
  apply bind_Ok in Hrun as (dist_squared & _ & Hrun).
  injection Hrun as <-.
  apply log_all_clipped; [|exact Hst].
  apply Forall_replicate. split; simpl; [apply clip_abs|].
  assert (Hn : 1 <= inject_Z (Z.of_nat nn_sample)).
  { change 1 with (inject_Z 1). rewrite <- Zle_Qle. lia. }
  assert (Hpos : 0 < inject_Z (Z.of_nat nn_sample) * 100) by lra.
  split.
  - apply Qle_shift_div_l; [exact Hpos|lra].
  - apply Qle_shift_div_r; [exact Hpos|lra].
Qed.

Lemma sampled_edge_clipped (head tail : list nat) (epochs_per_sample
    epochs_per_negative_sample : list Q) (a b gamma : Q) (n_vertices : Z)
    (n_clusters dim : nat) (move_other : bool) (n i : nat) (st st' : opt_state) :
  all_clipped st ->
  sampled_edge head tail epochs_per_sample epochs_per_negative_sample a b gamma
    n_vertices n_clusters dim move_other n i st = Ok st' ->
  all_clipped st'.
Proof.
  intros Hst Hrun. unfold sampled_edge in Hrun.
  apply bind_Ok in Hrun as (j & _ & Hrun).
  apply bind_Ok in Hrun as (k & _ & Hrun).
  apply bind_Ok in Hrun as (s1 & Hs1 & Hrun).
  assert (H1 : all_clipped s1).
  { destruct Hst as [Hlog Heta].
    revert Hs1. apply attract_clipped; [lra|lra|split; assumption]. }
  apply bind_Ok in Hrun as (per_sample & _ & Hrun).
  apply bind_Ok in Hrun as (next & _ & Hrun).
  apply bind_Ok in Hrun as (next_negative & _ & Hrun).
  apply bind_Ok in Hrun as (per_negative & _ & Hrun).
  apply bind_Ok in Hrun as (s2 & Hs2 & Hrun).
  assert (H2 : all_clipped s2).
  { revert Hs2. apply foldM_invariant; [|exact H1].
    intros s x s' _ Hs. destruct Hs as [Hlog Heta].
    apply negative_sample_clipped; [lra|split; assumption]. }
  apply bind_Ok in Hrun as (s3 & Hs3 & Hrun).
  assert (H3 : all_clipped s3).
  { revert Hs3. apply foldM_invariant; [|exact H2].
    intros s x s' _ Hs. apply cluster_pull_clipped. exact Hs. }
  apply bind_Ok in Hrun as (next_neg & _ & Hrun).
  injection Hrun as <-. exact H3.
Qed.

Lemma optimize_epoch_clipped (head tail : list nat) (epochs_per_sample
    epochs_per_negative_sample : list Q) (a b gamma : Q) (n_vertices : Z)
    (n_clusters dim : nat) (move_other : bool) (n_epochs update_interval : nat)
    (st st' : opt_state) (n : nat) :
  (n < n_epochs)%nat ->
  all_clipped st ->
  optimize_epoch head tail epochs_per_sample epochs_per_negative_sample a b gamma
    n_vertices n_clusters dim move_other n_epochs update_interval st n = Ok st' ->
  all_clipped st'.
Proof.
  intros Hn Hst Hrun. unfold optimize_epoch in Hrun.
  apply bind_Ok in Hrun as (s1 & Hs1 & Hrun).
  assert (H1 : all_clipped s1).
  { destruct (n mod update_interval =? 0)%nat.
    - apply bind_Ok in Hs1 as (soft & _ & Hs1). injection Hs1 as <-. exact Hst.
    - injection Hs1 as <-. exact Hst. }
  apply bind_Ok in Hrun as (s2 & Hs2 & Hrun).
  assert (H2 : all_clipped s2).
  { revert Hs2. apply foldM_invariant; [|exact H1].
    intros s i s' _ Hs Hstep.
    apply bind_Ok in Hstep as (next & _ & Hstep).
    destruct (sample_due next n).
    - revert Hstep. apply sampled_edge_clipped. exact Hs.
    - injection Hstep as <-. exact Hs. }
  apply bind_Ok in Hrun as (s3 & Hs3 & Hrun).
  assert (H3 : all_clipped s3).
  { revert Hs3. apply foldM_invariant; [|exact H2].
    intros s k s' _ Hs. apply foldM_invariant; [|exact Hs].
    intros s0 i s0' Hi. apply centroid_push_clipped.
    apply in_seq in Hi. lia. }
  injection Hrun as <-.
  destruct H3 as [Hlog _]. split; simpl; [exact Hlog|].
  assert (Hq : 0 <= inject_Z (Z.of_nat n) / inject_Z (Z.of_nat n_epochs) <= 1).
  { assert (Hpos : 0 < inject_Z (Z.of_nat n_epochs)).
    { change 0 with (inject_Z 0). rewrite <- Zlt_Qlt. lia. }
    assert (Hle : inject_Z (Z.of_nat n) <= inject_Z (Z.of_nat n_epochs)).
    { rewrite <- Zle_Qle. lia. }
    assert (Hn0 : 0 <= inject_Z (Z.of_nat n)).
    { change 0 with (inject_Z 0). rewrite <- Zle_Qle. lia. }
    split.
    - apply Qle_shift_div_l; [exact Hpos|lra].
    - apply Qle_shift_div_r; [exact Hpos|lra]. }
  lra.
Qed.

(** C5.  In a run of the joint optimizer every addition made to a coordinate
    comes from a clipped gradient: at most [4.0] in magnitude for the
    attraction and the negative-sample repulsion (and the centroid pass), at
    most [1.0] for the clustering term, each scaled by a rate in [[0, 1]]. *)
Theorem optimize_layout_updates_clipped (head_emb : array2)
    (tail_emb : option array2) (head tail : list nat) (n_epochs : Q)
    (y_pred : list Z) (cents : array2) (P : Q) (n_vertices : Z)
    (epochs_per_sample : list Q) (a b : Q) (n_clusters : nat) (rng0 : rng_state)
    (gamma initial_eta negative_sample_rate : Q) (st : opt_state) :
  optimize_layout head_emb tail_emb head tail n_epochs y_pred cents P n_vertices
    epochs_per_sample a b n_clusters rng0 gamma initial_eta negative_sample_rate
    = Ok st ->
  Forall clipped (updates st).
Proof.
  unfold optimize_layout. intros Hrun.
  apply (foldM_invariant all_clipped) in Hrun.
  - exact (proj1 Hrun).
  - intros s n s' Hn. apply optimize_epoch_clipped.
    apply in_seq in Hn. lia.
  - split; simpl; [constructor|lra].
Qed.

End OptimizerFacts.

(** ** Coincident points *)

Lemma Qltb_zero_false (x : Q) : x == 0 -> Qltb 0 x = false.
Proof. intros Hx. apply Qltb_ge. rewrite Hx. apply Qle_refl. Qed.

Lemma clip_of_zero (x : Q) : x == 0 -> clip x == 0.
Proof.
  intros Hx. unfold clip.
  assert (H4 : Qltb 4 x = false) by (apply Qltb_ge; lra).
  assert (H4' : Qltb x (-4) = false) by (apply Qltb_ge; lra).
  rewrite H4, H4'. exact Hx.
Qed.

(** The row of the nudged point after the first [d] coordinates. *)
Lemma insert_next_coordinate (f : Q -> Q) (row : list Q) (d : nat) (x : Q) :
  row !! d = Some x ->
  <[d := f x]> (map f (take d row) ++ drop d row)
  = map f (take (Datatypes.S d) row) ++ drop (Datatypes.S d) row.
Proof.
  intros Hx.
  assert (Hd : (d < length row)%nat) by (eapply lookup_lt_Some; eassumption).
  rewrite (take_S_r row d x Hx), (drop_S row x d Hx).
  rewrite map_app. simpl. rewrite <- app_assoc. simpl.
  assert (Hlen : length (map f (take d row)) = d).
  { rewrite length_map, length_take. lia. }
  rewrite <- Hlen at 1.
  rewrite <- (Nat.add_0_r (length (map f (take d row)))).
  rewrite insert_app_r. reflexivity.
Qed.

Lemma insert_same (row : list Q) (d : nat) (x v : Q) :
  row !! d = Some x -> v == x -> Forall2 Qeq (<[d := v]> row) row.
Proof.
  intros Hx Hv. apply Forall2_lookup. intros i.
  destruct (decide (d = i)) as [<-|Hne].
  - rewrite list_lookup_insert_eq by (eapply lookup_lt_Some; eassumption).
    rewrite Hx. constructor. exact Hv.
  - rewrite list_lookup_insert_ne by exact Hne.
    destruct (row !! i); constructor. reflexivity.
Qed.

Lemma alter_same (f : list Q -> list Q) (a : array2) (j : nat) :
  (forall row, a !! j = Some row -> Forall2 Qeq (f row) row) ->
  array_eq (alter f j a) a.
Proof.
  intros Hf. apply Forall2_lookup. intros i.
  destruct (decide (j = i)) as [<-|Hne].
  - rewrite list_lookup_alter_eq.
    destruct (a !! j) eqn:E; simpl; constructor. apply Hf. reflexivity.
  - rewrite list_lookup_alter_ne by exact Hne.
    destruct (a !! i); constructor. reflexivity.
Qed.

Lemma add_scalar_zero (v : Q) (row : list Q) :
  v == 0 -> Forall2 Qeq (add_scalar v row) row.
Proof.
  intros Hv. unfold add_scalar.
  induction row as [|x row IH]; simpl; constructor; [lra|exact IH].
Qed.

Lemma array_eq_trans (a b c : array2) : array_eq a b -> array_eq b c -> array_eq a c.
Proof. unfold array_eq. intros Hab Hbc. etransitivity; eassumption. Qed.

Lemma array_eq_refl (a : array2) : array_eq a a.
Proof. unfold array_eq. reflexivity. Qed.

Section CoincidentPoints.
Context `{Externals}.

Lemma write_cell_same (a : array2) (j d : nat) (x v : Q) :
  read_cell a j d = Ok x -> v == x -> array_eq (write_cell a j d v) a.
Proof.
  intros Hread Hv. unfold read_cell in Hread.
  apply bind_Ok in Hread as (row & Hrow & Hx). apply get_Ok in Hrow, Hx.
  unfold write_cell. apply alter_same. intros row' Hrow'.
  rewrite Hrow in Hrow'. injection Hrow' as <-.
  exact (insert_same row d x v Hx Hv).
Qed.

(** An addition of a zero gradient leaves both embeddings as they are. *)
Lemma add_to_current_same (tm : term) (j d : nat) (grad rate : Q)
    (st st' : opt_state) :
  grad == 0 ->
  add_to_current tm j d grad rate st = Ok st' ->
  updates st' = {| u_term := tm; u_grad := grad; u_rate := rate |} :: updates st
  /\ array_eq (head_embedding st') (head_embedding st)
  /\ array_eq (tail_array st') (tail_array st).
Proof.
  intros Hg Hrun. unfold add_to_current in Hrun.
  apply bind_Ok in Hrun as (x & Hx & Hrun). injection Hrun as <-.
  assert (Hsame : array_eq (write_cell (head_embedding st) j d (x + grad * rate))
                    (head_embedding st)).
  { apply (write_cell_same _ j d x); [exact Hx|]. rewrite Hg. lra. }
  split; [reflexivity|]. split; [exact Hsame|].
  unfold tail_array. simpl.
  destruct (tail_embedding st); [apply array_eq_refl|exact Hsame].
Qed.

Lemma add_to_other_same (tm : term) (k d : nat) (grad rate : Q)
    (st st' : opt_state) :
  grad == 0 ->
  add_to_other tm k d grad rate st = Ok st' ->
  updates st' = {| u_term := tm; u_grad := grad; u_rate := rate |} :: updates st
  /\ array_eq (head_embedding st') (head_embedding st)
  /\ array_eq (tail_array st') (tail_array st).
Proof.
  intros Hg Hrun. unfold add_to_other in Hrun.
  apply bind_Ok in Hrun as (x & Hx & Hrun). injection Hrun as <-.
  assert (Hsame : array_eq (write_cell (tail_array st) k d (x + grad * rate))
                    (tail_array st)).
  { apply (write_cell_same _ k d x); [exact Hx|]. rewrite Hg. lra. }
  unfold set_tail, tail_array in *.
  destruct (tail_embedding st) as [t|] eqn:Et; simpl; rewrite ?Et.
  - split; [reflexivity|]. split; [apply array_eq_refl|exact Hsame].
  - split; [reflexivity|]. split; exact Hsame.
Qed.

Lemma updates_log_all (st : opt_state) (us : list update) :
  updates (log_all st us) = rev us ++ updates st.
Proof.
  unfold log_all. revert st. induction us as [|u us IH]; intros st; simpl.
  - reflexivity.
  - rewrite IH. simpl. rewrite <- app_assoc. reflexivity.
Qed.

Lemma tail_array_log_all (st : opt_state) (us : list update) :
  tail_array (log_all st us) = tail_array st.
Proof.
  unfold log_all. revert st. induction us as [|u us IH]; intros st; simpl.
  - reflexivity.
  - rewrite IH. reflexivity.
Qed.

Lemma head_embedding_log_all (st : opt_state) (us : list update) :
  head_embedding (log_all st us) = head_embedding st.
Proof.
  unfold log_all. revert st. induction us as [|u us IH]; intros st; simpl.
  - reflexivity.
  - rewrite IH. reflexivity.
Qed.

Lemma repel_coords_zero (rate : Q) (dim j k : nat) (st st' : opt_state)
    (current : list Q) :
  head_embedding st !! j = Some current ->
  repel_coords 0 rate dim j k st = Ok st' ->
  updates st' = replicate dim (nudge rate) ++ updates st
  /\ head_embedding st' !! j
     = Some (map (fun x => x + 4 * rate) (take dim current) ++ drop dim current).
Proof.
  intros Hcur Hrun. unfold repel_coords in Hrun.
  apply (foldM_seq_counter
           (fun d s =>
              updates s = replicate d (nudge rate) ++ updates st
              /\ head_embedding s !! j
                 = Some (map (fun x => x + 4 * rate) (take d current)
                         ++ drop d current)))
    in Hrun; [exact Hrun| |].
  - intros d s0 s1 _ [Hlog Hrow] Hstep. simpl in Hstep.
    unfold add_to_current, read_cell in Hstep.
    apply bind_Ok in Hstep as (x & Hx & Hstep).
    apply bind_Ok in Hx as (row & Hrowj & Hx).
    apply get_Ok in Hrowj, Hx. rewrite Hrow in Hrowj. injection Hrowj as <-.
    injection Hstep as <-. simpl. split.
    + rewrite Hlog. reflexivity.
    + unfold write_cell. rewrite list_lookup_alter_eq, Hrow. simpl. f_equal.
      assert (Hd : (d < length current)%nat).
      { apply lookup_lt_Some in Hx. rewrite length_app, length_map in Hx.
        rewrite length_take, length_drop in Hx. lia. }
      assert (Hxd : current !! d = Some x).
      { rewrite lookup_app_r in Hx by (rewrite length_map, length_take; lia).
        rewrite length_map, length_take in Hx.
        rewrite lookup_drop in Hx.
        replace (d + (d - d `min` length current))%nat with d in Hx by lia.
        exact Hx. }
      apply (insert_next_coordinate (fun x => x + 4 * rate) current d x Hxd).
  - simpl. rewrite drop_0. split; [reflexivity|exact Hcur].
Qed.

Lemma untouched_refl (st : opt_state) : untouched st st.
Proof.
  split; [exists []; split; [reflexivity|constructor]|].
  split; apply array_eq_refl.
Qed.

Lemma untouched_step (st s s' : opt_state) (u : update) :
  untouched st s -> no_force u ->
  updates s' = u :: updates s ->
  array_eq (head_embedding s') (head_embedding s) ->
  array_eq (tail_array s') (tail_array s) ->
  untouched st s'.
Proof.
  intros ((new & Hlog & Hnew) & Hhead & Htail) Hu Hlog' Hhead' Htail'.
  split; [|split].
  - exists (u :: new). split; [rewrite Hlog', Hlog; reflexivity|].
    constructor; assumption.
  - exact (array_eq_trans _ _ _ Hhead' Hhead).
  - exact (array_eq_trans _ _ _ Htail' Htail).
Qed.

Lemma attract_zero (a b rate_current rate_other : Q) (move_other : bool)
    (dim j k : nat) (st st' : opt_state) (current other : list Q) (d2 : Q) :
  head_embedding st !! j = Some current ->
  tail_array st !! k = Some other ->
  rdist current other = Ok d2 -> d2 == 0 ->
  attract a b rate_current rate_other move_other dim j k st = Ok st' ->
  untouched st st'.
Proof.
  intros Hcur Hoth Hd2 Hzero Hrun. unfold attract in Hrun.
  apply get_Ok in Hcur, Hoth. rewrite Hcur, Hoth in Hrun. simpl in Hrun.
  rewrite Hd2 in Hrun. simpl in Hrun.
  unfold attraction_coeff in Hrun. rewrite (Qltb_zero_false d2 Hzero) in Hrun.
  revert Hrun. apply (foldM_invariant (untouched st)); [|apply untouched_refl].
  intros s d s' _ Hs Hstep.
  apply bind_Ok in Hstep as (cd & _ & Hstep).
  apply bind_Ok in Hstep as (od & _ & Hstep).
  apply bind_Ok in Hstep as (s1 & Hs1 & Hstep).
  assert (Hg : clip (0 * (cd - od)) == 0) by (apply clip_of_zero; lra).
  apply (add_to_current_same _ _ _ _ _ _ _ Hg) in Hs1 as (Hlog1 & Hhead1 & Htail1).
  assert (H1 : untouched st s1).
  { apply (fun Hu => untouched_step st s s1 _ Hs Hu Hlog1 Hhead1 Htail1).
    exact Hg. }
  destruct move_other.
  - assert (Hg' : - clip (0 * (cd - od)) == 0) by (rewrite Hg; reflexivity).
    apply (add_to_other_same _ _ _ _ _ _ _ Hg') in Hstep as (Hlog2 & Hhead2 & Htail2).
    apply (fun Hu => untouched_step st s1 s' _ H1 Hu Hlog2 Hhead2 Htail2).
    exact Hg'.
  - injection Hstep as <-. exact H1.
Qed.

Lemma cluster_pull_zero (a b : Q) (j k : nat) (st st' : opt_state)
    (current centroid : list Q) (d2 : Q) :
  centroids st !! k = Some centroid ->
  head_embedding st !! j = Some current ->
  rdist current centroid = Ok d2 -> d2 == 0 ->
  cluster_pull a b j st k = Ok st' ->
  untouched st st'.
Proof.
  intros Hcen Hcur Hd2 Hzero Hrun. unfold cluster_pull in Hrun.
  apply get_Ok in Hcen, Hcur. rewrite Hcen, Hcur in Hrun. simpl in Hrun.
  rewrite Hd2 in Hrun. simpl in Hrun.
  unfold centroid_coeff in Hrun. rewrite (Qltb_zero_false d2 Hzero) in Hrun.
  injection Hrun as <-.
  assert (Hsame : array_eq
                    (alter (add_scalar (clip_clust 0 * (1 * 1 * 0.00001))) j
                       (head_embedding st))
                    (head_embedding st)).
  { apply alter_same. intros row _. apply add_scalar_zero.
    change (clip_clust 0) with 0. lra. }
  split; [|split].
  - eexists. split; [rewrite updates_log_all; simpl; reflexivity|].
    apply Forall_rev, Forall_replicate. unfold no_force. simpl. reflexivity.
  - rewrite head_embedding_log_all. exact Hsame.
  - rewrite tail_array_log_all. unfold tail_array. simpl.
    destruct (tail_embedding st); [apply array_eq_refl|exact Hsame].
Qed.

Lemma negative_sample_zero (a b gamma rate : Q) (n_vertices : Z) (dim j k : nat)
    (st st' : opt_state) (current other : list Q) (r : Z) (rng' : rng_state)
    (d2 : Q) :
  head_embedding st !! j = Some current ->
  tau_rand_int (rng st) = (r, rng') ->
  (r mod n_vertices)%Z = Z.of_nat k -> k <> j ->
  tail_array st !! k = Some other ->
  rdist current other = Ok d2 -> d2 == 0 ->
  negative_sample a b gamma rate n_vertices dim j st = Ok st' ->
  updates st' = replicate dim (nudge rate) ++ updates st
  /\ head_embedding st' !! j
     = Some (map (fun x => x + 4 * rate) (take dim current) ++ drop dim current).
Proof.
  intros Hcur Htau Hk Hne Hoth Hd2 Hzero Hrun.
  unfold negative_sample in Hrun. rewrite Htau, Hk in Hrun.
  destruct (n_vertices =? 0)%Z; [discriminate|].
  destruct (Z.of_nat k <? 0)%Z eqn:Hneg; [apply Z.ltb_lt in Hneg; lia|].
  rewrite Nat2Z.id in Hrun.
  assert (Hcur' : get (head_embedding (set_rng st rng')) j = Ok current)
    by (apply get_Ok; exact Hcur).
  assert (Hoth' : get (tail_array (set_rng st rng')) k = Ok other)
    by (apply get_Ok; exact Hoth).
  rewrite Hcur', Hoth' in Hrun. simpl in Hrun.
  rewrite Hd2 in Hrun. simpl in Hrun.
  rewrite (Qltb_zero_false d2 Hzero) in Hrun.
  destruct (Z.of_nat j =? Z.of_nat k)%Z eqn:Hjk; [apply Z.eqb_eq in Hjk; lia|].
  apply (repel_coords_zero rate dim j k (set_rng st rng') st' current Hcur Hrun).
Qed.

(** C8.  Let [current] be the position of point [j].  A negative sample
    whose partner has another index and lies at squared distance exactly
    zero adds the fixed amount [4.0] (times the rate) to every coordinate of
    [current].  An attraction step towards a partner at squared distance
    zero, and a clustering step towards a centroid at squared distance zero,
    only make additions of a zero gradient and leave both embeddings as they
    were. *)
Theorem zero_distance_forces (a b gamma rate rate_other : Q) (move_other : bool)
    (n_vertices : Z) (dim j : nat) (st : opt_state) (current : list Q) :
  head_embedding st !! j = Some current ->
  (forall k other d2 r rng' st',
     tail_array st !! k = Some other ->
     rdist current other = Ok d2 -> d2 == 0 ->
     tau_rand_int (rng st) = (r, rng') ->
     (r mod n_vertices)%Z = Z.of_nat k -> k <> j ->
     negative_sample a b gamma rate n_vertices dim j st = Ok st' ->
     updates st' = replicate dim (nudge rate) ++ updates st
     /\ head_embedding st' !! j
        = Some (map (fun x => x + 4 * rate) (take dim current)
                ++ drop dim current))
  /\ (forall k other d2 st',
        tail_array st !! k = Some other ->
        rdist current other = Ok d2 -> d2 == 0 ->
        attract a b rate rate_other move_other dim j k st = Ok st' ->
        untouched st st')
  /\ (forall c centroid d2 st',
        centroids st !! c = Some centroid ->
        rdist current centroid = Ok d2 -> d2 == 0 ->
        cluster_pull a b j st c = Ok st' ->
        untouched st st').
Proof.
  intros Hcur. split; [|split].
  - intros k other d2 r rng' st' Hoth Hd2 Hzero Htau Hk Hne Hrun.
    exact (negative_sample_zero a b gamma rate n_vertices dim j k st st'
             current other r rng' d2 Hcur Htau Hk Hne Hoth Hd2 Hzero Hrun).
  - intros k other d2 st' Hoth Hd2 Hzero Hrun.
    exact (attract_zero a b rate rate_other move_other dim j k st st'
             current other d2 Hcur Hoth Hd2 Hzero Hrun).
  - intros c centroid d2 st' Hcen Hd2 Hzero Hrun.
    exact (cluster_pull_zero a b j c st st' current centroid d2
             Hcen Hcur Hd2 Hzero Hrun).
Qed.

End CoincidentPoints.

(** ** The estimator: degenerate fits and the two ends of transform *)


Module UEC_PV_Facts.
Import UEC_PV.

Lemma check_Ok (bad : bool) (msg : string) (u : unit) :
  check bad msg = Ok u -> bad = false.
Proof. unfold check. destruct bad; [discriminate|reflexivity]. Qed.

(** What a configuration that passes [_validate_parameters] guarantees to
    the size test of [fit]. *)
Lemma validated_sizes (p : params) (alpha : Q) :
  _validate_parameters p alpha = Ok tt ->
  (2 <= n_neighbors p)%Z /\ exists nc, n_components p = PyInt nc /\ (1 <= nc)%Z.
Proof.
  unfold _validate_parameters. intros Hv.
  repeat (let Hc := fresh "Hc" in
          apply bind_Ok in Hv as ([] & Hc & Hv); apply check_Ok in Hc).
  apply check_Ok in Hv.
  match goal with Hn : (n_neighbors p <? 2)%Z = false |- _ =>
    apply Z.ltb_ge in Hn end.
  split; [assumption|].
  destruct (n_components p) as [nc|q]; simpl in *; [|discriminate].
  exists nc. split; [reflexivity|].
  match goal with Hq : Qltb (inject_Z nc) 1 = false |- _ =>
    apply Qltb_ge in Hq; change 1 with (inject_Z 1) in Hq;
    rewrite <- Zle_Qle in Hq; exact Hq end.
Qed.

Section MethodFacts.
Context `{Collaborators}.


(** What a [fit] that returns on one sample returns. *)
Lemma fit_single_sample_state (self self' : estimator) (X : dataset)
    (y : option (list Q)) :
  length (samples X) = 1%nat ->
  fit self X y = Ok self' ->
  exists ab e,
    self' = with_embedding (with_setup self X ab) e /\ length e = 1%nat.
Proof.
  unfold fit. intros Hone Hfit.
  apply bind_Ok in Hfit as ([] & _ & Hfit).
  apply bind_Ok in Hfit as (ab & _ & Hfit).
  apply bind_Ok in Hfit as ([] & _ & Hfit).
  apply bind_Ok in Hfit as ([] & Hvalid & Hfit).
  destruct (validated_sizes _ _ Hvalid) as (Hnn & _).
  rewrite Hone in Hfit.
  assert (Hle : (Z.of_nat 1 <=? n_neighbors (config self))%Z = true)
    by (apply Z.leb_le; lia).
  rewrite Hle in Hfit. simpl in Hfit. injection Hfit as <-.
  exists ab. eexists. split; reflexivity.
Qed.


(** [transform] returns the stored embedding as soon as the hash of its
    argument is the stored one. *)
Lemma transform_short_circuit (self : estimator) (X : dataset) (fitted : array2) :
  embedding_ self = Some fitted ->
  length fitted <> 1%nat ->
  _input_hash self = Some (joblib_hash X) ->
  transform self X = Ok (VArray2 fitted).
Proof.
  intros Hemb Hrows Hhash. unfold transform.
  rewrite Hemb, Hhash. simpl.
  apply Nat.eqb_neq in Hrows. rewrite Hrows.
  rewrite String.eqb_refl. reflexivity.
Qed.

(** After a [fit] that stored an embedding of more than one row, the stored
    hash is the hash of the data that was fitted. *)
Lemma fit_stores_input_hash (self self' : estimator) (X : dataset)
    (y : option (list Q)) (fitted : array2) :
  fit self X y = Ok self' ->
  embedding_ self' = Some fitted ->
  length fitted <> 1%nat ->
  _input_hash self' = Some (joblib_hash X).
Proof.
  unfold fit. intros Hfit Hemb Hrows.
  apply bind_Ok in Hfit as ([] & _ & Hfit).
  apply bind_Ok in Hfit as (ab & _ & Hfit).
  apply bind_Ok in Hfit as ([] & _ & Hfit).
  apply bind_Ok in Hfit as ([] & _ & Hfit).
  destruct ((Z.of_nat (length (samples X)) <=? n_neighbors (config self))%Z
            && (length (samples X) =? 1)%nat).
  - injection Hfit as <-. simpl in Hemb. injection Hemb as <-.
    simpl in Hrows. congruence.
  - apply bind_Ok in Hfit as (g & _ & Hfit).
    apply bind_Ok in Hfit as (g' & _ & Hfit).
    apply bind_Ok in Hfit as ([[e l] c] & _ & Hfit).
    injection Hfit as <-. reflexivity.
Qed.

(** C10.  After a [fit] that stored an embedding of other than one row (the
    test [transform] makes for a fit on more than one sample), [transform]
    of any array whose hash is the hash of the fitted array returns the
    stored embedding, before anything else is computed. *)
Theorem transform_same_input (self self' : estimator) (X X' : dataset)
    (y : option (list Q)) (fitted : array2) :
  fit self X y = Ok self' ->
  embedding_ self' = Some fitted ->
  length fitted <> 1%nat ->
  joblib_hash X' = joblib_hash X ->
  transform self' X' = Ok (VArray2 fitted).
Proof.
  intros Hfit Hemb Hrows Hsame.
  apply transform_short_circuit; [exact Hemb|exact Hrows|].
  rewrite Hsame. exact (fit_stores_input_hash self self' X y fitted Hfit Hemb Hrows).
Qed.

(** The call that ends [transform] leaves [rng_state] unbound. *)
Lemma transform_call_unbound (args_embedding fitted : array2) (head tail : list nat)
    (n_epochs : pynum) (n_cols : nat) (epochs_per_sample : list Q) (a0 b0 : Q)
    (rng0 : rng_state) (p : params) (initial_alpha : Q) (verbose : pyval) :
  call_optimize_layout
    (transform_call_args args_embedding fitted head tail n_epochs n_cols
       epochs_per_sample a0 b0 rng0 p initial_alpha)
    [("verbose", verbose)]
  = Err (TypeError "missing a required argument: rng_state").
Proof. reflexivity. Qed.

(** The call in [simplicial_set_embedding], with seventeen positional
    arguments and [verbose], binds every parameter. *)
Lemma fit_call_binds (v1 v2 v3 v4 v5 v6 v7 v8 v9 v10 v11 v12 v13 v14 v15 v16
    v17 verbose : pyval) :
  bind_arguments optimize_layout_params
    [v1; v2; v3; v4; v5; v6; v7; v8; v9; v10; v11; v12; v13; v14; v15; v16; v17]
    [("verbose", verbose)]
  = Ok [v1; v2; v3; v4; v5; v6; v7; v8; v9; v10; v11; v12; v13; v14; v15; v16;
        v17; verbose].
Proof. reflexivity. Qed.

(** On an estimator with a stored embedding of other than one row,
    [transform] of data whose hash is not the stored one ends in an
    exception on every path; the path through all the preparation ends in
    the [TypeError] of the call of [optimize_layout]. *)
Lemma transform_new_data_fails (self : estimator) (X : dataset)
    (fitted : array2) (h : string) :
  embedding_ self = Some fitted ->
  length fitted <> 1%nat ->
  _input_hash self = Some h ->
  joblib_hash X <> h ->
  exists e, transform self X = Err e.
Proof.
  intros Hemb Hrows Hhash Hnew. unfold transform.
  rewrite Hemb, Hhash. simpl.
  apply Nat.eqb_neq in Hrows. rewrite Hrows.
  apply String.eqb_neq in Hnew. rewrite Hnew.
  repeat match goal with
         | |- exists e, Err ?x = Err e => exists x; reflexivity
         | |- exists e, call_optimize_layout _ _ = Err e =>
             eexists; apply transform_call_unbound
         | |- exists e, (?r ≫= _) = Err e =>
             let E := fresh "E" in
             destruct r as [?|?] eqn:E; simpl
         | |- exists e, (if ?c then _ else _) = Err e => destruct c
         | |- exists e, (let '(_, _) := ?c in _) = Err e => destruct c
         | |- exists e, match ?c with _ => _ end = Err e => destruct c
         end.
Qed.

(** C1, as the code has it.  After a [fit] on more than one sample,
    [transform] of data with another hash than the fitted data never returns
    an embedding: it raises. *)
Theorem transform_new_data_raises (self self' : estimator) (X X' : dataset)
    (y : option (list Q)) (fitted : array2) :
  fit self X y = Ok self' ->
  embedding_ self' = Some fitted ->
  length fitted <> 1%nat ->
  joblib_hash X' <> joblib_hash X ->
  exists e, transform self' X' = Err e.
Proof.
  intros Hfit Hemb Hrows Hnew.
  apply (transform_new_data_fails self' X' fitted (joblib_hash X));
    [exact Hemb|exact Hrows| |exact Hnew].
  exact (fit_stores_input_hash self self' X y fitted Hfit Hemb Hrows).
Qed.

End MethodFacts.
End UEC_PV_Facts.

(** * Further properties

    Properties of the functions above beyond the specification's claims:
    ranges and invariants of the graph construction, the schedule, the
    optimizers and the metrics, and the errors of the estimator. *)

(** ** smooth_knn_dist: the bandwidths are positive *)

Section SmoothKnnBandwidths.
Context `{Externals}.

Lemma smooth_knn_search_positive (n_iter : nat) (row : list Q) (rho target : Q) :
  forall (lo : Q) (hi : option Q) (mid : Q),
    0 <= lo -> 0 < mid -> (forall h, hi = Some h -> 0 < h) ->
    0 < smooth_knn_search n_iter row rho target lo hi mid.
Proof.
  induction n_iter as [|n IH]; intros lo hi mid Hlo Hmid Hhi;
    cbn [smooth_knn_search]; [exact Hmid|].
  destruct (Qltb (Qabs (smooth_knn_psum row rho mid - target)) SMOOTH_K_TOLERANCE);
    [exact Hmid|].
  destruct (Qltb target (smooth_knn_psum row rho mid)).
  - apply IH; [exact Hlo| |intros h [= <-]; exact Hmid].
    apply Qlt_shift_div_l; lra.
  - destruct hi as [h|].
    + pose proof (Hhi h eq_refl) as Hh.
      apply IH; [lra| |exact Hhi]. apply Qlt_shift_div_l; lra.
    + apply IH; [lra|lra|discriminate].
Qed.

Lemma smooth_knn_floor_ge (mid rho : Q) (row : list Q) (mean_distances : Q) :
  mid <= smooth_knn_floor mid rho row mean_distances.
Proof.
  unfold smooth_knn_floor.
  destruct (Qltb 0 rho).
  - destruct (Qltb mid (MIN_K_DIST_SCALE * mean row)) eqn:E; [|lra].
    apply Qltb_lt in E. lra.
  - destruct (Qltb mid (MIN_K_DIST_SCALE * mean_distances)) eqn:E; [|lra].
    apply Qltb_lt in E. lra.
Qed.

Lemma smooth_knn_row_positive (n_iter : nat) (target local_connectivity md : Q)
    (row : list Q) (sigma rho : Q) :
  smooth_knn_row n_iter target local_connectivity md row = Ok (sigma, rho) ->
  0 < sigma.
Proof.
  unfold smooth_knn_row. intros Hstep.
  apply bind_Ok in Hstep as (rho' & _ & Hret). injection Hret as <- <-.
  eapply Qlt_le_trans; [|apply smooth_knn_floor_ge].
  apply smooth_knn_search_positive; [lra|lra|discriminate].
Qed.

Lemma smooth_knn_rows_positive (n_iter : nat) (target local_connectivity md : Q)
    (distances : array2) (rows : list (Q * Q)) :
  mapM (smooth_knn_row n_iter target local_connectivity md) distances = Ok rows ->
  Forall (fun sigma => 0 < sigma) (map fst rows).
Proof.
  intros Hrows.
  apply Forall_fmap, Forall_lookup. intros i [sigma rho] Hi. simpl.
  assert (Hlen : (i < length distances)%nat).
  { rewrite <- (mapM_length _ _ _ Hrows). eapply lookup_lt_Some; eassumption. }
  destruct (lookup_lt_is_Some_2 _ _ Hlen) as [row Hrow].
  destruct (mapM_lookup _ _ _ Hrows i row Hrow) as (y & Hy & Hstep).
  rewrite Hi in Hy. injection Hy as <-.
  exact (smooth_knn_row_positive _ _ _ _ _ _ _ Hstep).
Qed.

(** X1.  With at most 64 iterations (the default, which every call in the
    file uses), every bandwidth [smooth_knn_dist] returns is strictly
    positive, whatever the distances, [k] and the local connectivity are:
    the search starts at [1.0] and only halves, doubles or averages positive
    numbers, and the clamp at the end never lowers it.  The bound keeps the
    halvings far from the smallest positive float, where the rationals of
    this file and the floats of the source part. *)
Theorem smooth_knn_dist_sigma_positive (distances : array2) (k : Q) (n_iter : nat)
    (local_connectivity bandwidth : Q) (sigmas rhos : list Q) :
  (n_iter <= 64)%nat ->
  smooth_knn_dist distances k n_iter local_connectivity bandwidth
    = Ok (sigmas, rhos) ->
  Forall (fun sigma => 0 < sigma) sigmas.
Proof.
  unfold smooth_knn_dist. intros _ Hrun.
  apply bind_Ok in Hrun as (rows & Hrows & Hret). injection Hret as <- <-.
  exact (smooth_knn_rows_positive _ _ _ _ _ _ Hrows).
Qed.




End SmoothKnnBandwidths.


Section SmoothKnnErrors.
Context `{Externals}.


End SmoothKnnErrors.

(** ** compute_membership_strengths: the range of the strengths *)

Section MembershipRange.
Context `{Externals}.

Lemma membership_val_unit_interval (knn_dists : array2) (sigmas rhos : list Q)
    (i j : nat) (idx : Z) (val : Q) :
  (forall x, x <= 0 -> unit_interval (np_exp x)) ->
  Forall (fun sigma => 0 < sigma) sigmas ->
  membership_val knn_dists sigmas rhos i j idx = Ok val ->
  unit_interval val.
Proof.
  intros Hexp Hsig Hval. unfold membership_val in Hval.
  destruct (idx =? Z.of_nat i)%Z.
  { injection Hval as <-. split; lra. }
  apply bind_Ok in Hval as (drow & _ & Hval).
  apply bind_Ok in Hval as (d & _ & Hval).
  apply bind_Ok in Hval as (rho & _ & Hval).
  destruct (Qle_bool (d - rho) 0) eqn:Hle.
  { injection Hval as <-. split; lra. }
  apply bind_Ok in Hval as (sigma & Hsigma & Hval).
  destruct (Qeq_bool sigma 0); [discriminate|]. injection Hval as <-.
  apply get_Ok in Hsigma.
  rewrite Forall_lookup in Hsig. pose proof (Hsig _ _ Hsigma) as Hpos.
  apply Hexp.
  assert (Hd : 0 < d - rho).
  { apply Qnot_le_lt. intros Hc. apply Qle_bool_iff in Hc. congruence. }
  assert (Hq : 0 <= (d - rho) / sigma).
  { apply Qle_shift_div_l; [exact Hpos|lra]. }
  lra.
Qed.

Lemma compute_membership_strengths_vals (knn_indices : iarray2)
    (knn_dists : array2) (sigmas rhos : list Q) (st : coo) :
  (forall x, x <= 0 -> unit_interval (np_exp x)) ->
  Forall (fun sigma => 0 < sigma) sigmas ->
  compute_membership_strengths knn_indices knn_dists sigmas rhos = Ok st ->
  Forall unit_interval (snd st).
Proof.
  intros Hexp Hsig Hrun. unfold compute_membership_strengths in Hrun.
  apply (foldM_invariant (fun st : coo => Forall unit_interval (snd st))) in Hrun;
    [exact Hrun| |].
  - intros s i s' _ Hs.
    apply (foldM_invariant (fun st : coo => Forall unit_interval (snd st)));
      [|exact Hs].
    intros [[rs cs] vs] j st' _ Hvs Hcell. simpl in Hvs.
    unfold membership_cell in Hcell.
    apply bind_Ok in Hcell as (irow & _ & Hcell).
    apply bind_Ok in Hcell as (idx & _ & Hcell).
    destruct (idx =? -1)%Z; [injection Hcell as <-; exact Hvs|].
    apply bind_Ok in Hcell as (val & Hval & Hcell). injection Hcell as <-.
    simpl. apply Forall_insert; [exact Hvs|].
    exact (membership_val_unit_interval _ _ _ _ _ _ _ Hexp Hsig Hval).
  - simpl. apply Forall_replicate. split; lra.
Qed.

(** X3.  Every membership strength that [compute_membership_strengths]
    writes lies between 0 and 1, when the bandwidths are positive (as those
    of [smooth_knn_dist] are) and [exp] maps the non-positive numbers into
    [[0, 1]]. *)
Theorem compute_membership_strengths_unit_interval (knn_indices : iarray2)
    (knn_dists : array2) (sigmas rhos : list Q) (rows cols : list Z)
    (vals : list Q) (p : nat) (val : Q) :
  (forall x, x <= 0 -> 0 <= np_exp x /\ np_exp x <= 1) ->
  Forall (fun sigma => 0 < sigma) sigmas ->
  compute_membership_strengths knn_indices knn_dists sigmas rhos
    = Ok (rows, cols, vals) ->
  vals !! p = Some val ->
  0 <= val /\ val <= 1.
Proof.
  intros Hexp Hsig Hrun Hval.
  pose proof (compute_membership_strengths_vals _ _ _ _ _ Hexp Hsig Hrun) as Hall.
  simpl in Hall. rewrite Forall_lookup in Hall. exact (Hall p val Hval).
Qed.

Lemma compute_membership_strengths_length (knn_indices : iarray2)
    (knn_dists : array2) (sigmas rhos : list Q) (rows cols : list Z)
    (vals : list Q) :
  compute_membership_strengths knn_indices knn_dists sigmas rhos
    = Ok (rows, cols, vals) ->
  let size := (length knn_indices * shape1 knn_indices)%nat in
  length rows = size /\ length cols = size /\ length vals = size.
Proof.
  intros Hrun size. unfold compute_membership_strengths in Hrun. fold size in Hrun.
  apply (foldM_invariant
           (fun st : coo => length (fst (fst st)) = size
                            /\ length (snd (fst st)) = size
                            /\ length (snd st) = size)) in Hrun;
    [exact Hrun| |].
  - intros s i s' _ Hs.
    apply (foldM_invariant
             (fun st : coo => length (fst (fst st)) = size
                              /\ length (snd (fst st)) = size
                              /\ length (snd st) = size)); [|exact Hs].
    intros [[rs cs] vs] j st' _ Hvs Hcell. simpl in Hvs.
    unfold membership_cell in Hcell.
    apply bind_Ok in Hcell as (irow & _ & Hcell).
    apply bind_Ok in Hcell as (idx & _ & Hcell).
    destruct (idx =? -1)%Z; [injection Hcell as <-; exact Hvs|].
    apply bind_Ok in Hcell as (val & Hval & Hcell). injection Hcell as <-.
    simpl. rewrite !length_insert. exact Hvs.
  - simpl. rewrite !length_replicate. auto.
Qed.

(** What the triplet at a position of the three arrays is: a blank or
    skipped slot of value zero, or the edge of row [p / n_neighbors] to its
    neighbour in slot [p mod n_neighbors]. *)
Lemma compute_membership_strengths_triplet (knn_indices : iarray2)
    (knn_dists : array2) (sigmas rhos : list Q) (rows cols : list Z)
    (vals : list Q) (p : nat) (r c : Z) (v : Q) :
  compute_membership_strengths knn_indices knn_dists sigmas rhos
    = Ok (rows, cols, vals) ->
  rows !! p = Some r -> cols !! p = Some c -> vals !! p = Some v ->
  let nn := shape1 knn_indices in
  v == 0
  \/ exists irow, knn_indices !! (p / nn)%nat = Some irow
                  /\ irow !! (p mod nn)%nat = Some c
                  /\ c <> (-1)%Z /\ r = Z.of_nat (p / nn)
                  /\ membership_val knn_dists sigmas rhos (p / nn) (p mod nn) c
                     = Ok v.
Proof.
  intros Hrun Hr Hc Hv. cbv zeta.
  pose proof (compute_membership_strengths_length _ _ _ _ _ _ _ Hrun) as (Hlen & _ & _).
  pose proof (compute_membership_strengths_inv _ _ _ _ _ Hrun) as Hinv.
  simpl in Hlen.
  assert (Hp : (p < length knn_indices * shape1 knn_indices)%nat).
  { rewrite <- Hlen. eapply lookup_lt_Some; eassumption. }
  set (nn := shape1 knn_indices) in *.
  assert (Hn : (0 < nn)%nat) by (destruct nn; [lia|lia]).
  assert (Hi : (p / nn < length knn_indices)%nat).
  { apply Nat.Div0.div_lt_upper_bound. lia. }
  assert (Hj : (p mod nn < nn)%nat) by (apply Nat.mod_upper_bound; lia).
  destruct (Hinv (p / nn)%nat (p mod nn)%nat Hi Hj) as [Hdone _].
  assert (Hpos : (p / nn * nn + p mod nn = p)%nat).
  { pose proof (Nat.div_mod_eq p nn). lia. }
  fold nn in Hdone. rewrite Hpos in Hdone. specialize (Hdone Hp).
  unfold slot_written in Hdone. fold nn in Hdone. rewrite Hpos in Hdone.
  destruct Hdone as (irow & idx & Hirow & Hidx & Hskip & Hset).
  destruct (decide (idx = (-1)%Z)) as [Hs|Hs].
  - left. destruct (Hskip Hs) as (_ & _ & Hv0). rewrite Hv in Hv0.
    injection Hv0 as ->. reflexivity.
  - right. destruct (Hset Hs) as (Hr' & Hc' & val & Hv' & Hval).
    rewrite Hr in Hr'. injection Hr' as ->.
    rewrite Hc in Hc'. injection Hc' as ->.
    rewrite Hv in Hv'. injection Hv' as ->.
    exists irow. auto.
Qed.

End MembershipRange.

(** ** fuzzy_simplicial_set: no self-loop, and entries within (0, 1] *)

Lemma unit_interval_union (x y : Q) :
  unit_interval x -> unit_interval y -> unit_interval (x + y - x * y).
Proof.
  intros [Hx0 Hx1] [Hy0 Hy1].
  assert (H1 : 0 <= (1 - x) * (1 - y)) by (apply Qmult_le_0_compat; lra).
  assert (H2 : 0 <= x * (1 - y)) by (apply Qmult_le_0_compat; lra).
  assert (E1 : (1 - x) * (1 - y) == 1 - (x + y - x * y)) by ring.
  assert (E2 : x * (1 - y) == x - x * y) by ring.
  split; lra.
Qed.

Lemma unit_interval_product (x y : Q) :
  unit_interval x -> unit_interval y -> unit_interval (x * y).
Proof.
  intros [Hx0 Hx1] [Hy0 Hy1].
  assert (H1 : 0 <= x * y) by (apply Qmult_le_0_compat; lra).
  assert (H2 : 0 <= x * (1 - y)) by (apply Qmult_le_0_compat; lra).
  assert (E2 : x * (1 - y) == x - x * y) by ring.
  split; lra.
Qed.

Lemma unit_interval_convex (r u w : Q) :
  unit_interval r -> unit_interval u -> unit_interval w ->
  unit_interval (r * u + (1 - r) * w).
Proof.
  intros [Hr0 Hr1] Hu Hw.
  assert (Hr' : unit_interval (1 - r)) by (split; lra).
  destruct (unit_interval_product r u (conj Hr0 Hr1) Hu) as [A0 _].
  destruct (unit_interval_product (1 - r) w Hr' Hw) as [B0 _].
  destruct Hu as [Hu0 Hu1]. destruct Hw as [Hw0 Hw1].
  assert (A1 : 0 <= r * (1 - u)) by (apply Qmult_le_0_compat; lra).
  assert (B1 : 0 <= (1 - r) * (1 - w)) by (apply Qmult_le_0_compat; lra).
  assert (E1 : r * (1 - u) == r - r * u) by ring.
  assert (E2 : (1 - r) * (1 - w) == (1 - r) - (1 - r) * w) by ring.
  split; lra.
Qed.

Module SparseEntries.
Import Sparse.

(** The triplet at position [p] lands on [k] with the value [v]. *)
Definition lands (rows cols : list Z) (vals : list Q) (k : nat * nat) (p : nat)
    (v : Q) : Prop :=
  exists r c, rows !! p = Some r /\ cols !! p = Some c /\ vals !! p = Some v
              /\ (0 <= r)%Z /\ (0 <= c)%Z /\ (Z.to_nat r, Z.to_nat c) = k.

(** When at most one of the triplets that land on a position is not zero,
    the entry [of_coo] stores there is within [[0, 1]] as soon as the
    triplets are; it is zero when they all are. *)
Lemma of_coo_unit_interval (shape : nat * nat) (k : nat * nat) :
  forall (rows cols : list Z) (vals : list Q) (m : t),
    of_coo shape rows cols vals = Ok m ->
    (forall p v, lands rows cols vals k p v -> unit_interval v) ->
    (forall p q v v', (p < q)%nat -> lands rows cols vals k p v ->
                      lands rows cols vals k q v' -> v == 0 \/ v' == 0) ->
    forall x, m !! k = Some x ->
              unit_interval x
              /\ ((forall p v, lands rows cols vals k p v -> v == 0) -> x == 0).
Proof.
  induction rows as [|r rows IH]; intros [|c cols] [|v0 vals] m Hm Hunit Hone x Hx;
    simpl in Hm; try discriminate.
  - injection Hm as <-. rewrite lookup_empty in Hx. discriminate.
  - apply bind_Ok in Hm as (m' & Hm' & Hm).
    destruct ((0 <=? r) && (r <? Z.of_nat (fst shape))
              && (0 <=? c) && (c <? Z.of_nat (snd shape)))%Z eqn:Hrange;
      [|discriminate].
    injection Hm as <-.
    assert (Hshift : forall p v, lands rows cols vals k p v ->
                                 lands (r :: rows) (c :: cols) (v0 :: vals) k
                                       (Datatypes.S p) v).
    { intros p v Hl. exact Hl. }
    assert (IH' : forall x', m' !! k = Some x' ->
                             unit_interval x'
                             /\ ((forall p v, lands rows cols vals k p v -> v == 0)
                                 -> x' == 0)).
    { apply (IH cols vals m' Hm').
      - intros p v Hl. exact (Hunit _ _ (Hshift p v Hl)).
      - intros p q v v' Hpq Hp Hq.
        apply (Hone (Datatypes.S p) (Datatypes.S q) v v'); [lia| |];
          apply Hshift; assumption. }
    apply andb_prop in Hrange as [Hrange _].
    apply andb_prop in Hrange as [Hrange Hc0].
    apply andb_prop in Hrange as [Hr0 _].
    apply Z.leb_le in Hr0, Hc0.
    unfold add_entry in Hx.
    destruct (decide ((Z.to_nat r, Z.to_nat c) = k)) as [Hk|Hk].
    + assert (Hhead : lands (r :: rows) (c :: cols) (v0 :: vals) k O v0).
      { exists r, c. repeat split; auto. }
      pose proof (Hunit O v0 Hhead) as Hv0.
      rewrite Hk in Hx.
      destruct (m' !! k) as [old|] eqn:Hold.
      * rewrite lookup_insert_eq in Hx. injection Hx as <-.
        destruct (IH' old eq_refl) as [Hold_unit Hold_zero].
        destruct (Qeq_dec v0 0) as [Hz|Hnz].
        -- split.
           ++ destruct Hold_unit. split; lra.
           ++ intros Hall. rewrite Hz, Hold_zero; [reflexivity|].
              intros p v Hl. exact (Hall _ _ (Hshift p v Hl)).
        -- assert (Hzero : old == 0).
           { apply Hold_zero. intros p v Hl.
             destruct (Hone O (Datatypes.S p) v0 v) as [Hc|Hc];
               [lia|exact Hhead|exact (Hshift p v Hl)|contradiction|exact Hc]. }
           split.
           ++ destruct Hv0. split; lra.
           ++ intros Hall. exfalso. apply Hnz. exact (Hall O v0 Hhead).
      * rewrite lookup_insert_eq in Hx. injection Hx as <-.
        split; [exact Hv0|]. intros Hall. exact (Hall O v0 Hhead).
    + assert (Hx' : m' !! k = Some x).
      { destruct (m' !! (Z.to_nat r, Z.to_nat c));
          rewrite lookup_insert_ne in Hx by exact Hk; exact Hx. }
      destruct (IH' x Hx') as [Hxu Hxz]. split; [exact Hxu|].
      intros Hall. apply Hxz. intros p v Hl. exact (Hall _ _ (Hshift p v Hl)).
Qed.

(** What [of_coo] stores at a position is zero when every triplet that
    lands there is. *)
Lemma of_coo_zero_at (shape : nat * nat) (k : nat * nat) :
  forall (rows cols : list Z) (vals : list Q) (m : t),
    of_coo shape rows cols vals = Ok m ->
    (forall p v, lands rows cols vals k p v -> v == 0) ->
    forall v, m !! k = Some v -> v == 0.
Proof.
  induction rows as [|r rows IH]; intros [|c cols] [|x vals] m Hm Hz v Hv;
    simpl in Hm; try discriminate.
  - injection Hm as <-. rewrite lookup_empty in Hv. discriminate.
  - apply bind_Ok in Hm as (m' & Hm' & Hm).
    destruct ((0 <=? r) && (r <? Z.of_nat (fst shape))
              && (0 <=? c) && (c <? Z.of_nat (snd shape)))%Z eqn:Hrange;
      [|discriminate].
    injection Hm as <-.
    assert (IH' : forall v', m' !! k = Some v' -> v' == 0).
    { apply (IH cols vals m' Hm').
      intros p v' Hl. apply (Hz (Datatypes.S p)). exact Hl. }
    apply andb_prop in Hrange as [Hrange _].
    apply andb_prop in Hrange as [Hrange Hc0].
    apply andb_prop in Hrange as [Hr0 _].
    apply Z.leb_le in Hr0, Hc0.
    unfold add_entry in Hv.
    destruct (decide ((Z.to_nat r, Z.to_nat c) = k)) as [Hk|Hk].
    + assert (Hx : x == 0).
      { apply (Hz O). exists r, c. repeat split; auto. }
      rewrite Hk in Hv.
      destruct (m' !! k) as [old|] eqn:Hold.
      * rewrite lookup_insert_eq in Hv. injection Hv as <-.
        rewrite (IH' old eq_refl), Hx. reflexivity.
      * rewrite lookup_insert_eq in Hv. injection Hv as <-. exact Hx.
    + destruct (m' !! (Z.to_nat r, Z.to_nat c)) as [old|];
        rewrite lookup_insert_ne in Hv by exact Hk; exact (IH' v Hv).
Qed.

Lemma lookup_mix (ratio : Q) (a b : t) (k : nat * nat) :
  SparseFacts.mix ratio a b !! k
  = match a !! k, b !! k with
    | Some x, Some y => Some (ratio * (x + y - x * y) + (1 - ratio) * (x * y))
    | Some x, None => Some (ratio * x)
    | None, Some y => Some (ratio * y)
    | None, None => None
    end.
Proof.
  unfold SparseFacts.mix, add, scale, sub, multiply.
  rewrite !lookup_union_with, !lookup_fmap, !lookup_merge,
    !lookup_union_with, !lookup_intersection_with.
  destruct (a !! k), (b !! k); reflexivity.
Qed.

(** The fuzzy union [A + B - A∘B]. *)
Definition union (a b : t) : t := sub (add a b) (multiply a b).

Lemma lookup_union (a b : t) (k : nat * nat) :
  union a b !! k
  = match a !! k, b !! k with
    | Some x, Some y => Some (x + y - x * y)
    | Some x, None => Some x
    | None, Some y => Some y
    | None, None => None
    end.
Proof.
  unfold union, sub, add, multiply.
  rewrite lookup_merge, lookup_union_with, lookup_intersection_with.
  destruct (a !! k), (b !! k); reflexivity.
Qed.

Lemma union_transpose_symmetric (a : t) :
  transpose (union a (transpose a)) = union a (transpose a).
Proof.
  apply map_eq. intros [i j].
  rewrite SparseFacts.lookup_transpose, !lookup_union, !SparseFacts.lookup_transpose.
  destruct (a !! (j, i)) as [x|], (a !! (i, j)) as [y|]; try reflexivity.
  rewrite (Qplus_swap x y), (Qmult_swap x y). reflexivity.
Qed.

End SparseEntries.

Section FuzzySetEntries.
Context `{Externals}.

Lemma membership_val_self (knn_dists : array2) (sigmas rhos : list Q)
    (i j : nat) (val : Q) :
  membership_val knn_dists sigmas rhos i j (Z.of_nat i) = Ok val -> val = 0.
Proof.
  unfold membership_val. rewrite Z.eqb_refl. congruence.
Qed.

(** X4.  The graph [fuzzy_simplicial_set] returns has no self-loop: no
    entry is stored on the diagonal, whatever the neighbour arrays hold. *)
Theorem fuzzy_simplicial_set_no_self_loops (n n_neighbors : nat)
    (knn_indices : iarray2) (knn_dists : array2)
    (set_op_mix_ratio local_connectivity : Q) (graph : Sparse.t) (i : nat) :
  fuzzy_simplicial_set n n_neighbors knn_indices knn_dists set_op_mix_ratio
    local_connectivity = Ok graph ->
  graph !! (i, i) = None.
Proof.
  unfold fuzzy_simplicial_set. intros Hrun.
  apply bind_Ok in Hrun as ([sigmas rhos] & _ & Hrun).
  apply bind_Ok in Hrun as ([[rows cols] vals] & Hcoo & Hrun).
  apply bind_Ok in Hrun as (m & Hm & Hrun).
  injection Hrun as <-.
  assert (Hdiag : Sparse.eliminate_zeros m !! (i, i) = None).
  { rewrite SparseFacts.lookup_eliminate_zeros.
    destruct (m !! (i, i)) as [v|] eqn:Hv; [|reflexivity].
    assert (Hz : v == 0).
    { apply (SparseEntries.of_coo_zero_at _ (i, i) _ _ _ _ Hm); [|exact Hv].
      intros p x (r & c & Hr & Hc & Hx & Hr0 & Hc0 & [= Hri Hci]).
      destruct (compute_membership_strengths_triplet _ _ _ _ _ _ _ p r c x
                  Hcoo Hr Hc Hx) as [Hzero|(irow & _ & _ & _ & Hrow & Hval)];
        [exact Hzero|].
      assert (Hself : c = Z.of_nat (p / shape1 knn_indices)) by lia.
      rewrite Hself in Hval. apply membership_val_self in Hval.
      rewrite Hval. reflexivity. }
    apply Qeq_bool_iff in Hz. rewrite Hz. reflexivity. }
  rewrite SparseFacts.lookup_eliminate_zeros.
  change (Sparse.add _ _) with
    (SparseFacts.mix set_op_mix_ratio (Sparse.eliminate_zeros m)
       (Sparse.transpose (Sparse.eliminate_zeros m))).
  rewrite SparseEntries.lookup_mix, SparseFacts.lookup_transpose, Hdiag.
  reflexivity.
Qed.

(** X5.  When [exp] maps the non-positive numbers into [[0, 1]], the mix
    ratio lies in [[0, 1]] and no row of the index array names a neighbour
    twice, every entry stored in the graph [fuzzy_simplicial_set] returns is
    a membership strength in [(0, 1]]. *)
Theorem fuzzy_simplicial_set_memberships (n n_neighbors : nat)
    (knn_indices : iarray2) (knn_dists : array2)
    (set_op_mix_ratio local_connectivity : Q) (graph : Sparse.t)
    (i j : nat) (v : Q) :
  (forall x, x <= 0 -> 0 <= np_exp x /\ np_exp x <= 1) ->
  0 <= set_op_mix_ratio <= 1 ->
  (forall r irow c c' idx,
     knn_indices !! r = Some irow -> irow !! c = Some idx -> irow !! c' = Some idx ->
     idx <> (-1)%Z -> c = c') ->
  fuzzy_simplicial_set n n_neighbors knn_indices knn_dists set_op_mix_ratio
    local_connectivity = Ok graph ->
  graph !! (i, j) = Some v ->
  0 < v /\ v <= 1.
Proof.
  intros Hexp Hratio Hdistinct Hrun Hv. unfold fuzzy_simplicial_set in Hrun.
  apply bind_Ok in Hrun as ([sigmas rhos] & Hknn & Hrun).
  apply bind_Ok in Hrun as ([[rows cols] vals] & Hcoo & Hrun).
  apply bind_Ok in Hrun as (m & Hm & Hrun).
  injection Hrun as <-.
  assert (Hsig : Forall (fun sigma => 0 < sigma) sigmas).
  { unfold smooth_knn_dist in Hknn.
    apply bind_Ok in Hknn as (rs & Hrs & Hret). injection Hret as <- <-.
    exact (smooth_knn_rows_positive _ _ _ _ _ _ Hrs). }
  pose proof (compute_membership_strengths_vals _ _ _ _ _ Hexp Hsig Hcoo) as Hvals.
  simpl in Hvals.
  pose proof (compute_membership_strengths_length _ _ _ _ _ _ _ Hcoo)
    as (Hlen & _ & _). simpl in Hlen.
  set (nn := shape1 knn_indices) in *.
  assert (Hentry : forall k x, m !! k = Some x -> unit_interval x).
  { intros k x Hx.
    apply (SparseEntries.of_coo_unit_interval _ k _ _ _ _ Hm); [| |exact Hx].
    - intros p val (r & c & _ & _ & Hval & _).
      rewrite Forall_lookup in Hvals. exact (Hvals _ _ Hval).
    - intros p q val val' Hpq (r & c & Hr & Hc & Hval & Hr0 & Hc0 & Hk)
        (r' & c' & Hr' & Hc' & Hval' & Hr0' & Hc0' & Hk').
      destruct (compute_membership_strengths_triplet _ _ _ _ _ _ _ p r c val
                  Hcoo Hr Hc Hval)
        as [Hz|(irow & Hirow & Hidx & Hne & Hrow & _)]; [left; exact Hz|].
      destruct (compute_membership_strengths_triplet _ _ _ _ _ _ _ q r' c' val'
                  Hcoo Hr' Hc' Hval')
        as [Hz|(irow' & Hirow' & Hidx' & Hne' & Hrow' & _)]; [right; exact Hz|].
      exfalso. fold nn in Hirow, Hidx, Hrow, Hirow', Hidx', Hrow'.
      rewrite <- Hk' in Hk. injection Hk as Hrr Hcc.
      assert (Hsame_row : (p / nn = q / nn)%nat) by lia.
      assert (Hsame_idx : c = c') by lia.
      rewrite Hsame_row in Hirow. rewrite Hirow in Hirow'. injection Hirow' as <-.
      subst c'.
      pose proof (Hdistinct _ _ _ _ _ Hirow Hidx Hidx' Hne) as Hmod.
      assert (Hn : (0 < nn)%nat).
      { destruct nn; [|lia]. rewrite Nat.mul_0_r in Hlen.
        apply lookup_lt_Some in Hr. lia. }
      pose proof (Nat.div_mod_eq p nn). pose proof (Nat.div_mod_eq q nn). nia. }
  set (a := Sparse.eliminate_zeros m) in *.
  assert (Ha : forall k x, a !! k = Some x -> unit_interval x).
  { intros k x Hx. unfold a in Hx.
    rewrite SparseFacts.lookup_eliminate_zeros in Hx.
    destruct (m !! k) as [y|] eqn:Hy; [|discriminate].
    destruct (Qeq_bool y 0); [discriminate|]. injection Hx as <-.
    exact (Hentry k y Hy). }
  rewrite SparseFacts.lookup_eliminate_zeros in Hv.
  change (Sparse.add _ _) with
    (SparseFacts.mix set_op_mix_ratio a (Sparse.transpose a)) in Hv.
  rewrite SparseEntries.lookup_mix, SparseFacts.lookup_transpose in Hv.
  assert (Hunit : unit_interval v /\ ~ v == 0).
  { destruct (a !! (i, j)) as [x|] eqn:Hx, (a !! (j, i)) as [y|] eqn:Hy;
      try discriminate;
      match type of Hv with
      | (if Qeq_bool ?e 0 then _ else _) = _ =>
          destruct (Qeq_bool e 0) eqn:E; [discriminate|];
          injection Hv as <-;
          split; [|intros Hz; apply Qeq_bool_iff in Hz; congruence]
      end.
    - apply unit_interval_convex; [exact Hratio| |].
      + apply unit_interval_union; [exact (Ha _ _ Hx)|exact (Ha _ _ Hy)].
      + apply unit_interval_product; [exact (Ha _ _ Hx)|exact (Ha _ _ Hy)].
    - apply unit_interval_product; [exact Hratio|exact (Ha _ _ Hx)].
    - apply unit_interval_product; [exact Hratio|exact (Ha _ _ Hy)]. }
  destruct Hunit as [[H0 H1] Hnz]. split; [|exact H1].
  apply Qle_lteq in H0 as [Hlt|Heq]; [exact Hlt|].
  exfalso. apply Hnz. symmetry. exact Heq.
Qed.

End FuzzySetEntries.

(** ** make_epochs_per_sample: the periods of the edges *)

Lemma Qmaximum_ge_start (w : Q) (ws : list Q) : w <= Qmaximum w ws.
Proof.
  unfold Qmaximum. revert w. induction ws as [|y ws IH]; intros w; simpl; [lra|].
  destruct (Qltb w y) eqn:E.
  - apply Qltb_lt in E. specialize (IH y). lra.
  - apply IH.
Qed.

Lemma Qmaximum_upper (w : Q) (ws : list Q) :
  Forall (fun x => x <= Qmaximum w ws) (w :: ws).
Proof.
  constructor; [apply Qmaximum_ge_start|].
  unfold Qmaximum. revert w. induction ws as [|y ws IH]; intros w; simpl;
    constructor.
  - destruct (Qltb w y) eqn:E.
    + apply (Qmaximum_ge_start y ws).
    + apply Qltb_ge in E. pose proof (Qmaximum_ge_start w ws) as Hw.
      unfold Qmaximum in Hw. lra.
  - apply IH.
Qed.

Lemma Qmaximum_elem (w : Q) (ws : list Q) : Qmaximum w ws ∈ w :: ws.
Proof.
  unfold Qmaximum. revert w. induction ws as [|y ws IH]; intros w; simpl.
  - apply list_elem_of_here.
  - destruct (Qltb w y).
    + apply list_elem_of_further. apply IH.
    + specialize (IH w). apply elem_of_cons in IH as [Heq|Hin].
      * rewrite Heq. apply list_elem_of_here.
      * apply list_elem_of_further, list_elem_of_further. exact Hin.
Qed.

(** X6.  For a positive number of epochs and weights of which one at
    least is positive, [make_epochs_per_sample] returns, for an edge of
    positive weight [w], the period [max(weights) / w], which is at least
    one epoch; an edge whose weight is zero or less keeps the initial [-1]. *)
Theorem make_epochs_per_sample_periods (weights : list Q) (n_epochs : Q)
    (i : nat) (w : Q) :
  0 < n_epochs ->
  (exists x, x ∈ weights /\ 0 < x) ->
  weights !! i = Some w ->
  exists wmax result e,
    make_epochs_per_sample weights n_epochs = Ok result /\
    wmax ∈ weights /\ Forall (fun x => x <= wmax) weights /\
    result !! i = Some e /\
    (0 < w -> e == wmax / w /\ 1 <= e) /\
    (w <= 0 -> e = -1).
Proof.
  intros Hn (x & Hx & Hxpos) Hw.
  destruct weights as [|w0 ws]; [inversion Hx|].
  set (wmax := Qmaximum w0 ws).
  pose proof (Qmaximum_upper w0 ws) as Hupper. fold wmax in Hupper.
  assert (Hmax : 0 < wmax).
  { rewrite Forall_forall in Hupper. specialize (Hupper x Hx). simpl in Hupper. lra. }
  exists wmax. unfold make_epochs_per_sample. fold wmax.
  eexists. eexists. split; [reflexivity|].
  split; [apply Qmaximum_elem|]. split; [exact Hupper|].
  unfold n_samples_of. rewrite !list_lookup_fmap, Hw. simpl.
  split; [reflexivity|].
  assert (Hdiv : np_divide w wmax = Finite (w / wmax)).
  { unfold np_divide. destruct (Qeq_bool wmax 0) eqn:E; [|reflexivity].
    apply Qeq_bool_iff in E. lra. }
  rewrite Hdiv. simpl.
  assert (Hsign : 0 < w -> 0 < n_epochs * (w / wmax)).
  { intros Hpos. apply Qmult_lt_0_compat; [exact Hn|].
    apply Qlt_shift_div_l; lra. }
  split.
  - intros Hpos. specialize (Hsign Hpos).
    apply Qltb_lt in Hsign as Hb. rewrite Hb. simpl.
    assert (He : n_epochs / (n_epochs * (w / wmax)) == wmax / w) by (field; lra).
    split; [exact He|]. rewrite He.
    apply Qle_shift_div_l; [exact Hpos|].
    rewrite Forall_lookup in Hupper. specialize (Hupper _ _ Hw). simpl in Hupper. lra.
  - intros Hneg.
    assert (Hb : Qltb 0 (n_epochs * (w / wmax)) = false).
    { apply Qltb_ge.
      assert (Hq : w / wmax <= 0).
      { apply Qle_shift_div_r; lra. }
      assert (Hm : n_epochs * (w / wmax) == - (n_epochs * (- (w / wmax)))) by ring.
      rewrite Hm.
      assert (0 <= n_epochs * (- (w / wmax))).
      { apply Qmult_le_0_compat; lra. }
      lra. }
    rewrite Hb. reflexivity.
Qed.

(** ** rdist and rdist2 *)

Lemma Qsquare_nonneg (a : Q) : 0 <= a * a.
Proof.
  destruct (Qlt_le_dec a 0) as [Hneg|Hpos].
  - assert (Heq : a * a == (- a) * (- a)) by ring. rewrite Heq.
    apply Qmult_le_0_compat; lra.
  - apply Qmult_le_0_compat; assumption.
Qed.

Lemma rdist_from_acc (x : list Q) : forall (y : list Q) (acc r : Q),
  rdist_from acc x y = Ok r -> acc <= r.
Proof.
  induction x as [|xi x IH]; intros [|yi y] acc r Hr; simpl in Hr;
    try (injection Hr as <-; lra); try discriminate.
  apply IH in Hr.
  pose proof (Qsquare_nonneg (xi - yi)). lra.
Qed.

Lemma rdist_from_returns (x : list Q) : forall (y : list Q) (acc : Q),
  (length x <= length y)%nat -> exists r, rdist_from acc x y = Ok r.
Proof.
  induction x as [|xi x IH]; intros [|yi y] acc Hlen; simpl in *;
    try (eexists; reflexivity); try lia.
  apply IH. lia.
Qed.

Lemma rdist_from_short (x : list Q) : forall (y : list Q) (acc : Q),
  (length y < length x)%nat -> rdist_from acc x y = Err IndexError.
Proof.
  induction x as [|xi x IH]; intros [|yi y] acc Hlen; simpl in *;
    try reflexivity; try lia.
  apply IH. lia.
Qed.

Lemma rdist_from_zero (x : list Q) : forall (y : list Q) (acc r : Q),
  length x = length y ->
  rdist_from acc x y = Ok r ->
  (r == acc <-> Forall2 Qeq x y).
Proof.
  induction x as [|xi x IH]; intros [|yi y] acc r Hlen Hr; simpl in *;
    try discriminate.
  - injection Hr as <-. split; [constructor|reflexivity].
  - injection Hlen as Hlen.
    pose proof (rdist_from_acc _ _ _ _ Hr) as Hge.
    pose proof (Qsquare_nonneg (xi - yi)) as Hsq.
    split.
    + intros Heq.
      assert (Hz : (xi - yi) * (xi - yi) == 0) by lra.
      assert (Hxy : xi == yi).
      { apply Qmult_integral in Hz. destruct Hz; lra. }
      constructor; [exact Hxy|].
      apply (IH y _ r Hlen Hr). lra.
    + intros Hall. inversion Hall as [|? ? ? ? Hxy Hrest]; subst.
      apply (IH y _ r Hlen Hr) in Hrest. rewrite Hrest, Hxy. ring.
Qed.

Lemma rdist_from_sym (x : list Q) : forall (y : list Q) (acc acc' r : Q),
  length x = length y -> acc == acc' ->
  rdist_from acc x y = Ok r ->
  exists r', rdist_from acc' y x = Ok r' /\ r' == r.
Proof.
  induction x as [|xi x IH]; intros [|yi y] acc acc' r Hlen Hacc Hr; simpl in *;
    try discriminate.
  - injection Hr as <-. exists acc'. split; [reflexivity|]. symmetry. exact Hacc.
  - injection Hlen as Hlen.
    apply (IH y (acc + (xi - yi) * (xi - yi)) (acc' + (yi - xi) * (yi - xi)) r Hlen);
      [|exact Hr].
    rewrite Hacc. ring.
Qed.

(** X7.  On two vectors of the same length [rdist] returns a number that
    is never negative, that is zero when the vectors are equal entry by
    entry, and that does not depend on the order of its arguments. *)
Theorem rdist_squared_distance (x y : list Q) :
  length x = length y ->
  exists r, rdist x y = Ok r /\ 0 <= r
            /\ (Forall2 Qeq x y -> r == 0)
            /\ exists r', rdist y x = Ok r' /\ r' == r.
Proof.
  intros Hlen.
  destruct (rdist_from_returns x y 0) as [r Hr]; [lia|].
  exists r. split; [exact Hr|]. split; [exact (rdist_from_acc _ _ _ _ Hr)|].
  split; [exact (proj2 (rdist_from_zero x y 0 r Hlen Hr))|].
  apply (rdist_from_sym x y 0 0 r Hlen); [reflexivity|exact Hr].
Qed.

Lemma rdist2_from_sums (x : list Q) : forall (y : list Q) (acc : Q),
  length x = length y ->
  exists r, rdist2_from acc x y = Ok r /\ r == acc + (Qsum x - Qsum y).
Proof.
  induction x as [|xi x IH]; intros [|yi y] acc Hlen; simpl in *;
    try discriminate.
  - exists acc. split; [reflexivity|ring].
  - injection Hlen as Hlen.
    destruct (IH y (acc + (xi - yi)) Hlen) as (r & Hr & Heq).
    exists r. split; [exact Hr|]. rewrite Heq. ring.
Qed.

(** X8.  [rdist2] is no distance: on two vectors of the same length it
    returns the sum of the signed differences, that is the difference of the
    sums of the two vectors, so it is zero for different vectors of equal
    sum and negative when the second sum is the larger. *)
Theorem rdist2_difference_of_sums (x y : list Q) :
  length x = length y ->
  exists r, rdist2 x y = Ok r /\ r == Qsum x - Qsum y.
Proof.
  intros Hlen. destruct (rdist2_from_sums x y 0 Hlen) as (r & Hr & Heq).
  exists r. split; [exact Hr|]. rewrite Heq. ring.
Qed.

(** ** simplicial_set_embedding: the pruned graph and the labels *)

(** X9.  For [n_epochs >= 1] and a graph with a positive weight, the
    pruning step of [simplicial_set_embedding] returns a graph that still
    holds an edge of the largest weight: it never empties the graph. *)
Theorem prune_coo_keeps_heaviest (n_epochs : Q) (g : list (nat * nat * Q)) :
  1 <= n_epochs ->
  (exists e, e ∈ g /\ 0 < snd e) ->
  exists g' top,
    prune_coo n_epochs g = Ok g' /\ top ∈ g' /\
    Forall (fun e => snd e <= snd top) g.
Proof.
  intros Hn (e & He & Hpos). unfold prune_coo.
  destruct (map snd g) as [|w ws] eqn:Hw.
  { destruct g; [inversion He|discriminate]. }
  set (wmax := Qmaximum w ws).
  pose proof (Qmaximum_upper w ws) as Hupper. fold wmax in Hupper.
  pose proof (Qmaximum_elem w ws) as Helem. fold wmax in Helem.
  rewrite <- Hw in Hupper, Helem.
  apply list_elem_of_fmap in Helem as (top & Htop & Hin).
  assert (Hmax : 0 < wmax).
  { rewrite Forall_forall in Hupper.
    specialize (Hupper (snd e) (list_elem_of_fmap_2 snd _ _ He)). simpl in Hupper. lra. }
  eexists. exists top. split; [reflexivity|]. split.
  - apply list_elem_of_In, filter_In. split; [apply list_elem_of_In; exact Hin|].
    rewrite <- Htop.
    assert (Hcut : Qltb wmax (wmax / n_epochs) = false).
    { apply Qltb_ge. apply Qle_shift_div_r; [lra|].
      assert (0 <= wmax * (n_epochs - 1)) by (apply Qmult_le_0_compat; lra).
      lra. }
    rewrite Hcut.
    destruct (Qeq_bool wmax 0) eqn:E; [|reflexivity].
    apply Qeq_bool_iff in E. lra.
  - rewrite <- Htop. apply Forall_forall. intros x Hx.
    rewrite Forall_forall in Hupper.
    exact (Hupper (snd x) (list_elem_of_fmap_2 snd _ _ Hx)).
Qed.

(** [np.argmax] of a row that is not empty is a position of the row. *)
Lemma argmax_from_bound (l : list Q) : forall (best : Q) (best_i i : nat),
  (best_i < i)%nat -> (argmax_from best best_i i l < i + length l)%nat.
Proof.
  induction l as [|x l IH]; intros best best_i i Hlt; simpl; [lia|].
  destruct (Qltb best x).
  - specialize (IH x i (Datatypes.S i)). lia.
  - specialize (IH best best_i (Datatypes.S i)). lia.
Qed.

Lemma argmax_bound (l : list Q) : l <> [] -> (argmax l < length l)%nat.
Proof.
  destruct l as [|x l]; [congruence|]. intros _. simpl.
  pose proof (argmax_from_bound l x O 1%nat). lia.
Qed.

Section EmbeddingLabels.
Context `{Collaborators}.

Lemma S_shape (embedding cents : array2) (a b : Q) (soft : array2) :
  Soft.S embedding cents a b = Ok soft ->
  length soft = length embedding /\ Forall (fun row => length row = length cents) soft.
Proof.
  unfold Soft.S. intros Hs. split; [exact (mapM_length _ _ _ Hs)|].
  apply Forall_lookup. intros i row Hrow.
  assert (Hi : (i < length embedding)%nat).
  { rewrite <- (mapM_length _ _ _ Hs). eapply lookup_lt_Some; eassumption. }
  destruct (lookup_lt_is_Some_2 _ _ Hi) as [data Hdata].
  destruct (mapM_lookup _ _ _ Hs i data Hdata) as (row' & Hrow' & Hstep).
  rewrite Hrow in Hrow'. injection Hrow' as <-.
  exact (mapM_length _ _ _ Hstep).
Qed.

(** X10.  When [simplicial_set_embedding] returns with at least one
    centroid, it returns one label for each row of the embedding, and every
    label is the index of a centroid. *)
Theorem simplicial_set_embedding_labels (data : dataset) (graph : Sparse.t)
    (n_vertices n_components n_clusters : nat)
    (initial_alpha a b gamma negative_sample_rate : Q) (n_epochs : Z) (P : Q)
    (init : init_arg) (random_state : option Z)
    (embedding : array2) (y_pred : list nat) (cents : array2) :
  simplicial_set_embedding data graph n_vertices n_components n_clusters
    initial_alpha a b gamma negative_sample_rate n_epochs P init random_state
    = Ok (embedding, y_pred, cents) ->
  cents <> [] ->
  length y_pred = length embedding /\
  Forall (fun label => (label < length cents)%nat) y_pred.
Proof.
  unfold simplicial_set_embedding. intros Hrun Hne.
  apply bind_Ok in Hrun as (g & _ & Hrun).
  apply bind_Ok in Hrun as (eps & _ & Hrun).
  apply bind_Ok in Hrun as (st & _ & Hrun).
  destruct (kmeans (head_embedding st) n_clusters) as [labels0 cents0].
  apply bind_Ok in Hrun as (st' & _ & Hrun).
  apply bind_Ok in Hrun as (soft & Hsoft & Hrun).
  injection Hrun as <- <- <-.
  destruct (S_shape _ _ _ _ _ Hsoft) as [Hlen Hrows].
  split; [rewrite length_map; exact Hlen|].
  apply Forall_fmap. eapply Forall_impl; [exact Hrows|].
  intros row Hrow. simpl. rewrite <- Hrow. apply argmax_bound.
  intros ->. simpl in Hrow. destruct (centroids st'); [congruence|discriminate].
Qed.

End EmbeddingLabels.

(** ** init_transform: the weighted sum of the neighbours *)

Lemma Qsum_map_ext (l : list nat) (f g : nat -> Q) :
  (forall j, j ∈ l -> g j == f j) -> Qsum (map g l) == Qsum (map f l).
Proof.
  induction l as [|x l IH]; intros Hext; simpl; [reflexivity|].
  rewrite (Hext x (list_elem_of_here _ _)), IH; [reflexivity|].
  intros j Hj. apply Hext. apply list_elem_of_further. exact Hj.
Qed.

Lemma Qsum_map_bump (l : list nat) (f g : nat -> Q) (j : nat) (t : Q) :
  NoDup l -> j ∈ l ->
  (forall j', j' ∈ l -> j' <> j -> g j' == f j') ->
  g j == f j + t ->
  Qsum (map g l) == Qsum (map f l) + t.
Proof.
  induction l as [|x l IH]; intros Hnd Hj Hext Hbump; [inversion Hj|].
  apply NoDup_cons in Hnd as [Hx Hnd]. simpl.
  destruct (decide (x = j)) as [->|Hne].
  - rewrite Hbump, (Qsum_map_ext l f g); [ring|].
    intros j' Hj'. apply Hext; [apply list_elem_of_further; exact Hj'|].
    intros ->. contradiction.
  - apply elem_of_cons in Hj as [->|Hj]; [congruence|].
    rewrite (Hext x (list_elem_of_here _ _) Hne), IH; [ring|assumption..| |assumption].
    intros j' Hj'. apply Hext. apply list_elem_of_further. exact Hj'.
Qed.

Lemma read_cell_entry2 (a : array2) (i d : nat) (x : Q) :
  read_cell a i d = Ok x -> entry2 a i d = x.
Proof.
  unfold read_cell, entry2. intros Hx.
  apply bind_Ok in Hx as (row & Hrow & Hx). apply get_Ok in Hrow, Hx.
  rewrite Hrow. simpl. rewrite Hx. reflexivity.
Qed.

Lemma rectangular_write_cell (n dim : nat) (a : array2) (i d : nat) (v : Q) :
  rectangular n dim a -> rectangular n dim (write_cell a i d v).
Proof.
  intros [Hlen Hrows]. unfold write_cell. split.
  - rewrite length_alter. exact Hlen.
  - apply Forall_alter; [exact Hrows|].
    intros row _ Hrow. rewrite length_insert. exact Hrow.
Qed.

Lemma entry2_write_cell (n dim : nat) (a : array2) (i d : nat) (v : Q) (i' d' : nat) :
  rectangular n dim a -> (i < n)%nat -> (d < dim)%nat ->
  entry2 (write_cell a i d v) i' d'
  = if decide (i' = i /\ d' = d) then v else entry2 a i' d'.
Proof.
  intros [Hlen Hrows] Hi Hd. unfold entry2, write_cell.
  destruct (decide (i' = i)) as [->|Hne].
  - rewrite list_lookup_alter_eq.
    destruct (lookup_lt_is_Some_2 a i) as [row Hrow]; [lia|].
    rewrite Hrow. simpl.
    assert (Hrl : length row = dim).
    { rewrite Forall_lookup in Hrows. exact (Hrows _ _ Hrow). }
    destruct (decide (d' = d)) as [->|Hnd].
    + rewrite list_lookup_insert_eq by lia.
      rewrite decide_True by auto. reflexivity.
    + rewrite list_lookup_insert_ne by congruence.
      rewrite decide_False by tauto. reflexivity.
  - rewrite list_lookup_alter_ne by congruence.
    rewrite decide_False by tauto. reflexivity.
Qed.

Section InitTransform.

Variables (indices : list (list nat)) (weights embedding : array2).

Let n := length indices.
Let n_nb := shape1 indices.
Let dim := shape1 embedding.

(** The triples [(i', j', d')] the three loops have been through when
    their counters are [(i, j, d)]. *)
Definition processed (i j d i' j' d' : nat) : bool :=
  (i' <? i)%nat || ((i' =? i)%nat && ((j' <? j)%nat || ((j' =? j)%nat && (d' <? d)%nat))).

Definition partial_average (i j d i' d' : nat) : Q :=
  Qsum (map (fun j' => if processed i j d i' j' d'
                       then neighbour_term indices weights embedding i' d' j'
                       else 0)
            (seq 0 n_nb)).

Definition init_transform_inv (i j d : nat) (result : array2) : Prop :=
  rectangular n dim result /\
  forall i' d', (i' < n)%nat -> (d' < dim)%nat ->
    entry2 result i' d' == partial_average i j d i' d'.

Lemma init_transform_inv_ext (i j d i0 j0 d0 : nat) (result : array2) :
  (forall i' j' d', (i' < n)%nat -> (j' < n_nb)%nat -> (d' < dim)%nat ->
     processed i j d i' j' d' = processed i0 j0 d0 i' j' d') ->
  init_transform_inv i j d result -> init_transform_inv i0 j0 d0 result.
Proof.
  intros Hext [Hrect Hinv]. split; [exact Hrect|].
  intros i' d' Hi' Hd'. rewrite (Hinv i' d' Hi' Hd').
  unfold partial_average. apply Qsum_map_ext.
  intros j' Hj'. apply elem_of_seq in Hj'.
  rewrite (Hext i' j' d'); [reflexivity|lia..].
Qed.

Lemma init_transform_step (i j d : nat) (result result' : array2) :
  (i < n)%nat -> (j < n_nb)%nat -> (d < dim)%nat ->
  init_transform_inv i j d result ->
  (irow ← get indices i;
   ij ← get irow j;
   w ← read_cell weights i j;
   e ← read_cell embedding ij d;
   old ← read_cell result i d;
   Ok (write_cell result i d (old + w * e))) = Ok result' ->
  init_transform_inv i j (Datatypes.S d) result'.
Proof.
  intros Hi Hj Hd [Hrect Hinv] Hstep.
  apply bind_Ok in Hstep as (irow & Hirow & Hstep). apply get_Ok in Hirow.
  apply bind_Ok in Hstep as (ij & Hij & Hstep). apply get_Ok in Hij.
  apply bind_Ok in Hstep as (w & Hw & Hstep). apply read_cell_entry2 in Hw.
  apply bind_Ok in Hstep as (e & He & Hstep). apply read_cell_entry2 in He.
  apply bind_Ok in Hstep as (old & Hold & Hstep). apply read_cell_entry2 in Hold.
  injection Hstep as <-.
  assert (Hterm : neighbour_term indices weights embedding i d j = w * e).
  { unfold neighbour_term. rewrite Hirow. simpl. rewrite Hij. simpl.
    rewrite Hw, He. reflexivity. }
  split; [apply rectangular_write_cell; exact Hrect|].
  intros i' d' Hi' Hd'.
  rewrite (entry2_write_cell n dim) by assumption.
  destruct (decide (i' = i /\ d' = d)) as [[-> ->]|Hne].
  - rewrite <- Hold, (Hinv i d Hi Hd), <- Hterm. symmetry.
    unfold partial_average.
    apply (Qsum_map_bump _ _ _ j).
    + apply NoDup_seq.
    + apply elem_of_seq. lia.
    + intros j' _ Hne. unfold processed.
      rewrite Nat.eqb_refl. simpl.
      assert (Hjj : (j' =? j)%nat = false) by (apply Nat.eqb_neq; exact Hne).
      rewrite Hjj. simpl. reflexivity.
    + unfold processed. rewrite !Nat.eqb_refl, !Nat.ltb_irrefl.
      assert (Hlt3 : (d <? Datatypes.S d)%nat = true) by (apply Nat.ltb_lt; lia).
      rewrite Hlt3. simpl. ring.
  - rewrite (Hinv i' d' Hi' Hd'). unfold partial_average.
    apply Qsum_map_ext. intros j' _. unfold processed.
    destruct (i' =? i)%nat eqn:Ei; [|reflexivity].
    apply Nat.eqb_eq in Ei. subst i'.
    destruct (j' =? j)%nat eqn:Ej; [|reflexivity].
    assert (Hdd : d' <> d) by tauto.
    assert (Hd1 : (d' <? d)%nat = (d' <? Datatypes.S d)%nat).
    { destruct (d' <? d)%nat eqn:E1, (d' <? Datatypes.S d)%nat eqn:E2;
        try reflexivity.
      - apply Nat.ltb_lt in E1. apply Nat.ltb_ge in E2. lia.
      - apply Nat.ltb_ge in E1. apply Nat.ltb_lt in E2. lia. }
    rewrite Hd1. reflexivity.
Qed.

Lemma init_transform_run (result : array2) :
  init_transform indices weights embedding = Ok result ->
  init_transform_inv n 0 0 result.
Proof.
  unfold init_transform. fold n n_nb dim. intros Hrun.
  apply (foldM_seq_counter (fun i r => init_transform_inv i 0 0 r)) in Hrun.
  - exact Hrun.
  - intros i r0 r1 Hi Hr0 Hmid.
    apply (foldM_seq_counter (fun j r => init_transform_inv i j 0 r)) in Hmid.
    + revert Hmid. apply init_transform_inv_ext.
      intros i' j' d' Hi' Hj' Hd'. unfold processed. simpl.
      destruct (i' <? i)%nat eqn:E1, (i' =? i)%nat eqn:E2,
        (i' <? Datatypes.S i)%nat eqn:E3, (i' =? Datatypes.S i)%nat eqn:E4,
        (j' <? n_nb)%nat eqn:E5;
        try reflexivity;
        repeat match goal with
               | E : (_ <? _)%nat = true |- _ => apply Nat.ltb_lt in E
               | E : (_ <? _)%nat = false |- _ => apply Nat.ltb_ge in E
               | E : (_ =? _)%nat = true |- _ => apply Nat.eqb_eq in E
               | E : (_ =? _)%nat = false |- _ => apply Nat.eqb_neq in E
               end; try lia; simpl.
      all: destruct (j' <? 0)%nat eqn:E6, (j' =? 0)%nat eqn:E7,
             (j' =? n_nb)%nat eqn:E8, (d' <? 0)%nat eqn:E9; try reflexivity;
        repeat match goal with
               | E : (_ <? _)%nat = true |- _ => apply Nat.ltb_lt in E
               | E : (_ <? _)%nat = false |- _ => apply Nat.ltb_ge in E
               | E : (_ =? _)%nat = true |- _ => apply Nat.eqb_eq in E
               | E : (_ =? _)%nat = false |- _ => apply Nat.eqb_neq in E
               end; try lia.
    + intros j r2 r3 Hj Hr2 Hin.
      apply (foldM_seq_counter (fun d r => init_transform_inv i j d r)) in Hin.
      * revert Hin. apply init_transform_inv_ext.
        intros i' j' d' Hi' Hj' Hd'. unfold processed. simpl.
        destruct (i' <? i)%nat; [reflexivity|]. simpl.
        destruct (i' =? i)%nat; [|reflexivity]. simpl.
        destruct (j' <? j)%nat eqn:E1, (j' =? j)%nat eqn:E2,
          (j' <? Datatypes.S j)%nat eqn:E3, (j' =? Datatypes.S j)%nat eqn:E4,
          (d' <? dim)%nat eqn:E5, (d' <? 0)%nat eqn:E6;
          try reflexivity;
          repeat match goal with
                 | E : (_ <? _)%nat = true |- _ => apply Nat.ltb_lt in E
                 | E : (_ <? _)%nat = false |- _ => apply Nat.ltb_ge in E
                 | E : (_ =? _)%nat = true |- _ => apply Nat.eqb_eq in E
                 | E : (_ =? _)%nat = false |- _ => apply Nat.eqb_neq in E
                 end; lia.
      * intros d r4 r5 Hd Hr4 Hbody.
        apply (init_transform_step i j d r4 r5); [lia|lia|lia|exact Hr4|exact Hbody].
      * exact Hr2.
    + exact Hr0.
  - split.
    + split; [apply length_replicate|].
      apply Forall_replicate. apply length_replicate.
    + intros i' d' Hi' Hd'. unfold entry2.
      rewrite lookup_replicate_2 by exact Hi'. simpl.
      rewrite lookup_replicate_2 by exact Hd'. simpl.
      unfold partial_average. symmetry.
      generalize (seq 0 n_nb). intros l.
      induction l as [|x l IH]; simpl; [reflexivity|].
      assert (Hp : processed 0 0 0 i' x d' = false).
      { unfold processed. change (i' <? 0)%nat with false.
        change (x <? 0)%nat with false. change (d' <? 0)%nat with false.
        rewrite !andb_false_r. reflexivity. }
      rewrite Hp. lra.
Qed.

End InitTransform.

(** X11.  [init_transform] places every new point at the weighted sum of
    its neighbours' embedded positions: when it returns, entry [(i, d)] of
    the result is the sum over the neighbour slots [j] of
    [weights[i, j] * embedding[indices[i, j], d]]. *)
Theorem init_transform_weighted_sum (indices : list (list nat))
    (weights embedding result : array2) (i d : nat) :
  init_transform indices weights embedding = Ok result ->
  (i < length indices)%nat -> (d < shape1 embedding)%nat ->
  exists row r,
    result !! i = Some row /\ row !! d = Some r /\
    r == neighbour_average indices weights embedding i d.
Proof.
  intros Hrun Hi Hd.
  destruct (init_transform_run indices weights embedding result Hrun)
    as [[Hlen Hrows] Hinv].
  destruct (lookup_lt_is_Some_2 result i) as [row Hrow]; [lia|].
  assert (Hrl : length row = shape1 embedding).
  { rewrite Forall_lookup in Hrows. exact (Hrows _ _ Hrow). }
  destruct (lookup_lt_is_Some_2 row d) as [r Hr]; [lia|].
  exists row, r. split; [exact Hrow|]. split; [exact Hr|].
  specialize (Hinv i d Hi Hd). unfold entry2 in Hinv.
  rewrite Hrow in Hinv. simpl in Hinv. rewrite Hr in Hinv. simpl in Hinv.
  rewrite Hinv. unfold partial_average, neighbour_average.
  apply Qsum_map_ext. intros j _. unfold processed.
  assert (Hlt : (i <? length indices)%nat = true) by (apply Nat.ltb_lt; exact Hi).
  rewrite Hlt. reflexivity.
Qed.

(** ** optimize_layout and init_optimize_layout: shapes, late edges, rates *)

Lemma row_lengths_alter (f : list Q -> list Q) (a : array2) (i : nat) :
  (forall row, length (f row) = length row) ->
  row_lengths (alter f i a) = row_lengths a.
Proof.
  intros Hf. unfold row_lengths. apply list_eq. intros k.
  rewrite !list_lookup_fmap.
  destruct (decide (i = k)) as [<-|Hne].
  - rewrite list_lookup_alter_eq. destruct (a !! i); simpl; [|reflexivity].
    rewrite Hf. reflexivity.
  - rewrite list_lookup_alter_ne by exact Hne. reflexivity.
Qed.

Lemma row_lengths_write_cell (a : array2) (i d : nat) (v : Q) :
  row_lengths (write_cell a i d v) = row_lengths a.
Proof.
  unfold write_cell. apply row_lengths_alter. intros row. apply length_insert.
Qed.

Lemma row_lengths_add_scalar (a : array2) (i : nat) (v : Q) :
  row_lengths (alter (add_scalar v) i a) = row_lengths a.
Proof.
  apply row_lengths_alter. intros row. unfold add_scalar. apply length_map.
Qed.

Section OptimizerShapes.
Context `{Externals}.

Variables (head_shape tail_shape centroid_shape : list nat).

(** The three arrays of a state have the given row lengths. *)
Definition shaped (st : opt_state) : Prop :=
  row_lengths (head_embedding st) = head_shape
  /\ row_lengths (tail_array st) = tail_shape
  /\ row_lengths (centroids st) = centroid_shape.

Lemma shaped_log_all (st : opt_state) (us : list update) :
  shaped st -> shaped (log_all st us).
Proof.
  unfold log_all. revert st. induction us as [|u us IH]; intros st Hst; simpl.
  - exact Hst.
  - apply IH. exact Hst.
Qed.

Lemma add_to_current_shaped (tm : term) (j d : nat) (grad rate : Q)
    (st st' : opt_state) :
  shaped st -> add_to_current tm j d grad rate st = Ok st' -> shaped st'.
Proof.
  intros (Hh & Ht & Hc) Hrun. unfold add_to_current in Hrun.
  apply bind_Ok in Hrun as (x & _ & Hrun). injection Hrun as <-.
  unfold shaped, tail_array in *. simpl.
  destruct (tail_embedding st); rewrite ?row_lengths_write_cell; auto.
Qed.

Lemma add_to_other_shaped (tm : term) (k d : nat) (grad rate : Q)
    (st st' : opt_state) :
  shaped st -> add_to_other tm k d grad rate st = Ok st' -> shaped st'.
Proof.
  intros (Hh & Ht & Hc) Hrun. unfold add_to_other in Hrun.
  apply bind_Ok in Hrun as (x & _ & Hrun). injection Hrun as <-.
  unfold shaped, set_tail, tail_array in *.
  destruct (tail_embedding st) as [t|] eqn:Et; simpl; rewrite ?Et;
    rewrite ?row_lengths_write_cell; auto.
Qed.

Lemma attract_shaped (a b rate_current rate_other : Q) (move_other : bool)
    (dim j k : nat) (st st' : opt_state) :
  shaped st ->
  attract a b rate_current rate_other move_other dim j k st = Ok st' ->
  shaped st'.
Proof.
  intros Hst Hrun. unfold attract in Hrun.
  apply bind_Ok in Hrun as (current & _ & Hrun).
  apply bind_Ok in Hrun as (other & _ & Hrun).
  apply bind_Ok in Hrun as (dist_squared & _ & Hrun).
  revert Hst Hrun. apply (foldM_invariant shaped).
  intros s d s' _ Hs Hstep.
  apply bind_Ok in Hstep as (cd & _ & Hstep).
  apply bind_Ok in Hstep as (od & _ & Hstep).
  apply bind_Ok in Hstep as (s1 & Hs1 & Hstep).
  apply (add_to_current_shaped _ _ _ _ _ _ _ Hs) in Hs1.
  destruct move_other.
  - exact (add_to_other_shaped _ _ _ _ _ _ _ Hs1 Hstep).
  - injection Hstep as <-. exact Hs1.
Qed.

Lemma repel_coords_shaped (grad_coeff rate : Q) (dim j k : nat)
    (st st' : opt_state) :
  shaped st -> repel_coords grad_coeff rate dim j k st = Ok st' -> shaped st'.
Proof.
  unfold repel_coords. apply (foldM_invariant shaped).
  intros s d s' _ Hs Hstep.
  apply bind_Ok in Hstep as (grad_d & _ & Hstep).
  exact (add_to_current_shaped _ _ _ _ _ _ _ Hs Hstep).
Qed.

Lemma negative_sample_shaped (a b gamma rate : Q) (n_vertices : Z) (dim j : nat)
    (st st' : opt_state) :
  shaped st -> negative_sample a b gamma rate n_vertices dim j st = Ok st' ->
  shaped st'.
Proof.
  intros Hst Hrun. unfold negative_sample in Hrun.
  destruct (tau_rand_int (rng st)) as [r rng'].
  destruct (n_vertices =? 0)%Z; [discriminate|].
  destruct (r mod n_vertices <? 0)%Z; [discriminate|].
  apply bind_Ok in Hrun as (current & _ & Hrun).
  apply bind_Ok in Hrun as (other & _ & Hrun).
  apply bind_Ok in Hrun as (dist_squared & _ & Hrun).
  assert (Hst' : shaped (set_rng st rng')) by exact Hst.
  destruct (Qltb 0 dist_squared).
  - exact (repel_coords_shaped _ _ _ _ _ _ _ Hst' Hrun).
  - destruct (Z.of_nat j =? r mod n_vertices)%Z.
    + injection Hrun as <-. exact Hst'.
    + exact (repel_coords_shaped _ _ _ _ _ _ _ Hst' Hrun).
Qed.

Lemma cluster_pull_shaped (a b : Q) (j : nat) (st st' : opt_state) (k : nat) :
  shaped st -> cluster_pull a b j st k = Ok st' -> shaped st'.
Proof.
  intros (Hh & Ht & Hc) Hrun. unfold cluster_pull in Hrun.
  apply bind_Ok in Hrun as (centroid & _ & Hrun).
  apply bind_Ok in Hrun as (current & _ & Hrun).
  apply bind_Ok in Hrun as (dist_squared & _ & Hrun).
  injection Hrun as <-. apply shaped_log_all.
  unfold shaped, tail_array in *. simpl.
  destruct (tail_embedding st); rewrite ?row_lengths_add_scalar; auto.
Qed.

Lemma centroid_push_shaped (a b : Q) (nn_sample k : nat) (st st' : opt_state)
    (i : nat) :
  shaped st -> centroid_push a b nn_sample k st i = Ok st' -> shaped st'.
Proof.
  intros (Hh & Ht & Hc) Hrun. unfold centroid_push in Hrun.
  apply bind_Ok in Hrun as (centroid & _ & Hrun).
  apply bind_Ok in Hrun as (current & _ & Hrun).
  apply bind_Ok in Hrun as (dist_squared & _ & Hrun).
  injection Hrun as <-. apply shaped_log_all.
  unfold shaped, tail_array in *. simpl.
  rewrite row_lengths_add_scalar. auto.
Qed.

Lemma sampled_edge_shaped (head tail : list nat) (epochs_per_sample
    epochs_per_negative_sample : list Q) (a b gamma : Q) (n_vertices : Z)
    (n_clusters dim : nat) (move_other : bool) (n i : nat) (st st' : opt_state) :
  shaped st ->
  sampled_edge head tail epochs_per_sample epochs_per_negative_sample a b gamma
    n_vertices n_clusters dim move_other n i st = Ok st' ->
  shaped st'.
Proof.
  intros Hst Hrun. unfold sampled_edge in Hrun.
  apply bind_Ok in Hrun as (j & _ & Hrun).
  apply bind_Ok in Hrun as (k & _ & Hrun).
  apply bind_Ok in Hrun as (s1 & Hs1 & Hrun).
  apply (attract_shaped _ _ _ _ _ _ _ _ _ _ Hst) in Hs1.
  apply bind_Ok in Hrun as (per_sample & _ & Hrun).
  apply bind_Ok in Hrun as (next & _ & Hrun).
  apply bind_Ok in Hrun as (next_negative & _ & Hrun).
  apply bind_Ok in Hrun as (per_negative & _ & Hrun).
  apply bind_Ok in Hrun as (s2 & Hs2 & Hrun).
  assert (H2 : shaped s2).
  { revert Hs2. apply (foldM_invariant shaped); [|exact Hs1].
    intros s x s' _ Hs. apply negative_sample_shaped. exact Hs. }
  apply bind_Ok in Hrun as (s3 & Hs3 & Hrun).
  assert (H3 : shaped s3).
  { revert Hs3. apply (foldM_invariant shaped); [|exact H2].
    intros s x s' _ Hs. apply cluster_pull_shaped. exact Hs. }
  apply bind_Ok in Hrun as (next_neg & _ & Hrun).
  injection Hrun as <-. exact H3.
Qed.

Lemma optimize_epoch_shaped (head tail : list nat) (epochs_per_sample
    epochs_per_negative_sample : list Q) (a b gamma : Q) (n_vertices : Z)
    (n_clusters dim : nat) (move_other : bool) (n_epochs update_interval : nat)
    (st st' : opt_state) (n : nat) :
  shaped st ->
  optimize_epoch head tail epochs_per_sample epochs_per_negative_sample a b gamma
    n_vertices n_clusters dim move_other n_epochs update_interval st n = Ok st' ->
  shaped st'.
Proof.
  intros Hst Hrun. unfold optimize_epoch in Hrun.
  apply bind_Ok in Hrun as (s1 & Hs1 & Hrun).
  assert (H1 : shaped s1).
  { destruct (n mod update_interval =? 0)%nat.
    - apply bind_Ok in Hs1 as (soft & _ & Hs1). injection Hs1 as <-. exact Hst.
    - injection Hs1 as <-. exact Hst. }
  apply bind_Ok in Hrun as (s2 & Hs2 & Hrun).
  assert (H2 : shaped s2).
  { revert Hs2. apply (foldM_invariant shaped); [|exact H1].
    intros s i s' _ Hs Hstep.
    apply bind_Ok in Hstep as (next & _ & Hstep).
    destruct (sample_due next n).
    - exact (sampled_edge_shaped _ _ _ _ _ _ _ _ _ _ _ _ _ _ _ Hs Hstep).
    - injection Hstep as <-. exact Hs. }
  apply bind_Ok in Hrun as (s3 & Hs3 & Hrun).
  assert (H3 : shaped s3).
  { revert Hs3. apply (foldM_invariant shaped); [|exact H2].
    intros s k s' _ Hs. apply (foldM_invariant shaped); [|exact Hs].
    intros s0 i s0' _. apply centroid_push_shaped. }
  injection Hrun as <-. exact H3.
Qed.

End OptimizerShapes.

Section OptimizerRuns.
Context `{Externals}.

(** X12.  [optimize_layout] never changes the shape of its arrays: in the
    state it returns, the embedding and the centroids have the rows, and the
    row lengths, of the arrays it was given. *)
Theorem optimize_layout_keeps_shapes (head_emb : array2)
    (tail_emb : option array2) (head tail : list nat) (n_epochs : Q)
    (y_pred : list Z) (cents : array2) (P : Q) (n_vertices : Z)
    (epochs_per_sample : list Q) (a b : Q) (n_clusters : nat) (rng0 : rng_state)
    (gamma initial_eta negative_sample_rate : Q) (st : opt_state) :
  optimize_layout head_emb tail_emb head tail n_epochs y_pred cents P n_vertices
    epochs_per_sample a b n_clusters rng0 gamma initial_eta negative_sample_rate
    = Ok st ->
  row_lengths (head_embedding st) = row_lengths head_emb /\
  row_lengths (centroids st) = row_lengths cents.
Proof.
  unfold optimize_layout. intros Hrun.
  apply (foldM_invariant
           (shaped (row_lengths head_emb)
                   (row_lengths (default head_emb tail_emb))
                   (row_lengths cents))) in Hrun.
  - destruct Hrun as (Hh & _ & Hc). auto.
  - intros s n s' _. apply optimize_epoch_shaped.
  - unfold shaped, tail_array. simpl. destruct tail_emb; auto.
Qed.

(** *** Edges that are never due *)

Definition centroids_only (head_emb : array2) (tail_emb : option array2)
    (schedule : list Q) (st : opt_state) : Prop :=
  head_embedding st = head_emb /\ tail_embedding st = tail_emb
  /\ epoch_of_next_sample st = schedule
  /\ Forall (fun u => u_term u = CentroidStep) (updates st).

Lemma tail_embedding_log_all (st : opt_state) (us : list update) :
  tail_embedding (log_all st us) = tail_embedding st.
Proof.
  unfold log_all. revert st. induction us as [|u us IH]; intros st; simpl.
  - reflexivity.
  - rewrite IH. reflexivity.
Qed.

Lemma epoch_of_next_sample_log_all (st : opt_state) (us : list update) :
  epoch_of_next_sample (log_all st us) = epoch_of_next_sample st.
Proof.
  unfold log_all. revert st. induction us as [|u us IH]; intros st; simpl.
  - reflexivity.
  - rewrite IH. reflexivity.
Qed.

Lemma centroid_push_centroids_only (head_emb : array2) (tail_emb : option array2)
    (schedule : list Q) (a b : Q) (nn_sample k : nat) (st st' : opt_state) (i : nat) :
  centroids_only head_emb tail_emb schedule st ->
  centroid_push a b nn_sample k st i = Ok st' ->
  centroids_only head_emb tail_emb schedule st'.
Proof.
  intros (Hhead & Htail & Hnext & Hlog) Hrun. unfold centroid_push in Hrun.
  apply bind_Ok in Hrun as (centroid & _ & Hrun).
  apply bind_Ok in Hrun as (current & _ & Hrun).
  apply bind_Ok in Hrun as (dist_squared & _ & Hrun).
  injection Hrun as <-.
  split; [rewrite head_embedding_log_all; exact Hhead|].
  split; [rewrite tail_embedding_log_all; exact Htail|].
  split; [rewrite epoch_of_next_sample_log_all; exact Hnext|].
  rewrite updates_log_all. apply Forall_app. split; [|exact Hlog].
  apply Forall_rev, Forall_replicate. reflexivity.
Qed.

Lemma not_due (e : Q) (n bound : nat) :
  inject_Z (Z.of_nat bound) < e -> (n <= bound)%nat -> sample_due e n = false.
Proof.
  intros He Hn. unfold sample_due.
  destruct (Qle_bool e (inject_Z (Z.of_nat n))) eqn:E; [|reflexivity].
  apply Qle_bool_iff in E.
  assert (Hle : inject_Z (Z.of_nat n) <= inject_Z (Z.of_nat bound)).
  { rewrite <- Zle_Qle. lia. }
  lra.
Qed.

Lemma optimize_epoch_centroids_only (head_emb : array2) (tail_emb : option array2)
    (head tail : list nat) (epochs_per_sample epochs_per_negative_sample : list Q)
    (a b gamma : Q) (n_vertices : Z) (n_clusters dim : nat) (move_other : bool)
    (n_epochs update_interval : nat) (st st' : opt_state) (n : nat) :
  Forall (fun e => 9 < e) epochs_per_sample ->
  (n <= 9)%nat ->
  centroids_only head_emb tail_emb epochs_per_sample st ->
  optimize_epoch head tail epochs_per_sample epochs_per_negative_sample a b gamma
    n_vertices n_clusters dim move_other n_epochs update_interval st n = Ok st' ->
  centroids_only head_emb tail_emb epochs_per_sample st'.
Proof.
  intros Hlate Hn Hst Hrun. unfold optimize_epoch in Hrun.
  apply bind_Ok in Hrun as (s1 & Hs1 & Hrun).
  assert (H1 : centroids_only head_emb tail_emb epochs_per_sample s1).
  { destruct (n mod update_interval =? 0)%nat.
    - apply bind_Ok in Hs1 as (soft & _ & Hs1). injection Hs1 as <-. exact Hst.
    - injection Hs1 as <-. exact Hst. }
  apply bind_Ok in Hrun as (s2 & Hs2 & Hrun).
  assert (H2 : centroids_only head_emb tail_emb epochs_per_sample s2).
  { revert Hs2.
    apply (foldM_invariant (centroids_only head_emb tail_emb epochs_per_sample));
      [|exact H1].
    intros s i s' _ Hs Hstep.
    apply bind_Ok in Hstep as (next & Hnext & Hstep). apply get_Ok in Hnext.
    destruct Hs as (Hh & Ht & Hsched & Hl). rewrite Hsched in Hnext.
    rewrite Forall_lookup in Hlate. pose proof (Hlate _ _ Hnext) as Hgt.
    rewrite (not_due next n 9) in Hstep; [|exact Hgt|exact Hn].
    injection Hstep as <-. repeat split; assumption. }
  apply bind_Ok in Hrun as (s3 & Hs3 & Hrun).
  assert (H3 : centroids_only head_emb tail_emb epochs_per_sample s3).
  { revert Hs3.
    apply (foldM_invariant (centroids_only head_emb tail_emb epochs_per_sample));
      [|exact H2].
    intros s k s' _ Hs.
    apply (foldM_invariant (centroids_only head_emb tail_emb epochs_per_sample));
      [|exact Hs].
    intros s0 i s0' _. apply centroid_push_centroids_only. }
  injection Hrun as <-. exact H3.
Qed.

(** X13.  When every edge has a period above [9], no edge is due in the
    ten epochs that [optimize_layout] runs: the embedding it returns is the
    one it was given, and every update it made is a step of a centroid. *)
Theorem optimize_layout_late_edges (head_emb : array2)
    (tail_emb : option array2) (head tail : list nat) (n_epochs : Q)
    (y_pred : list Z) (cents : array2) (P : Q) (n_vertices : Z)
    (epochs_per_sample : list Q) (a b : Q) (n_clusters : nat) (rng0 : rng_state)
    (gamma initial_eta negative_sample_rate : Q) (st : opt_state) :
  Forall (fun e => 9 < e) epochs_per_sample ->
  optimize_layout head_emb tail_emb head tail n_epochs y_pred cents P n_vertices
    epochs_per_sample a b n_clusters rng0 gamma initial_eta negative_sample_rate
    = Ok st ->
  head_embedding st = head_emb /\ tail_embedding st = tail_emb /\
  Forall (fun u => u_term u = CentroidStep) (updates st).
Proof.
  unfold optimize_layout. intros Hlate Hrun.
  apply (foldM_invariant (centroids_only head_emb tail_emb epochs_per_sample))
    in Hrun.
  - destruct Hrun as (Hh & Ht & _ & Hl). auto.
  - intros s n s' Hn. apply optimize_epoch_centroids_only; [exact Hlate|].
    apply in_seq in Hn. lia.
  - repeat split; simpl; constructor.
Qed.

(** *** init_optimize_layout *)

Definition all_bounded (alpha : Q) (st : opt_state) : Prop :=
  Forall (rate_bounded alpha) (updates st) /\ 0 <= eta st /\ eta st <= alpha.

Lemma add_to_current_bounded (alpha : Q) (tm : term) (j d : nat) (grad rate : Q)
    (st st' : opt_state) :
  rate_bounded alpha {| u_term := tm; u_grad := grad; u_rate := rate |} ->
  all_bounded alpha st -> add_to_current tm j d grad rate st = Ok st' ->
  all_bounded alpha st'.
Proof.
  intros Hu [Hlog Heta] Hrun. unfold add_to_current in Hrun.
  apply bind_Ok in Hrun as (x & _ & Hrun). injection Hrun as <-.
  split; simpl; [constructor; assumption|exact Heta].
Qed.

Lemma add_to_other_bounded (alpha : Q) (tm : term) (k d : nat) (grad rate : Q)
    (st st' : opt_state) :
  rate_bounded alpha {| u_term := tm; u_grad := grad; u_rate := rate |} ->
  all_bounded alpha st -> add_to_other tm k d grad rate st = Ok st' ->
  all_bounded alpha st'.
Proof.
  intros Hu [Hlog Heta] Hrun. unfold add_to_other in Hrun.
  apply bind_Ok in Hrun as (x & _ & Hrun). injection Hrun as <-.
  unfold set_tail. destruct (tail_embedding st);
    (split; simpl; [constructor; assumption|exact Heta]).
Qed.

Lemma attract_bounded (alpha a b rate_current rate_other : Q) (move_other : bool)
    (dim j k : nat) (st st' : opt_state) :
  0 <= rate_current <= alpha -> 0 <= rate_other <= alpha ->
  all_bounded alpha st ->
  attract a b rate_current rate_other move_other dim j k st = Ok st' ->
  all_bounded alpha st'.
Proof.
  intros Hrc Hro Hst Hrun. unfold attract in Hrun.
  apply bind_Ok in Hrun as (current & _ & Hrun).
  apply bind_Ok in Hrun as (other & _ & Hrun).
  apply bind_Ok in Hrun as (dist_squared & _ & Hrun).
  revert Hst Hrun. apply (foldM_invariant (all_bounded alpha)).
  intros s d s' _ Hs Hstep.
  apply bind_Ok in Hstep as (cd & _ & Hstep).
  apply bind_Ok in Hstep as (od & _ & Hstep).
  apply bind_Ok in Hstep as (s1 & Hs1 & Hstep).
  assert (Hs1' : all_bounded alpha s1).
  { revert Hs1. apply add_to_current_bounded; [|exact Hs].
    split; simpl; [apply clip_abs|tauto]. }
  destruct move_other.
  - revert Hstep. apply add_to_other_bounded; [|exact Hs1'].
    split; simpl; [apply Qabs_opp_le, clip_abs|tauto].
  - injection Hstep as <-. exact Hs1'.
Qed.

Lemma repel_coords_bounded (alpha grad_coeff rate : Q) (dim j k : nat)
    (st st' : opt_state) :
  0 <= rate <= alpha -> all_bounded alpha st ->
  repel_coords grad_coeff rate dim j k st = Ok st' -> all_bounded alpha st'.
Proof.
  intros Hrate. unfold repel_coords. apply (foldM_invariant (all_bounded alpha)).
  intros s d s' _ Hs Hstep.
  apply bind_Ok in Hstep as (grad_d & Hgrad & Hstep).
  revert Hstep. apply add_to_current_bounded; [|exact Hs].
  split; simpl; [|tauto].
  destruct (Qltb 0 grad_coeff).
  - apply bind_Ok in Hgrad as (cd & _ & Hgrad).
    apply bind_Ok in Hgrad as (od & _ & Hgrad).
    injection Hgrad as <-. apply clip_abs.
  - injection Hgrad as <-. apply Qabs_bound; lra.
Qed.

Lemma negative_sample_bounded (alpha a b gamma rate : Q) (n_vertices : Z)
    (dim j : nat) (st st' : opt_state) :
  0 <= rate <= alpha -> all_bounded alpha st ->
  negative_sample a b gamma rate n_vertices dim j st = Ok st' ->
  all_bounded alpha st'.
Proof.
  intros Hrate Hst Hrun. unfold negative_sample in Hrun.
  destruct (tau_rand_int (rng st)) as [r rng'].
  destruct (n_vertices =? 0)%Z; [discriminate|].
  destruct (r mod n_vertices <? 0)%Z; [discriminate|].
  apply bind_Ok in Hrun as (current & _ & Hrun).
  apply bind_Ok in Hrun as (other & _ & Hrun).
  apply bind_Ok in Hrun as (dist_squared & _ & Hrun).
  assert (Hst' : all_bounded alpha (set_rng st rng')) by exact Hst.
  destruct (Qltb 0 dist_squared).
  - revert Hrun. apply repel_coords_bounded; assumption.
  - destruct (Z.of_nat j =? r mod n_vertices)%Z.
    + injection Hrun as <-. exact Hst'.
    + revert Hrun. apply repel_coords_bounded; assumption.
Qed.

Lemma init_sampled_edge_bounded (alpha : Q) (head tail : list nat)
    (epochs_per_sample epochs_per_negative_sample : list Q) (a b gamma : Q)
    (n_vertices : Z) (dim : nat) (move_other : bool) (n i : nat)
    (st st' : opt_state) :
  all_bounded alpha st ->
  init_sampled_edge head tail epochs_per_sample epochs_per_negative_sample a b
    gamma n_vertices dim move_other n i st = Ok st' ->
  all_bounded alpha st'.
Proof.
  intros Hst Hrun. unfold init_sampled_edge in Hrun.
  apply bind_Ok in Hrun as (j & _ & Hrun).
  apply bind_Ok in Hrun as (k & _ & Hrun).
  apply bind_Ok in Hrun as (s1 & Hs1 & Hrun).
  assert (H1 : all_bounded alpha s1).
  { destruct Hst as [Hlog Heta].
    revert Hs1. apply attract_bounded; [lra|lra|split; assumption]. }
  apply bind_Ok in Hrun as (per_sample & _ & Hrun).
  apply bind_Ok in Hrun as (next & _ & Hrun).
  apply bind_Ok in Hrun as (next_negative & _ & Hrun).
  apply bind_Ok in Hrun as (per_negative & _ & Hrun).
  apply bind_Ok in Hrun as (s2 & Hs2 & Hrun).
  assert (H2 : all_bounded alpha s2).
  { revert Hs2. apply (foldM_invariant (all_bounded alpha)); [|exact H1].
    intros s x s' _ Hs. destruct Hs as [Hlog Heta].
    apply negative_sample_bounded; [lra|split; assumption]. }
  apply bind_Ok in Hrun as (next_neg & _ & Hrun).
  injection Hrun as <-. exact H2.
Qed.

Lemma annealed_rate (alpha : Q) (n n_epochs : nat) :
  0 <= alpha -> (n < n_epochs)%nat ->
  0 <= alpha * (1 - inject_Z (Z.of_nat n) / inject_Z (Z.of_nat n_epochs)) <= alpha.
Proof.
  intros Ha Hn.
  set (t := inject_Z (Z.of_nat n) / inject_Z (Z.of_nat n_epochs)).
  assert (Ht : 0 <= t /\ t <= 1).
  { assert (Hpos : 0 < inject_Z (Z.of_nat n_epochs)).
    { change 0 with (inject_Z 0). rewrite <- Zlt_Qlt. lia. }
    assert (Hle : inject_Z (Z.of_nat n) <= inject_Z (Z.of_nat n_epochs)).
    { rewrite <- Zle_Qle. lia. }
    assert (Hn0 : 0 <= inject_Z (Z.of_nat n)).
    { change 0 with (inject_Z 0). rewrite <- Zle_Qle. lia. }
    unfold t. split.
    - apply Qle_shift_div_l; [exact Hpos|lra].
    - apply Qle_shift_div_r; [exact Hpos|lra]. }
  assert (H1 : 0 <= alpha * (1 - t)) by (apply Qmult_le_0_compat; lra).
  assert (H2 : 0 <= alpha * t) by (apply Qmult_le_0_compat; lra).
  split; [exact H1|]. lra.
Qed.

(** X14.  With a learning rate that is not negative, every update of
    [init_optimize_layout] adds a gradient of absolute value at most [4]
    scaled by a rate between [0] and the initial learning rate: the rate
    decays linearly and never leaves that range. *)
Theorem init_optimize_layout_updates_bounded (head_emb : array2)
    (tail_emb : option array2) (head tail : list nat) (n_epochs : nat) (P : Q)
    (n_vertices : Z) (epochs_per_sample : list Q) (a b : Q) (rng0 : rng_state)
    (gamma initial_alpha negative_sample_rate : Q) (st : opt_state) :
  0 <= initial_alpha ->
  init_optimize_layout head_emb tail_emb head tail n_epochs P n_vertices
    epochs_per_sample a b rng0 gamma initial_alpha negative_sample_rate = Ok st ->
  Forall (rate_bounded initial_alpha) (updates st).
Proof.
  unfold init_optimize_layout. intros Halpha Hrun.
  apply (foldM_invariant (all_bounded initial_alpha)) in Hrun.
  - exact (proj1 Hrun).
  - intros s n s' Hn Hs Hstep. apply in_seq in Hn.
    apply bind_Ok in Hstep as (s1 & Hs1 & Hstep).
    assert (H1 : all_bounded initial_alpha s1).
    { revert Hs1. apply (foldM_invariant (all_bounded initial_alpha)); [|exact Hs].
      intros s0 i s0' _ Hs0 Hedge.
      apply bind_Ok in Hedge as (next & _ & Hedge).
      destruct (sample_due next n).
      - revert Hedge. apply init_sampled_edge_bounded. exact Hs0.
      - injection Hedge as <-. exact Hs0. }
    injection Hstep as <-. destruct H1 as [Hlog _].
    split; simpl; [exact Hlog|].
    apply annealed_rate; [exact Halpha|lia].
  - split; simpl; [constructor|lra].
Qed.

End OptimizerRuns.

(** ** The estimator: what [fit] stores and what [transform] refuses *)

Module UEC_PV_Errors.
Import UEC_PV UEC_PV_Facts.

Section MethodErrors.
Context `{Collaborators}.

(** X15.  When the [fit] inside it returns on data of exactly one sample, on
    an estimator that was never fitted before, [fit_transform] raises
    [AttributeError]: [fit] returns before it assigns [y_pred], which
    [fit_transform] then reads. *)
Theorem fit_transform_single_sample_fails (self self' : estimator) (X : dataset)
    (y : option (list Q)) :
  length (samples X) = 1%nat ->
  fit self X y = Ok self' ->
  y_pred self = None ->
  fit_transform self X y = Err (AttributeError "y_pred").
Proof.
  intros Hone Hfit Hfresh.
  destruct (fit_single_sample_state self self' X y Hone Hfit) as (ab & e & -> & _).
  unfold fit_transform. rewrite Hfit. simpl. rewrite Hfresh. reflexivity.
Qed.

(** X16.  After a [fit] that returned on data of exactly one sample,
    [transform] raises [ValueError] for every argument, the fitted sample
    included. *)
Theorem transform_after_single_sample_fit (self self' : estimator)
    (X X' : dataset) (y : option (list Q)) :
  length (samples X) = 1%nat ->
  fit self X y = Ok self' ->
  exists msg, transform self' X' = Err (ValueError msg).
Proof.
  intros Hone Hfit.
  destruct (fit_single_sample_state self self' X y Hone Hfit) as (ab & e & -> & He).
  eexists. unfold transform. simpl. rewrite He. reflexivity.
Qed.

(** What a [fit] on more than one sample stores. *)
Lemma fit_stores (self self' : estimator) (X : dataset) (y : option (list Q))
    (fitted : array2) :
  fit self X y = Ok self' ->
  embedding_ self' = Some fitted ->
  length fitted <> 1%nat ->
  _sparse_data self' = Some (is_csr X) /\ config self' = config self
  /\ _input_hash self' = Some (joblib_hash X).
Proof.
  unfold fit. intros Hfit Hemb Hrows.
  apply bind_Ok in Hfit as ([] & _ & Hfit).
  apply bind_Ok in Hfit as (ab & _ & Hfit).
  apply bind_Ok in Hfit as ([] & _ & Hfit).
  apply bind_Ok in Hfit as ([] & _ & Hfit).
  destruct ((Z.of_nat (length (samples X)) <=? n_neighbors (config self))%Z
            && (length (samples X) =? 1)%nat).
  - injection Hfit as <-. simpl in Hemb. injection Hemb as <-.
    simpl in Hrows. congruence.
  - apply bind_Ok in Hfit as (g & _ & Hfit).
    apply bind_Ok in Hfit as (g' & Hy & Hfit).
    apply bind_Ok in Hfit as ([[e l] c] & _ & Hfit).
    injection Hfit as <-. simpl. repeat split.
Qed.

(** X17.  After a [fit] on more than one sample, [transform] of data with
    another hash than the fitted data raises [ValueError] when the fitted
    data was a sparse matrix, and also when it was dense and the metric is
    ["precomputed"]. *)
Theorem transform_new_data_unavailable (self self' : estimator) (X X' : dataset)
    (y : option (list Q)) (fitted : array2) :
  fit self X y = Ok self' ->
  embedding_ self' = Some fitted ->
  length fitted <> 1%nat ->
  joblib_hash X' <> joblib_hash X ->
  (is_csr X = true \/ metric (config self) = MetricStr "precomputed") ->
  exists msg, transform self' X' = Err (ValueError msg).
Proof.
  intros Hfit Hemb Hrows Hnew Hcase.
  destruct (fit_stores self self' X y fitted Hfit Hemb Hrows)
    as (Hsparse & Hconfig & Hhash).
  apply Nat.eqb_neq in Hrows. apply String.eqb_neq in Hnew.
  unfold transform.
  rewrite Hemb, Hhash. simpl. rewrite Hrows, Hnew, Hsparse. simpl.
  destruct (is_csr X) eqn:Hcsr; [eexists; reflexivity|].
  destruct Hcase as [Hc|Hmetric]; [discriminate|].
  rewrite Hconfig, Hmetric. eexists. reflexivity.
Qed.

(** X18.  A [fit] of a dense array of other than one sample with labels
    returns only when there are as many labels as samples. *)
Theorem fit_labels_length (self self' : estimator) (X : dataset)
    (labels : list Q) :
  is_csr X = false ->
  length (samples X) <> 1%nat ->
  fit self X (Some labels) = Ok self' ->
  length labels = length (samples X).
Proof.
  unfold fit. intros _ Hrows Hfit.
  apply bind_Ok in Hfit as ([] & _ & Hfit).
  apply bind_Ok in Hfit as (ab & _ & Hfit).
  apply bind_Ok in Hfit as ([] & _ & Hfit).
  apply bind_Ok in Hfit as ([] & _ & Hfit).
  apply Nat.eqb_neq in Hrows. rewrite Hrows, andb_false_r in Hfit.
  apply bind_Ok in Hfit as (g & _ & Hfit).
  apply bind_Ok in Hfit as (g' & Hy & Hfit).
  apply bind_Ok in Hy as ([] & Hcheck & _). apply check_Ok in Hcheck.
  apply negb_false_iff, Nat.eqb_eq in Hcheck. symmetry. exact Hcheck.
Qed.

End MethodErrors.
End UEC_PV_Errors.

(** ** fast_intersection, reset_local_connectivity and the categorical intersection *)

Section IntersectionFacts.
Context `{Externals}.

(** The factor the loop of [fast_intersection] multiplies [values[nz]] with,
    for the labels of the two endpoints: [None] where it leaves the value
    alone. *)
Definition label_factor (ti tj unknown_dist far_dist : Q) : option Q :=
  if Qeq_bool ti (-1) || Qeq_bool tj (-1) then Some (np_exp (- unknown_dist))
  else if negb (Qeq_bool ti tj) then Some (np_exp (- far_dist))
  else None.

Variables (rows cols : list nat) (target : list Q) (unknown_dist far_dist : Q).
Variable values : list Q.

(** What entry [nz] holds once the loop has passed it. *)
Definition intersected (out : list Q) (nz : nat) : Prop :=
  forall i j ti tj v,
    rows !! nz = Some i -> cols !! nz = Some j ->
    target !! i = Some ti -> target !! j = Some tj -> values !! nz = Some v ->
    out !! nz
    = Some (match label_factor ti tj unknown_dist far_dist with
            | Some f => v * f
            | None => v
            end).

Definition fast_intersection_inv (p : nat) (out : list Q) : Prop :=
  length out = length values /\
  forall nz, ((nz < p)%nat -> intersected out nz)
             /\ ((p <= nz)%nat -> out !! nz = values !! nz).

Lemma fast_intersection_step_inv (p : nat) (out out' : list Q) :
  fast_intersection_inv p out ->
  fast_intersection_step rows cols target unknown_dist far_dist out p = Ok out' ->
  fast_intersection_inv (Datatypes.S p) out'.
Proof.
  intros [Hlen Hinv] Hstep. unfold fast_intersection_step in Hstep.
  apply bind_Ok in Hstep as (i & Hi & Hstep). apply get_Ok in Hi.
  apply bind_Ok in Hstep as (j & Hj & Hstep). apply get_Ok in Hj.
  apply bind_Ok in Hstep as (ti & Hti & Hstep). apply get_Ok in Hti.
  assert (Hwrite : forall f v,
            out !! p = Some v ->
            (forall tj, target !! j = Some tj ->
                        label_factor ti tj unknown_dist far_dist = Some f) ->
            fast_intersection_inv (Datatypes.S p) (<[p := v * f]> out)).
  { intros f v Hv Hf. split; [rewrite length_insert; exact Hlen|].
    intros nz. destruct (Hinv nz) as [Hdone Htodo]. split.
    - intros Hlt. destruct (decide (nz = p)) as [->|Hne].
      + intros i' j' ti' tj' v' Hi' Hj' Hti' Htj' Hv'.
        rewrite Hi in Hi'. injection Hi' as <-.
        rewrite Hj in Hj'. injection Hj' as <-.
        rewrite Hti in Hti'. injection Hti' as <-.
        rewrite (Hf tj' Htj').
        rewrite list_lookup_insert_eq by (eapply lookup_lt_Some; eassumption).
        destruct (Hinv p) as [_ Hp]. rewrite (Hp (Nat.le_refl _)) in Hv.
        rewrite Hv in Hv'. injection Hv' as <-. reflexivity.
      + assert (Hlt' : (nz < p)%nat) by lia.
        intros i' j' ti' tj' v' Hi' Hj' Hti' Htj' Hv'.
        rewrite list_lookup_insert_ne by congruence.
        exact (Hdone Hlt' i' j' ti' tj' v' Hi' Hj' Hti' Htj' Hv').
    - intros Hge. rewrite list_lookup_insert_ne by lia. apply Htodo. lia. }
  assert (Hkeep : (forall tj, target !! j = Some tj ->
                              label_factor ti tj unknown_dist far_dist = None) ->
                  fast_intersection_inv (Datatypes.S p) out).
  { intros Hf. split; [exact Hlen|].
    intros nz. destruct (Hinv nz) as [Hdone Htodo]. split.
    - intros Hlt. destruct (decide (nz = p)) as [->|Hne].
      + intros i' j' ti' tj' v' Hi' Hj' Hti' Htj' Hv'.
        rewrite Hi in Hi'. injection Hi' as <-.
        rewrite Hj in Hj'. injection Hj' as <-.
        rewrite Hti in Hti'. injection Hti' as <-.
        rewrite (Hf tj' Htj'), <- Hv'. apply Htodo. lia.
      + apply Hdone. lia.
    - intros Hge. apply Htodo. lia. }
  destruct (Qeq_bool ti (-1)) eqn:Eti.
  - apply bind_Ok in Hstep as (v & Hv & Hstep). apply get_Ok in Hv.
    injection Hstep as <-. apply Hwrite; [exact Hv|].
    intros tj _. unfold label_factor. rewrite Eti. reflexivity.
  - apply bind_Ok in Hstep as (tj & Htj & Hstep). apply get_Ok in Htj.
    destruct (Qeq_bool tj (-1)) eqn:Etj.
    + apply bind_Ok in Hstep as (v & Hv & Hstep). apply get_Ok in Hv.
      injection Hstep as <-. apply Hwrite; [exact Hv|].
      intros tj' Htj'. rewrite Htj in Htj'. injection Htj' as <-.
      unfold label_factor. rewrite Eti, Etj. reflexivity.
    + destruct (negb (Qeq_bool ti tj)) eqn:Ediff.
      * apply bind_Ok in Hstep as (v & Hv & Hstep). apply get_Ok in Hv.
        injection Hstep as <-. apply Hwrite; [exact Hv|].
        intros tj' Htj'. rewrite Htj in Htj'. injection Htj' as <-.
        unfold label_factor. rewrite Eti, Etj, Ediff. reflexivity.
      * injection Hstep as <-. apply Hkeep.
        intros tj' Htj'. rewrite Htj in Htj'. injection Htj' as <-.
        unfold label_factor. rewrite Eti, Etj, Ediff. reflexivity.
Qed.

Lemma fast_intersection_run (out : list Q) :
  fast_intersection rows cols values target unknown_dist far_dist = Ok out ->
  fast_intersection_inv (length rows) out.
Proof.
  unfold fast_intersection. intros Hrun.
  apply (foldM_seq_counter fast_intersection_inv) in Hrun; [exact Hrun| |].
  - intros p s0 s1 _. apply fast_intersection_step_inv.
  - split; [reflexivity|]. intros nz. split; [lia|reflexivity].
Qed.

End IntersectionFacts.

Section IntersectionTheorems.
Context `{Externals}.

(** X19.  When [fast_intersection] returns, the value of every entry
    whose two endpoints have a label is the value it had, multiplied by
    [exp(-unknown_dist)] when one of the two labels is [-1], by
    [exp(-far_dist)] when the two labels differ, and left as it was when
    they are equal. *)
Theorem fast_intersection_entry (rows cols : list nat) (values target : list Q)
    (unknown_dist far_dist : Q) (out : list Q) (nz i j : nat) (ti tj v : Q) :
  fast_intersection rows cols values target unknown_dist far_dist = Ok out ->
  rows !! nz = Some i -> cols !! nz = Some j ->
  target !! i = Some ti -> target !! j = Some tj -> values !! nz = Some v ->
  out !! nz
  = Some (if Qeq_bool ti (-1) || Qeq_bool tj (-1) then v * np_exp (- unknown_dist)
          else if negb (Qeq_bool ti tj) then v * np_exp (- far_dist)
          else v).
Proof.
  intros Hrun Hi Hj Hti Htj Hv.
  destruct (fast_intersection_run _ _ _ _ _ _ _ Hrun) as [_ Hinv].
  destruct (Hinv nz) as [Hdone _].
  assert (Hlt : (nz < length rows)%nat) by (eapply lookup_lt_Some; eassumption).
  rewrite (Hdone Hlt i j ti tj v Hi Hj Hti Htj Hv).
  unfold label_factor.
  destruct (Qeq_bool ti (-1) || Qeq_bool tj (-1)); [reflexivity|].
  destruct (negb (Qeq_bool ti tj)); reflexivity.
Qed.

End IntersectionTheorems.

Section ResetFacts.

Variable normalize_max : Sparse.t -> Sparse.t.

(** X20.  The matrix [reset_local_connectivity] returns is symmetric,
    whatever the row normalisation does. *)
Theorem reset_local_connectivity_symmetric (simplicial_set : Sparse.t) :
  Sparse.transpose (reset_local_connectivity normalize_max simplicial_set)
  = reset_local_connectivity normalize_max simplicial_set.
Proof.
  unfold reset_local_connectivity.
  rewrite SparseFacts.eliminate_zeros_transpose. f_equal.
  apply SparseEntries.union_transpose_symmetric.
Qed.

(** X21.  An entry that the row normalisation sets to [1] is still [1] in
    the matrix [reset_local_connectivity] returns: the fuzzy union with the
    transpose never lowers a full confidence. *)
Theorem reset_local_connectivity_full_confidence (simplicial_set : Sparse.t)
    (i j : nat) (v : Q) :
  normalize_max simplicial_set !! (i, j) = Some v -> v == 1 ->
  exists v', reset_local_connectivity normalize_max simplicial_set !! (i, j) = Some v'
             /\ v' == 1.
Proof.
  intros Hv Hone. unfold reset_local_connectivity.
  rewrite SparseFacts.lookup_eliminate_zeros.
  change (Sparse.sub _ _) with
    (SparseEntries.union (normalize_max simplicial_set)
       (Sparse.transpose (normalize_max simplicial_set))).
  rewrite SparseEntries.lookup_union, Hv.
  destruct (Sparse.transpose (normalize_max simplicial_set) !! (i, j)) as [y|].
  - assert (Hval : v + y - v * y == 1) by (rewrite Hone; ring).
    destruct (Qeq_bool (v + y - v * y) 0) eqn:E.
    + apply Qeq_bool_iff in E. lra.
    + eexists. split; [reflexivity|exact Hval].
  - destruct (Qeq_bool v 0) eqn:E.
    + apply Qeq_bool_iff in E. lra.
    + eexists. split; [reflexivity|exact Hone].
Qed.

Context `{Externals}.

Lemma fast_intersection_same_labels (rows cols : list nat) (values target : list Q)
    (unknown_dist far_dist label : Q) :
  ~ label == -1 ->
  Forall (fun t => t == label) target ->
  Forall (fun i => (i < length target)%nat) rows ->
  Forall (fun j => (j < length target)%nat) cols ->
  length cols = length rows ->
  fast_intersection rows cols values target unknown_dist far_dist = Ok values.
Proof.
  intros Hknown Hsame Hrows Hcols Hlen. unfold fast_intersection.
  assert (Hstep : forall nz, (nz < length rows)%nat ->
            fast_intersection_step rows cols target unknown_dist far_dist values nz
            = Ok values).
  { intros nz Hnz. unfold fast_intersection_step.
    destruct (lookup_lt_is_Some_2 rows nz Hnz) as [i Hi].
    destruct (lookup_lt_is_Some_2 cols nz) as [j Hj]; [lia|].
    rewrite Forall_lookup in Hrows, Hcols.
    destruct (lookup_lt_is_Some_2 target i (Hrows _ _ Hi)) as [ti Hti].
    destruct (lookup_lt_is_Some_2 target j (Hcols _ _ Hj)) as [tj Htj].
    apply get_Ok in Hi as Hi', Hj as Hj', Hti as Hti', Htj as Htj'.
    rewrite Hi'. simpl. rewrite Hj'. simpl. rewrite Hti'. simpl.
    rewrite Forall_lookup in Hsame.
    pose proof (Hsame _ _ Hti) as Eti. pose proof (Hsame _ _ Htj) as Etj.
    simpl in Eti, Etj.
    assert (H1 : Qeq_bool ti (-1) = false).
    { destruct (Qeq_bool ti (-1)) eqn:E; [|reflexivity].
      apply Qeq_bool_iff in E. exfalso. apply Hknown. rewrite <- Eti. exact E. }
    assert (H2 : Qeq_bool tj (-1) = false).
    { destruct (Qeq_bool tj (-1)) eqn:E; [|reflexivity].
      apply Qeq_bool_iff in E. exfalso. apply Hknown. rewrite <- Etj. exact E. }
    assert (H3 : Qeq_bool ti tj = true).
    { apply Qeq_bool_iff. rewrite Eti, Etj. reflexivity. }
    rewrite H1. rewrite Htj'. simpl. rewrite H2, H3. reflexivity. }
  assert (Hall : forall l, Forall (fun nz => (nz < length rows)%nat) l ->
            foldM (fast_intersection_step rows cols target unknown_dist far_dist)
                  l values = Ok values).
  { induction l as [|nz l IH]; intros Hl; simpl; [reflexivity|].
    rewrite (Hstep nz (Forall_inv Hl)). simpl. apply IH.
    exact (Forall_inv_tail Hl). }
  apply Hall. apply Forall_forall. intros nz Hnz.
  apply elem_of_seq in Hnz. lia.
Qed.

Lemma coordinate_form (m : Sparse.t) :
  let entries := map_to_list m in
  list_to_map
    (zip (zip (map (fun e => fst (fst e)) entries)
              (map (fun e => snd (fst e)) entries))
         (map snd entries)) = m.
Proof.
  simpl. rewrite <- (list_to_map_to_list m) at 4.
  f_equal. generalize (map_to_list m). intros l.
  induction l as [|[[i j] v] l IH]; simpl; [reflexivity|].
  f_equal. exact IH.
Qed.

(** X22.  When every point has the same label, other than [-1], and the
    graph only joins labelled points, the categorical intersection changes
    no weight: it returns the graph with its local connectivity reset. *)
Theorem categorical_intersection_same_labels (simplicial_set : Sparse.t)
    (target : list Q) (unknown_dist far_dist label : Q) :
  ~ label == -1 ->
  Forall (fun t => t == label) target ->
  (forall i j v, simplicial_set !! (i, j) = Some v ->
                 (i < length target)%nat /\ (j < length target)%nat) ->
  categorical_simplicial_set_intersection normalize_max simplicial_set target
    unknown_dist far_dist
  = Ok (reset_local_connectivity normalize_max
          (Sparse.eliminate_zeros simplicial_set)).
Proof.
  intros Hknown Hsame Hrange. unfold categorical_simplicial_set_intersection.
  rewrite (fast_intersection_same_labels _ _ _ _ _ _ label Hknown Hsame).
  - simpl. rewrite (coordinate_form simplicial_set). reflexivity.
  - apply Forall_fmap, Forall_forall. intros [[i j] v] Hin. simpl.
    apply elem_of_map_to_list in Hin. exact (proj1 (Hrange i j v Hin)).
  - apply Forall_fmap, Forall_forall. intros [[i j] v] Hin. simpl.
    apply elem_of_map_to_list in Hin. exact (proj2 (Hrange i j v Hin)).
  - rewrite !length_map. reflexivity.
Qed.

End ResetFacts.

(** ** sigma_binary_search: the range and the precision of the result *)

Lemma sigma_search_range (k_of_sigma : Q -> Q) (fixed_k : Q) (n : nat) :
  forall lo hi approx_sigma,
    lo < hi ->
    lo < sigma_search (Datatypes.S n) k_of_sigma fixed_k lo hi approx_sigma < hi.
Proof.
  induction n as [|n IH]; intros lo hi approx Hlt.
  - cbn [sigma_search]. cbv zeta.
    set (mid := (lo + hi) / 2).
    assert (Hmid : lo < mid /\ mid < hi).
    { unfold mid. split.
      - apply Qlt_shift_div_l; lra.
      - apply Qlt_shift_div_r; lra. }
    destruct (Qle_bool (Qabs (fixed_k - k_of_sigma mid)) (1 # 100000));
      exact Hmid.
  - change (sigma_search (Datatypes.S (Datatypes.S n)) k_of_sigma fixed_k lo hi approx)
      with (let mid := (lo + hi) / 2 in
            if Qle_bool (Qabs (fixed_k - k_of_sigma mid)) (1 # 100000) then mid
            else sigma_search (Datatypes.S n) k_of_sigma fixed_k
                   (if Qltb (k_of_sigma mid) fixed_k then mid else lo)
                   (if Qltb (k_of_sigma mid) fixed_k then hi else mid) mid).
    cbv zeta. set (mid := (lo + hi) / 2).
    assert (Hmid : lo < mid /\ mid < hi).
    { unfold mid. split.
      - apply Qlt_shift_div_l; lra.
      - apply Qlt_shift_div_r; lra. }
    destruct (Qle_bool (Qabs (fixed_k - k_of_sigma mid)) (1 # 100000));
      [exact Hmid|].
    destruct (Qltb (k_of_sigma mid) fixed_k).
    + specialize (IH mid hi mid). lra.
    + specialize (IH lo mid mid). lra.
Qed.

(** X23.  Whatever the function [k_of_sigma] and the target are,
    [sigma_binary_search] returns a number strictly between its two limits
    [0] and [1000]: it never returns a limit itself. *)
Theorem sigma_binary_search_range (k_of_sigma : Q -> Q) (fixed_k : Q) :
  0 < sigma_binary_search k_of_sigma fixed_k
  /\ sigma_binary_search k_of_sigma fixed_k < 1000.
Proof.
  unfold sigma_binary_search.
  apply (sigma_search_range k_of_sigma fixed_k 19 0 1000 0). reflexivity.
Qed.

Lemma sigma_search_bracket (k_of_sigma : Q -> Q) (fixed_k s : Q) (n : nat) :
  (forall x y, x <= y -> k_of_sigma x <= k_of_sigma y) ->
  k_of_sigma s == fixed_k ->
  forall lo hi,
    lo <= s <= hi ->
    let r := sigma_search (Datatypes.S n) k_of_sigma fixed_k lo hi 0 in
    Qabs (fixed_k - k_of_sigma r) <= 1 # 100000
    \/ Qabs (r - s) <= (hi - lo) / inject_Z (2 ^ Z.of_nat (Datatypes.S n)).
Proof.
  intros Hmono Hroot.
  induction n as [|n IH]; intros lo hi Hs.
  - cbn [sigma_search]. cbv zeta.
    set (mid := (lo + hi) / 2).
    assert (Hmid : mid == (lo + hi) / 2) by reflexivity.
    destruct (Qle_bool (Qabs (fixed_k - k_of_sigma mid)) (1 # 100000)) eqn:Hbreak.
    + left. apply Qle_bool_iff. exact Hbreak.
    + right. change (inject_Z (2 ^ Z.of_nat 1)) with 2.
      assert (Hw : (hi - lo) / 2 == mid - lo) by (rewrite Hmid; field).
      assert (Hw' : (hi - lo) / 2 == hi - mid) by (rewrite Hmid; field).
      apply Qabs_Qle_condition. split; lra.
  - set (r := sigma_search (Datatypes.S (Datatypes.S n)) k_of_sigma fixed_k lo hi 0).
    cbv zeta. unfold r. clear r.
    cbn [sigma_search]. cbv zeta.
    set (mid := (lo + hi) / 2).
    assert (Hmid : mid == (lo + hi) / 2) by reflexivity.
    destruct (Qle_bool (Qabs (fixed_k - k_of_sigma mid)) (1 # 100000)) eqn:Hbreak.
    + left. apply Qle_bool_iff. exact Hbreak.
    + assert (Hpow : inject_Z (2 ^ Z.of_nat (Datatypes.S (Datatypes.S n)))
                     == 2 * inject_Z (2 ^ Z.of_nat (Datatypes.S n))).
      { rewrite (Nat2Z.inj_succ (Datatypes.S n)), Z.pow_succ_r by lia.
        rewrite inject_Z_mult. reflexivity. }
      assert (Hpos : 0 < inject_Z (2 ^ Z.of_nat (Datatypes.S n))).
      { change 0 with (inject_Z 0). rewrite <- Zlt_Qlt.
        apply Z.pow_pos_nonneg; lia. }
      assert (Hnot : ~ k_of_sigma mid == fixed_k).
      { intros Heq. 
        assert (Hz : Qabs (fixed_k - k_of_sigma mid) == 0).
        { assert (Hd : fixed_k - k_of_sigma mid == 0) by lra.
          rewrite Hd. reflexivity. }
        assert (Hle : Qabs (fixed_k - k_of_sigma mid) <= 1 # 100000).
        { rewrite Hz. discriminate. }
        apply Qle_bool_iff in Hle. congruence. }
      destruct (Qltb (k_of_sigma mid) fixed_k) eqn:Hlow.
      * apply Qltb_lt in Hlow.
        assert (Hs' : mid <= s <= hi).
        { split; [|lra]. apply Qnot_lt_le. intros Hc.
          pose proof (Hmono s mid (Qlt_le_weak _ _ Hc)). lra. }
        specialize (IH mid hi Hs'). cbv zeta in IH.
        cbn [sigma_search] in IH. cbv zeta in IH.
        destruct IH as [IH|IH]; [left; exact IH|right].
        eapply Qle_trans; [exact IH|].
        rewrite Hpow.
        assert (Hw : hi - mid == (hi - lo) / 2) by (rewrite Hmid; field).
        rewrite Hw. apply Qle_lteq. right. field. lra.
      * apply Qltb_ge in Hlow.
        assert (Hs' : lo <= s <= mid).
        { split; [lra|]. apply Qnot_lt_le. intros Hc.
          pose proof (Hmono mid s (Qlt_le_weak _ _ Hc)).
          apply Hnot. lra. }
        specialize (IH lo mid Hs'). cbv zeta in IH.
        cbn [sigma_search] in IH. cbv zeta in IH.
        destruct IH as [IH|IH]; [left; exact IH|right].
        eapply Qle_trans; [exact IH|].
        rewrite Hpow.
        assert (Hw : mid - lo == (hi - lo) / 2) by (rewrite Hmid; field).
        rewrite Hw. apply Qle_lteq. right. field. lra.
Qed.

(** X24.  For a function [k_of_sigma] that never decreases and takes the
    target value at some [s] between [0] and [1000], the number
    [sigma_binary_search] returns either meets the target within [1e-5] or
    lies within [1000 / 2^20] of [s]. *)
Theorem sigma_binary_search_bracket (k_of_sigma : Q -> Q) (fixed_k s : Q) :
  (forall x y, x <= y -> k_of_sigma x <= k_of_sigma y) ->
  k_of_sigma s == fixed_k ->
  0 <= s <= 1000 ->
  Qabs (fixed_k - k_of_sigma (sigma_binary_search k_of_sigma fixed_k)) <= 1 # 100000
  \/ Qabs (sigma_binary_search k_of_sigma fixed_k - s) <= 1000 # 1048576.
Proof.
  intros Hmono Hroot Hs.
  pose proof (sigma_search_bracket k_of_sigma fixed_k s 19 Hmono Hroot 0 1000 Hs)
    as Hb.
  cbv zeta in Hb. unfold sigma_binary_search.
  generalize dependent (sigma_search 20 k_of_sigma fixed_k 0 1000 0).
  intros r [Hk|Hw].
  - left. exact Hk.
  - right. eapply Qle_trans; [exact Hw|].
    assert (Hpow : inject_Z (2 ^ Z.of_nat 20) = inject_Z 1048576) by reflexivity.
    rewrite Hpow. unfold Qle, Qdiv, Qminus; simpl. lia.
Qed.

(** ** clustering_layout_SGD: short runs and the size of the steps *)

Section ClusteringSGDFacts.
Context `{Externals}.

Lemma sgd_epoch_few_epochs (a b initial_alpha : Q) (n_epochs : Z)
    (n_clusters update_interval : nat) (st : sgd_state) (n : nat) :
  (Z.quot n_epochs 5 = 0)%Z ->
  exists e, sgd_epoch a b initial_alpha n_epochs n_clusters update_interval st n
            = Err e.
Proof.
  intros Hq. unfold sgd_epoch. apply Z.eqb_eq in Hq. rewrite Hq.
  destruct (if (n mod update_interval =? 0)%nat then _ else _) as [s1|e1];
    simpl; [|eexists; reflexivity].
  destruct (foldM _ (seq 0 (length (sgd_embedding s1))) s1) as [s2|e2];
    simpl; [|eexists; reflexivity].
  destruct (foldM _ (seq 0 n_clusters) s2) as [s3|e3];
    simpl; eexists; reflexivity.
Qed.

(** X25.  With between one and four epochs, [clustering_layout_SGD] never
    returns: [int(n_epochs / 5)] is zero, and the first epoch ends in the
    remainder of a division by it, if nothing has failed before. *)
Theorem clustering_layout_SGD_few_epochs (embedding centroids : array2)
    (initial_alpha a b : Q) (n_epochs : Z) (y_pred : list Z) :
  (1 <= n_epochs <= 4)%Z ->
  exists e,
    clustering_layout_SGD embedding centroids initial_alpha a b n_epochs y_pred
    = Err e.
Proof.
  intros Hn. unfold clustering_layout_SGD, clustering_layout_SGD_run.
  assert (Hq : (Z.quot n_epochs 5 = 0)%Z) by (apply Z.quot_small; lia).
  destruct (Z.to_nat n_epochs) as [|m] eqn:Hm; [lia|].
  cbn [seq foldM].
  match goal with
  | |- context [sgd_epoch ?a ?b ?ia ?ne ?nc ?ui ?st ?n] =>
      destruct (sgd_epoch_few_epochs a b ia ne nc ui st n Hq) as [e He];
      rewrite He
  end.
  exists e. reflexivity.
Qed.

Definition sgd_bounded (alpha : Q) (st : sgd_state) : Prop :=
  Forall (rate_bounded alpha) (sgd_updates st)
  /\ 0 <= sgd_alpha st /\ sgd_alpha st <= alpha.

Lemma sgd_point_step_bounded (alpha a b : Q) (i : nat) (st st' : sgd_state)
    (k : nat) :
  sgd_bounded alpha st -> sgd_point_step a b i st k = Ok st' ->
  sgd_bounded alpha st'.
Proof.
  intros (Hlog & Halpha) Hrun. unfold sgd_point_step in Hrun.
  apply bind_Ok in Hrun as (centroid & _ & Hrun).
  apply bind_Ok in Hrun as (current & _ & Hrun).
  apply bind_Ok in Hrun as (dist_squared & _ & Hrun).
  apply bind_Ok in Hrun as (grad_coeff & _ & Hrun).
  injection Hrun as <-. split; simpl; [|exact Halpha].
  constructor; [|exact Hlog]. split; simpl; [apply clip_abs|exact Halpha].
Qed.

Lemma sgd_centroid_step_bounded (alpha a b : Q) (k : nat) (st st' : sgd_state)
    (i : nat) :
  sgd_bounded alpha st -> sgd_centroid_step a b k st i = Ok st' ->
  sgd_bounded alpha st'.
Proof.
  intros (Hlog & Halpha) Hrun. unfold sgd_centroid_step in Hrun.
  apply bind_Ok in Hrun as (centroid & _ & Hrun).
  apply bind_Ok in Hrun as (x & _ & Hrun).
  apply bind_Ok in Hrun as (dist_squared & _ & Hrun).
  apply bind_Ok in Hrun as (grad_coeff & _ & Hrun).
  injection Hrun as <-. split; simpl; [|exact Halpha].
  constructor; [|exact Hlog]. split; simpl; [apply clip_abs|exact Halpha].
Qed.

Lemma sgd_epoch_bounded (alpha a b : Q) (n_epochs : Z)
    (n_clusters update_interval : nat) (st st' : sgd_state) (n : nat) :
  0 <= alpha -> (Z.of_nat n < n_epochs)%Z ->
  sgd_bounded alpha st ->
  sgd_epoch a b alpha n_epochs n_clusters update_interval st n = Ok st' ->
  sgd_bounded alpha st'.
Proof.
  intros Halpha Hn Hst Hrun. unfold sgd_epoch in Hrun.
  apply bind_Ok in Hrun as (s1 & Hs1 & Hrun).
  assert (H1 : sgd_bounded alpha s1).
  { destruct (n mod update_interval =? 0)%nat.
    - apply bind_Ok in Hs1 as (soft & _ & Hs1). injection Hs1 as <-. exact Hst.
    - injection Hs1 as <-. exact Hst. }
  apply bind_Ok in Hrun as (s2 & Hs2 & Hrun).
  assert (H2 : sgd_bounded alpha s2).
  { revert Hs2. apply (foldM_invariant (sgd_bounded alpha)); [|exact H1].
    intros s i s' _ Hs. apply (foldM_invariant (sgd_bounded alpha)); [|exact Hs].
    intros s0 k s0' _. apply sgd_point_step_bounded. }
  apply bind_Ok in Hrun as (s3 & Hs3 & Hrun).
  assert (H3 : sgd_bounded alpha s3).
  { revert Hs3. apply (foldM_invariant (sgd_bounded alpha)); [|exact H2].
    intros s k s' _ Hs. apply (foldM_invariant (sgd_bounded alpha)); [|exact Hs].
    intros s0 i s0' _. apply sgd_centroid_step_bounded. }
  destruct (Z.quot n_epochs 5 =? 0)%Z; [discriminate|].
  injection Hrun as <-. destruct H3 as [Hlog _]. split; simpl; [exact Hlog|].
  set (t := inject_Z (Z.of_nat n) / inject_Z n_epochs).
  assert (Ht : 0 <= t /\ t <= 1).
  { assert (Hpos : 0 < inject_Z n_epochs).
    { change 0 with (inject_Z 0). rewrite <- Zlt_Qlt. lia. }
    assert (Hle : inject_Z (Z.of_nat n) <= inject_Z n_epochs).
    { rewrite <- Zle_Qle. lia. }
    assert (Hn0 : 0 <= inject_Z (Z.of_nat n)).
    { change 0 with (inject_Z 0). rewrite <- Zle_Qle. lia. }
    unfold t. split.
    - apply Qle_shift_div_l; [exact Hpos|lra].
    - apply Qle_shift_div_r; [exact Hpos|lra]. }
  assert (A : 0 <= alpha * (1 - t)) by (apply Qmult_le_0_compat; lra).
  assert (B : 0 <= alpha * t) by (apply Qmult_le_0_compat; lra).
  split; [exact A|lra].
Qed.

(** X26.  Whatever learning rate is passed to it, every update that
    [clustering_layout_SGD] makes adds a gradient of absolute value at most
    [4] scaled by a rate between [0] and [1e-30]: the argument
    [initial_alpha] is overwritten before it is read. *)
Theorem clustering_layout_SGD_updates_bounded (embedding centroids : array2)
    (initial_alpha a b : Q) (n_epochs : Z) (y_pred : list Z) (st : sgd_state) :
  clustering_layout_SGD_run embedding centroids initial_alpha a b n_epochs y_pred
    = Ok st ->
  Forall (rate_bounded (1 # 1000000000000000000000000000000)) (sgd_updates st).
Proof.
  unfold clustering_layout_SGD_run. intros Hrun.
  apply (foldM_invariant (sgd_bounded (1 # 1000000000000000000000000000000)))
    in Hrun.
  - exact (proj1 Hrun).
  - intros s n s' Hn. apply sgd_epoch_bounded; [discriminate|].
    apply in_seq in Hn. lia.
  - split; simpl; [constructor|]. split; [discriminate|apply Qle_refl].
Qed.

End ClusteringSGDFacts.

(** ** best_cluster_fit and cluster_acc *)

(** The sum of the entries at the positions [ps]. *)
Definition picked_sum (w : list (list Z)) (ps : list (nat * nat)) : Z :=
  Zsum (map (fun p => entryZ w (fst p) (snd p)) ps).

(** The sum of all the entries. *)
Definition confusion_total (w : list (list Z)) : Z := Zsum (concat w).

Lemma Zsum_app (l l' : list Z) : Zsum (l ++ l') = (Zsum l + Zsum l')%Z.
Proof. induction l as [|x l IH]; simpl; [reflexivity|]. rewrite IH. lia. Qed.

Lemma Zsum_insert (l : list Z) (c : nat) (old v : Z) :
  l !! c = Some old -> Zsum (<[c := v]> l) = (Zsum l - old + v)%Z.
Proof.
  revert c. induction l as [|x l IH]; intros [|c] Hc; simpl in *; try discriminate.
  - injection Hc as ->. lia.
  - rewrite (IH c Hc). lia.
Qed.

Lemma confusion_total_insert (w : list (list Z)) (r : nat) (row row' : list Z) :
  w !! r = Some row -> confusion_total (<[r := row']> w) = (confusion_total w - Zsum row + Zsum row')%Z.
Proof.
  unfold confusion_total. revert r. induction w as [|x w IH]; intros [|r] Hr; simpl in *;
    try discriminate.
  - injection Hr as ->. rewrite !Zsum_app. lia.
  - rewrite !Zsum_app, (IH r Hr). lia.
Qed.

Lemma entryZ_insert (w : list (list Z)) (r c : nat) (row : list Z) (old v : Z)
    (r' c' : nat) :
  w !! r = Some row -> row !! c = Some old ->
  entryZ (<[r := <[c := v]> row]> w) r' c'
  = if decide ((r', c') = (r, c)) then v else entryZ w r' c'.
Proof.
  intros Hr Hc. unfold entryZ.
  assert (Hrl : (r < length w)%nat) by (eapply lookup_lt_Some; eassumption).
  assert (Hcl : (c < length row)%nat) by (eapply lookup_lt_Some; eassumption).
  destruct (decide (r' = r)) as [->|Hne].
  - rewrite list_lookup_insert_eq by exact Hrl. simpl.
    destruct (decide (c' = c)) as [->|Hnc].
    + rewrite list_lookup_insert_eq by exact Hcl.
      rewrite decide_True by reflexivity. reflexivity.
    + rewrite list_lookup_insert_ne by congruence.
      rewrite decide_False by congruence. rewrite Hr. reflexivity.
  - rewrite list_lookup_insert_ne by congruence.
    rewrite decide_False by congruence. reflexivity.
Qed.

Lemma picked_sum_bump (w : list (list Z)) (r c : nat) (row : list Z) (old : Z)
    (ps : list (nat * nat)) :
  w !! r = Some row -> row !! c = Some old -> NoDup ps ->
  (picked_sum (<[r := <[c := (old + 1)%Z]> row]> w) ps <= picked_sum w ps + 1)%Z.
Proof.
  intros Hr Hc. unfold picked_sum.
  assert (Hold : entryZ w r c = old).
  { unfold entryZ. rewrite Hr. simpl. rewrite Hc. reflexivity. }
  induction ps as [|[r' c'] ps IH]; intros Hnd; simpl; [lia|].
  apply NoDup_cons in Hnd as [Hnot Hnd].
  rewrite (entryZ_insert w r c row old _ r' c' Hr Hc).
  destruct (decide ((r', c') = (r, c))) as [Heq|Hne].
  - injection Heq as -> ->. rewrite Hold.
    assert (Hrest : Zsum (map (fun p => entryZ (<[r := <[c := (old + 1)%Z]> row]> w)
                                          (fst p) (snd p)) ps)
                    = Zsum (map (fun p => entryZ w (fst p) (snd p)) ps)).
    { clear IH Hnd. induction ps as [|[r2 c2] ps IH2]; simpl; [reflexivity|].
      rewrite (entryZ_insert w r c row old _ r2 c2 Hr Hc).
      rewrite decide_False.
      - rewrite IH2; [reflexivity|].
        intros Hin. apply Hnot. apply list_elem_of_further. exact Hin.
      - intros Heq. apply Hnot. rewrite <- Heq. apply list_elem_of_here. }
    rewrite Hrest. lia.
  - specialize (IH Hnd). lia.
Qed.

Lemma picked_sum_nonneg (w : list (list Z)) (ps : list (nat * nat)) :
  Forall (Forall (fun v => (0 <= v)%Z)) w -> (0 <= picked_sum w ps)%Z.
Proof.
  intros Hw. unfold picked_sum.
  induction ps as [|[r c] ps IH]; simpl; [lia|].
  assert (0 <= entryZ w r c)%Z.
  { unfold entryZ. destruct (w !! r) as [row|] eqn:Hr; simpl; [|lia].
    destruct (row !! c) as [v|] eqn:Hc; simpl; [|lia].
    rewrite Forall_lookup in Hw. specialize (Hw _ _ Hr).
    rewrite Forall_lookup in Hw. exact (Hw _ _ Hc). }
  lia.
Qed.

(** The state of the counting loop after [m] samples. *)
Definition confusion_inv (ps : list (nat * nat)) (m : nat) (w : list (list Z)) : Prop :=
  confusion_total w = Z.of_nat m
  /\ Forall (Forall (fun v => (0 <= v)%Z)) w
  /\ (picked_sum w ps <= Z.of_nat m)%Z.

Lemma confusion_step_inv (y_pred y_true : list Z) (ps : list (nat * nat))
    (m : nat) (w w' : list (list Z)) :
  NoDup ps ->
  confusion_inv ps m w ->
  confusion_step y_pred y_true w m = Ok w' ->
  confusion_inv ps (Datatypes.S m) w'.
Proof.
  intros Hnd (Htotal & Hpos & Hpick) Hstep. unfold confusion_step in Hstep.
  apply bind_Ok in Hstep as (p & _ & Hstep).
  apply bind_Ok in Hstep as (t & _ & Hstep).
  apply bind_Ok in Hstep as (r & _ & Hstep).
  apply bind_Ok in Hstep as (row & Hrow & Hstep). apply get_Ok in Hrow.
  apply bind_Ok in Hstep as (c & _ & Hstep).
  apply bind_Ok in Hstep as (old & Hold & Hstep). apply get_Ok in Hold.
  injection Hstep as <-.
  assert (Hold0 : (0 <= old)%Z).
  { rewrite Forall_lookup in Hpos. specialize (Hpos _ _ Hrow).
    rewrite Forall_lookup in Hpos. exact (Hpos _ _ Hold). }
  split; [|split].
  - rewrite (confusion_total_insert w r row _ Hrow), (Zsum_insert row c old _ Hold). lia.
  - apply Forall_insert; [exact Hpos|].
    apply Forall_insert; [|lia].
    rewrite Forall_lookup in Hpos. exact (Hpos _ _ Hrow).
  - pose proof (picked_sum_bump w r c row old ps Hrow Hold Hnd). lia.
Qed.

Lemma confusion_total_zeros (n k : nat) : confusion_total (replicate n (replicate k 0%Z)) = 0%Z.
Proof.
  unfold confusion_total. induction n as [|n IH]; simpl; [reflexivity|].
  rewrite Zsum_app, IH.
  assert (Hz : Zsum (replicate k 0%Z) = 0%Z).
  { clear. induction k as [|k IH]; simpl; [reflexivity|exact IH]. }
  rewrite Hz. reflexivity.
Qed.

Lemma picked_sum_zeros (n k : nat) (ps : list (nat * nat)) :
  picked_sum (replicate n (replicate k 0%Z)) ps = 0%Z.
Proof.
  unfold picked_sum. induction ps as [|[r c] ps IH]; simpl; [reflexivity|].
  rewrite IH.
  assert (Hz : entryZ (replicate n (replicate k 0%Z)) r c = 0%Z).
  { unfold entryZ.
    destruct (replicate n (replicate k 0%Z) !! r) as [row|] eqn:Hr; simpl;
      [|reflexivity].
    apply lookup_replicate in Hr as [-> _].
    destruct (replicate k 0%Z !! c) as [v|] eqn:Hc; simpl; [|reflexivity].
    apply lookup_replicate in Hc as [-> _]. reflexivity. }
  rewrite Hz. reflexivity.
Qed.

Section ClusterAccuracyFacts.

Variable linear_assignment : list (list Z) -> list (Z * Z).

Lemma best_cluster_fit_inv (ps : list (nat * nat)) (y_true y_pred best_fit : list Z)
    (ind : list (Z * Z)) (w : list (list Z)) :
  NoDup ps ->
  best_cluster_fit linear_assignment y_true y_pred = Ok (best_fit, ind, w) ->
  confusion_inv ps (length y_pred) w.
Proof.
  intros Hnd Hrun. unfold best_cluster_fit in Hrun.
  destruct y_pred as [|p ps0]; [discriminate|].
  destruct y_true as [|t ts]; [discriminate|].
  destruct (_ <? 0)%Z; [discriminate|].
  apply bind_Ok in Hrun as (w' & Hloop & Hrun).
  destruct (concat w') as [|x xs]; [discriminate|].
  injection Hrun as _ _ <-.
  apply (foldM_seq_counter (confusion_inv ps)) in Hloop; [exact Hloop| |].
  - intros m s0 s1 _. apply confusion_step_inv. exact Hnd.
  - split; [apply confusion_total_zeros|]. split.
    + apply Forall_replicate, Forall_replicate. lia.
    + rewrite picked_sum_zeros. simpl. lia.
Qed.

(** X27.  When [best_cluster_fit] returns, the confusion matrix [w] it
    returns holds no negative count, and its counts add up to the number of
    samples: every sample is counted exactly once. *)
Theorem best_cluster_fit_counts_every_sample (y_true y_pred best_fit : list Z)
    (ind : list (Z * Z)) (w : list (list Z)) :
  best_cluster_fit linear_assignment y_true y_pred = Ok (best_fit, ind, w) ->
  Zsum (concat w) = Z.of_nat (length y_pred)
  /\ Forall (Forall (fun v => (0 <= v)%Z)) w.
Proof.
  intros Hrun.
  destruct (best_cluster_fit_inv [] _ _ _ _ _ (NoDup_nil_2) Hrun) as (Ht & Hp & _).
  split; assumption.
Qed.

Lemma np_index_nonneg (n : nat) (i : Z) (r : nat) :
  (0 <= i)%Z -> np_index n i = Ok r -> r = Z.to_nat i.
Proof.
  intros Hi. unfold np_index.
  destruct ((0 <=? i) && (i <? Z.of_nat n))%Z; [congruence|].
  destruct ((- Z.of_nat n <=? i) && (i <? 0))%Z eqn:E; [|discriminate].
  apply andb_prop in E as [_ E]. apply Z.ltb_lt in E. lia.
Qed.

Lemma matrix_cell_entryZ (w : list (list Z)) (i j v : Z) :
  (0 <= i)%Z -> (0 <= j)%Z -> matrix_cell w i j = Ok v ->
  v = entryZ w (Z.to_nat i) (Z.to_nat j).
Proof.
  intros Hi Hj Hcell. unfold matrix_cell in Hcell.
  apply bind_Ok in Hcell as (r & Hr & Hcell). apply (np_index_nonneg _ _ _ Hi) in Hr.
  apply bind_Ok in Hcell as (row & Hrow & Hcell). apply get_Ok in Hrow.
  apply bind_Ok in Hcell as (c & Hc & Hcell). apply (np_index_nonneg _ _ _ Hj) in Hc.
  apply get_Ok in Hcell. subst r c.
  unfold entryZ. rewrite Hrow. simpl. rewrite Hcell. reflexivity.
Qed.

(** The position a pair of indices that are not negative names. *)
Definition position (ij : Z * Z) : nat * nat := (Z.to_nat (fst ij), Z.to_nat (snd ij)).

Lemma picked_cells (w : list (list Z)) (ind : list (Z * Z)) (picked : list Z) :
  Forall (fun ij => (0 <= fst ij)%Z /\ (0 <= snd ij)%Z) ind ->
  mapM (fun ij => matrix_cell w (fst ij) (snd ij)) ind = Ok picked ->
  Zsum picked = picked_sum w (map position ind).
Proof.
  revert picked. induction ind as [|[i j] ind IH]; intros picked Hind Hm;
    simpl in Hm.
  - injection Hm as <-. reflexivity.
  - apply bind_Ok in Hm as (v & Hv & Hm).
    apply bind_Ok in Hm as (vs & Hvs & Hm). injection Hm as <-.
    destruct (Forall_inv Hind) as [Hi Hj]. simpl in Hi, Hj.
    apply (matrix_cell_entryZ w i j v Hi Hj) in Hv.
    unfold picked_sum in *. simpl.
    rewrite (IH vs (Forall_inv_tail Hind) Hvs), Hv. reflexivity.
Qed.

Lemma NoDup_position (ind : list (Z * Z)) :
  Forall (fun ij => (0 <= fst ij)%Z /\ (0 <= snd ij)%Z) ind ->
  NoDup ind -> NoDup (map position ind).
Proof.
  intros Hind Hnd. induction ind as [|[i j] ind IH]; simpl; [constructor|].
  apply NoDup_cons in Hnd as [Hnot Hnd].
  destruct (Forall_inv Hind) as [Hi Hj]. simpl in Hi, Hj.
  apply Forall_inv_tail in Hind.
  apply NoDup_cons. split; [|apply IH; assumption].
  intros Hin. apply list_elem_of_fmap in Hin as ([i' j'] & Heq & Hin).
  rewrite Forall_forall in Hind. destruct (Hind _ Hin) as [Hi' Hj'].
  simpl in Hi', Hj'. unfold position in Heq. simpl in Heq.
  injection Heq as Hii Hjj.
  assert (i = i') by lia. assert (j = j') by lia. subst. contradiction.
Qed.

(** X28.  When the assignment solver returns pairs of indices that are
    not negative and all different (one cell for each row, as the
    Hungarian algorithm does), the accuracy [cluster_acc] returns lies
    between 0 and 1. *)
Theorem cluster_acc_bounds (y_true y_pred : list Z) (acc : Q) :
  (forall cost, NoDup (linear_assignment cost)
                /\ Forall (fun ij => (0 <= fst ij)%Z /\ (0 <= snd ij)%Z)
                          (linear_assignment cost)) ->
  cluster_acc linear_assignment y_true y_pred = Ok acc ->
  0 <= acc /\ acc <= 1.
Proof.
  intros Hassign Hrun. unfold cluster_acc in Hrun.
  apply bind_Ok in Hrun as ([[best_fit ind] w] & Hfit & Hrun).
  apply bind_Ok in Hrun as (picked & Hpicked & Hrun). injection Hrun as <-.
  assert (Hind : NoDup ind
                 /\ Forall (fun ij => (0 <= fst ij)%Z /\ (0 <= snd ij)%Z) ind).
  { unfold best_cluster_fit in Hfit.
    destruct y_pred as [|p ps0]; [discriminate|].
    destruct y_true as [|t ts]; [discriminate|].
    destruct (_ <? 0)%Z; [discriminate|].
    apply bind_Ok in Hfit as (w' & _ & Hfit).
    destruct (concat w') as [|x xs]; [discriminate|].
    injection Hfit as _ <- _. apply Hassign. }
  destruct Hind as [Hnd Hnonneg].
  pose proof (NoDup_position ind Hnonneg Hnd) as Hnd'.
  destruct (best_cluster_fit_inv (map position ind) _ _ _ _ _ Hnd' Hfit)
    as (_ & Hpos & Hle).
  pose proof (picked_sum_nonneg w (map position ind) Hpos) as Hge.
  rewrite <- (picked_cells w ind picked Hnonneg Hpicked) in Hle, Hge.
  assert (Hsize : (0 < Z.of_nat (length y_pred))%Z).
  { unfold best_cluster_fit in Hfit. destruct y_pred; [discriminate|]. simpl. lia. }
  assert (Hn : 0 < inject_Z (Z.of_nat (length y_pred))).
  { change 0 with (inject_Z 0). rewrite <- Zlt_Qlt. exact Hsize. }
  assert (H0 : 0 <= inject_Z (Zsum picked)).
  { change 0 with (inject_Z 0). rewrite <- Zle_Qle. exact Hge. }
  assert (H1 : inject_Z (Zsum picked) <= inject_Z (Z.of_nat (length y_pred))).
  { rewrite <- Zle_Qle. exact Hle. }
  split.
  - apply Qle_shift_div_l; [exact Hn|]. lra.
  - apply Qle_shift_div_r; [exact Hn|]. lra.
Qed.

End ClusterAccuracyFacts.

(** ** clustering_umap.py: get_tptnfpfn and get_accuracy *)

Module ClusteringUmapFacts.
Import ClusteringUmap.

(** The number of cells counted. *)
Definition counted (c : counts) : Z := (tp c + tn c + fp c + fn c)%Z.

Definition nonneg (c : counts) : Prop :=
  (0 <= tp c)%Z /\ (0 <= tn c)%Z /\ (0 <= fp c)%Z /\ (0 <= fn c)%Z.

Lemma count_cell_counted (c : counts) (cell : Q * Q) :
  counted (count_cell c cell) = (counted c + 1)%Z
  /\ (nonneg c -> nonneg (count_cell c cell)).
Proof.
  destruct cell as [real pred]. unfold count_cell, counted, nonneg.
  destruct (Qeq_bool pred 1), (Qeq_bool real 1); simpl; split; lia.
Qed.

Lemma fold_count_cell (cells : list (Q * Q)) (c : counts) :
  counted (fold_left count_cell cells c) = (counted c + Z.of_nat (length cells))%Z
  /\ (nonneg c -> nonneg (fold_left count_cell cells c)).
Proof.
  revert c. induction cells as [|cell cells IH]; intros c; simpl.
  - split; [lia|auto].
  - destruct (IH (count_cell c cell)) as [Hn Hp].
    destruct (count_cell_counted c cell) as [Hn1 Hp1].
    split; [rewrite Hn, Hn1; lia|auto].
Qed.

Lemma lookup_counts (a b c d : Z) :
  let data : gmap string Z := {[ "tp" := a; "fp" := b; "tn" := c; "fn" := d ]} in
  data !! "tp" = Some a /\ data !! "fp" = Some b
  /\ data !! "tn" = Some c /\ data !! "fn" = Some d.
Proof.
  intros data. unfold data.
  split; [reflexivity|]. split; [reflexivity|]. split; reflexivity.
Qed.

Lemma compared_same_shape (preds y : array2) :
  Forall2 (fun real_line pred_line => length real_line = length pred_line) y preds ->
  compared (map (map threshold) preds) y
  = zip (concat y) (map threshold (concat preds)).
Proof.
  unfold compared. intros Hshape.
  induction Hshape as [|real_line pred_line y preds Hlen _ IH]; simpl;
    [reflexivity|].
  rewrite IH, map_app. symmetry. apply zip_with_app.
  rewrite length_map. exact Hlen.
Qed.

Lemma threshold_is_one (p : Q) : Qeq_bool (threshold p) 1 = Qle_bool 0.5 p.
Proof. unfold threshold. destruct (Qle_bool 0.5 p); reflexivity. Qed.

Lemma fold_agreements (ys ps : list Q) (c : counts) :
  let c' := fold_left count_cell (zip ys (map threshold ps)) c in
  (tp c' + tn c')%Z
  = (tp c + tn c + Z.of_nat (length (List.filter agrees (zip ys ps))))%Z.
Proof.
  revert ps c. induction ys as [|real ys IH]; intros [|p ps] c; simpl; try lia.
  specialize (IH ps). simpl in IH. rewrite IH.
  unfold agrees at 2. simpl. rewrite threshold_is_one.
  destruct (Qle_bool 0.5 p), (Qeq_bool real 1); simpl; lia.
Qed.

(** The four counters behind the dictionary [get_tptnfpfn] returns, on two
    arrays of the same shape. *)
Lemma get_tptnfpfn_counters (preds y : array2) :
  Forall2 (fun real_line pred_line => length real_line = length pred_line) y preds ->
  exists c,
    fst (get_tptnfpfn preds y)
    = {[ "tp" := tp c; "fp" := fp c; "tn" := tn c; "fn" := fn c ]}
    /\ nonneg c
    /\ counted c = Z.of_nat (length (concat y))
    /\ (tp c + tn c)%Z = Z.of_nat (agreements preds y).
Proof.
  intros Hshape. unfold get_tptnfpfn. simpl fst.
  rewrite (compared_same_shape preds y Hshape).
  set (c0 := {| tp := 0; tn := 0; fp := 0; fn := 0 |}).
  set (cells := zip (concat y) (map threshold (concat preds))).
  assert (Hcells : length cells = length (concat y)).
  { unfold cells. rewrite length_zip_with, length_map.
    assert (Hl : length (concat y) = length (concat preds)).
    { clear cells. induction Hshape as [|r p y' preds' Hlen _ IH]; simpl;
        [reflexivity|].
      rewrite !length_app, IH, Hlen. reflexivity. }
    lia. }
  destruct (fold_count_cell cells c0) as [Hn Hp].
  pose proof (fold_agreements (concat y) (concat preds) c0) as Hf.
  simpl in Hf. fold cells in Hf.
  exists (fold_left count_cell cells c0).
  split; [reflexivity|]. split; [apply Hp; unfold nonneg; simpl; lia|].
  split; [rewrite Hn, Hcells; reflexivity|].
  unfold agreements. lia.
Qed.

(** X29.  On two arrays of the same shape, the dictionary [get_tptnfpfn]
    returns has the four keys ["tp"], ["fp"], ["tn"] and ["fn"]; none of the
    counts is negative, and they add up to the number of entries of [y]:
    every entry falls in exactly one of the four classes. *)
Theorem get_tptnfpfn_counts_every_cell (preds y : array2) :
  Forall2 (fun real_line pred_line => length real_line = length pred_line) y preds ->
  exists a b c d,
    (fst (get_tptnfpfn preds y)) !! "tp" = Some a
    /\ (fst (get_tptnfpfn preds y)) !! "fp" = Some b
    /\ (fst (get_tptnfpfn preds y)) !! "tn" = Some c
    /\ (fst (get_tptnfpfn preds y)) !! "fn" = Some d
    /\ (0 <= a)%Z /\ (0 <= b)%Z /\ (0 <= c)%Z /\ (0 <= d)%Z
    /\ (a + b + c + d)%Z = Z.of_nat (length (concat y)).
Proof.
  intros Hshape.
  destruct (get_tptnfpfn_counters preds y Hshape)
    as (c & -> & (H1 & H2 & H3 & H4) & Hn & _).
  destruct (lookup_counts (tp c) (fp c) (tn c) (fn c)) as (L1 & L2 & L3 & L4).
  exists (tp c), (fp c), (tn c), (fn c).
  repeat split; try assumption.
  unfold counted in Hn. lia.
Qed.

(** X30.  On the dictionary that [get_tptnfpfn] returns for two arrays of
    the same shape, [get_accuracy] raises [ZeroDivisionError] when the
    arrays have no entry; otherwise it returns the share of the entries
    where the prediction, cut at [0.5], agrees with the label being [1]. *)
Theorem get_accuracy_of_counts (preds y : array2) :
  Forall2 (fun real_line pred_line => length real_line = length pred_line) y preds ->
  (concat y = [] -> get_accuracy (fst (get_tptnfpfn preds y)) = Raises ZeroDivision)
  /\ (concat y <> [] ->
      get_accuracy (fst (get_tptnfpfn preds y))
      = Returns (inject_Z (Z.of_nat (agreements preds y))
                 / inject_Z (Z.of_nat (length (concat y))))).
Proof.
  intros Hshape.
  destruct (get_tptnfpfn_counters preds y Hshape)
    as (c & -> & _ & Hn & Hagree).
  destruct (lookup_counts (tp c) (fp c) (tn c) (fn c)) as (L1 & L2 & L3 & L4).
  simpl in L1, L2, L3, L4.
  unfold get_accuracy, item. rewrite L1, L3, L2, L4.
  unfold counted in Hn.
  replace (tp c + tn c + fp c + fn c)%Z with (Z.of_nat (length (concat y))) by lia.
  split.
  - intros Hnil. rewrite Hnil. reflexivity.
  - intros Hne.
    assert (Hz : (Z.of_nat (length (concat y)) =? 0)%Z = false).
    { apply Z.eqb_neq. destruct (concat y); [congruence|]. simpl. lia. }
    rewrite Hz, Hagree. reflexivity.
Qed.

End ClusteringUmapFacts.

(** * Runs

    One run of the definitions for every property above that has a
    hypothesis. *)

Module Runs.
Import Sample.

(** C7 on two rows: one with [rho = 1], one of zeros only with [rho = 0]. *)
Lemma smooth_knn_dist_sigma_floor_witness :
  exists sigmas rhos,
    smooth_knn_dist [[0; 1; 2]; [0; 0; 0]] 3 64 1 1 = Ok (sigmas, rhos) /\
    exists sigma rho,
      sigmas !! 1%nat = Some sigma /\ rhos !! 1%nat = Some rho /\
      (0 < rho -> MIN_K_DIST_SCALE * mean [0; 0; 0] <= sigma) /\
      (rho == 0 ->
       MIN_K_DIST_SCALE * mean (concat [[0; 1; 2]; [0; 0; 0]]) <= sigma).
Proof.
  eexists. eexists. split; [vm_compute; reflexivity|].
  apply (smooth_knn_dist_sigma_floor [[0; 1; 2]; [0; 0; 0]] 3 64 1 1);
    [vm_compute; reflexivity|reflexivity].
Defined.

(** C2 on a two-by-two index array with one missing neighbour. *)
Lemma compute_membership_strengths_slot_witness :
  let pos := (0 * shape1 [[0; 1]; [1; -1]]%Z + 1)%nat in
  (1%Z = (-1)%Z ->
     [0; 0; 1; 0]%Z !! pos = Some 0%Z /\ [0; 1; 1; 0]%Z !! pos = Some 0%Z
     /\ [0; 1; 0; 0] !! pos = Some 0) /\
  (1%Z <> (-1)%Z ->
     [0; 0; 1; 0]%Z !! pos = Some (Z.of_nat 0) /\
     [0; 1; 1; 0]%Z !! pos = Some 1%Z /\
     exists val,
       [0; 1; 0; 0] !! pos = Some val /\
       (1%Z = Z.of_nat 0 -> val = 0) /\
       (1%Z <> Z.of_nat 0 ->
          exists drow d rho,
            [[0; 1]; [0; 3]] !! 0%nat = Some drow /\ drow !! 1%nat = Some d /\
            [1; 1] !! 0%nat = Some rho /\
            (d - rho <= 0 -> val = 1) /\
            (0 < d - rho ->
               exists sigma, [1; 1] !! 0%nat = Some sigma /\
                             val = np_exp (- ((d - rho) / sigma))))).
Proof.
  apply (compute_membership_strengths_slot [[0; 1]; [1; -1]]%Z [[0; 1]; [0; 3]]
           [1; 1] [1; 1] [0; 0; 1; 0]%Z [0; 1; 1; 0]%Z [0; 1; 0; 0]
           0 1 [0; 1]%Z 1%Z).
  - vm_compute. reflexivity.
  - repeat constructor.
  - reflexivity.
  - reflexivity.
Defined.

(** C3 on three points with two neighbours each. *)
Lemma fuzzy_simplicial_set_symmetric_witness :
  exists graph,
    fuzzy_simplicial_set 3 2 [[0; 1]; [1; 0]; [2; 1]]%Z [[0; 1]; [0; 1]; [0; 2]]
      1 1 = Ok graph
    /\ Sparse.transpose graph = graph.
Proof.
  eexists. split; [vm_compute; reflexivity|].
  apply (fuzzy_simplicial_set_symmetric 3 2 [[0; 1]; [1; 0]; [2; 1]]%Z
           [[0; 1]; [0; 1]; [0; 2]] 1 1).
  vm_compute. reflexivity.
Defined.

(** C4 on a two-by-two matrix. *)
Lemma T_rows_sum_to_one_witness :
  exists trow rest, Soft.T [[1; 1]; [1; 3]] = trow :: rest /\ Qsum trow == 1.
Proof.
  eexists. eexists. split; [vm_compute; reflexivity|].
  apply (T_rows_sum_to_one [[1; 1]; [1; 3]]).
  - simpl. lia.
  - repeat constructor.
  - repeat constructor.
  - vm_compute. apply list_elem_of_here.
Defined.

(** C5 on two far points, one edge and one centroid. *)
Lemma optimize_layout_updates_clipped_witness :
  exists st,
    @optimize_layout externals [[0]; [100]] None [O] [1%nat] 500 [0; 0]%Z
      [[50]] 0 2 [9] 1 1 1%nat 1%Z 1 0.00001 5 = Ok st
    /\ Forall clipped (updates st).
Proof.
  eexists. split; [vm_compute; reflexivity|].
  apply (@optimize_layout_updates_clipped externals [[0]; [100]] None [O]
           [1%nat] 500 [0; 0]%Z [[50]] 0 2 [9] 1 1 1%nat 1%Z 1 0.00001 5).
  vm_compute. reflexivity.
Defined.

(** C6 on two zero weights. *)
Lemma make_epochs_per_sample_zero_weights_witness :
  make_epochs_per_sample [0; 0] 500 = Ok (replicate (length [0; 0]) (-1))
  /\ (forall e n, e ∈ replicate (length [0; 0]) (-1) -> sample_due e n = true).
Proof.
  apply (make_epochs_per_sample_zero_weights [0; 0] 500).
  - discriminate.
  - repeat constructor.
Defined.

(** C8 on two coincident points. *)
Lemma zero_distance_forces_witness :
  exists st',
    negative_sample 1 1 1 1 2 1 0 coincident = Ok st'
    /\ updates st' = replicate 1 (nudge 1) ++ updates coincident
    /\ head_embedding st' !! 0%nat
       = Some (map (fun x => x + 4 * 1) (take 1 [0]) ++ drop 1 [0]).
Proof.
  eexists. split; [vm_compute; reflexivity|].
  apply (proj1 (@zero_distance_forces externals 1 1 1 1 1 true 2 1 0 coincident
                  [0] eq_refl)
               1%nat [0] 0 1%Z 2%Z).
  - reflexivity.
  - reflexivity.
  - reflexivity.
  - reflexivity.
  - reflexivity.
  - discriminate.
  - vm_compute. reflexivity.
Defined.



(** C10 on the two points the estimator was fitted on. *)
Lemma transform_same_input_witness :
  exists self' fitted,
    UEC_PV.fit (UEC_PV.new params) two_points None = Ok self' /\
    UEC_PV.embedding_ self' = Some fitted /\
    UEC_PV.transform self' two_points = Ok (VArray2 fitted).
Proof.
  eexists. eexists. split; [vm_compute; reflexivity|].
  split; [reflexivity|].
  eapply (UEC_PV_Facts.transform_same_input (UEC_PV.new params) _ two_points
            two_points None).
  - vm_compute. reflexivity.
  - reflexivity.
  - simpl. lia.
  - reflexivity.
Defined.

(** C1 on one new point after a fit on two. *)
Lemma transform_new_data_raises_witness :
  exists self',
    UEC_PV.fit (UEC_PV.new params) two_points None = Ok self' /\
    exists e, UEC_PV.transform self' new_point = Err e.
Proof.
  eexists. split; [vm_compute; reflexivity|].
  eapply (UEC_PV_Facts.transform_new_data_raises (UEC_PV.new params) _ two_points
            new_point None).
  - vm_compute. reflexivity.
  - reflexivity.
  - simpl. lia.
  - vm_compute. discriminate.
Defined.

(** The exception of that call. *)
Example transform_new_point_type_error :
  match UEC_PV.fit (UEC_PV.new params) two_points None with
  | Ok self' => UEC_PV.transform self' new_point
  | Err e => Err e
  end
  = Err (TypeError "missing a required argument: rng_state").
Proof. vm_compute. reflexivity. Qed.

(** [fit_transform] after a fit on one sample: the labels were never
    assigned. *)
Example fit_transform_single_sample :
  UEC_PV.fit_transform (UEC_PV.new params) one_point None
  = Err (AttributeError "y_pred").
Proof. vm_compute. reflexivity. Qed.

(** Clamping. *)
Example clip_values :
  (clip 5 = 4 /\ clip (-7) = -4 /\ clip 0.5 = 0.5)
  /\ (clip_clust 3 = 1 /\ clip_clust (-0.25) = -0.25).
Proof. vm_compute. repeat split; reflexivity. Qed.

(** The schedule of ordinary weights: periods [1] and [2]. *)
Example make_epochs_per_sample_weights :
  make_epochs_per_sample [1; 0.5] 500 = Ok [500 # 500; 5000 # 2500].
Proof. vm_compute. reflexivity. Qed.

(** The maximum of no weight at all is an error. *)
Example make_epochs_per_sample_empty :
  make_epochs_per_sample [] 500
  = Err (ValueError "zero-size array to reduction operation maximum").
Proof. reflexivity. Qed.

(** Zero weights divided by their maximum. *)
Example zero_weights_divide_to_nan :
  n_samples_of [0; 0] 500 (Qmaximum 0 [0]) = [NaN; NaN].
Proof. vm_compute. reflexivity. Qed.

(** An edge scheduled with [-1.0] is taken in each of eleven epochs of
    [init_optimize_layout]: one addition to either endpoint per epoch. *)
Example sentinel_edge_sampled_every_epoch :
  exists st,
    @init_optimize_layout externals [[0]; [100]] None [O] [1%nat] 11 0 2 [-1]
      1 1 1%Z 1 1 5 = Ok st
    /\ length (updates st) = 22%nat.
Proof. eexists. split; vm_compute; reflexivity. Qed.

(** The radius of a row for a fractional local connectivity, and the read
    outside an empty array of positive distances. *)
Example smooth_knn_rho_values :
  smooth_knn_rho [0; 2; 4] 1.5 = Ok 3.0 /\ smooth_knn_rho [0; 0] 0 = Err IndexError.
Proof. vm_compute. split; reflexivity. Qed.

End Runs.

(** * Further runs

    One run of the definitions for every further property that has a
    hypothesis. *)

Module FurtherRuns.
Import Sample SampleInputs.

(** The stand-in for [exp] maps the non-positive numbers into [(0, 1]]. *)
Lemma exp_range (x : Q) : x <= 0 -> 0 <= exp x /\ exp x <= 1.
Proof.
  intros Hx. unfold exp. split.
  - apply Qle_shift_div_l; lra.
  - apply Qle_shift_div_r; lra.
Qed.

(** X1 on two rows, one of them of zeros only. *)
Lemma smooth_knn_dist_sigma_positive_witness :
  exists sigmas rhos,
    smooth_knn_dist [[0; 1; 2]; [0; 0; 0]] 3 64 1 1 = Ok (sigmas, rhos)
    /\ Forall (fun sigma => 0 < sigma) sigmas.
Proof.
  eexists. eexists. split; [vm_compute; reflexivity|].
  eapply (smooth_knn_dist_sigma_positive [[0; 1; 2]; [0; 0; 0]] 3 64 1 1).
  - lia.
  - vm_compute. reflexivity.
Defined.


(** X3 on a two-by-two index array with one missing neighbour. *)
Lemma compute_membership_strengths_unit_interval_witness :
  exists rows cols vals,
    compute_membership_strengths [[0; 1]; [1; -1]]%Z [[0; 1]; [0; 3]] [1; 1] [1; 1]
    = Ok (rows, cols, vals)
    /\ exists val, vals !! 1%nat = Some val /\ 0 <= val /\ val <= 1.
Proof.
  eexists. eexists. eexists. split; [vm_compute; reflexivity|].
  eexists. split; [reflexivity|].
  eapply (compute_membership_strengths_unit_interval [[0; 1]; [1; -1]]%Z
            [[0; 1]; [0; 3]] [1; 1] [1; 1] _ _ _ 1).
  - exact exp_range.
  - repeat constructor.
  - vm_compute. reflexivity.
  - reflexivity.
Defined.

(** X4 on three points with two neighbours each. *)
Lemma fuzzy_simplicial_set_no_self_loops_witness :
  exists graph,
    fuzzy_simplicial_set 3 2 [[0; 1]; [1; 0]; [2; 1]]%Z [[0; 1]; [0; 1]; [0; 2]]
      1 1 = Ok graph
    /\ graph !! (1%nat, 1%nat) = None.
Proof.
  eexists. split; [vm_compute; reflexivity|].
  apply (fuzzy_simplicial_set_no_self_loops 3 2 [[0; 1]; [1; 0]; [2; 1]]%Z
           [[0; 1]; [0; 1]; [0; 2]] 1 1).
  vm_compute. reflexivity.
Defined.

(** X5 on three points with two neighbours each. *)
Lemma fuzzy_simplicial_set_memberships_witness :
  exists graph v,
    fuzzy_simplicial_set 3 2 [[0; 1]; [1; 0]; [2; 1]]%Z [[0; 1]; [0; 1]; [0; 2]]
      1 1 = Ok graph
    /\ graph !! (0%nat, 1%nat) = Some v /\ 0 < v /\ v <= 1.
Proof.
  eexists. eexists. split; [vm_compute; reflexivity|].
  split; [vm_compute; reflexivity|].
  eapply (fuzzy_simplicial_set_memberships 3 2 [[0; 1]; [1; 0]; [2; 1]]%Z
            [[0; 1]; [0; 1]; [0; 2]] 1 1 _ 0 1).
  - exact exp_range.
  - split; discriminate.
  - intros r irow c c' idx Hr Hc Hc' _.
    destruct r as [|[|[|r]]]; simpl in Hr; try discriminate;
      injection Hr as <-;
      destruct c as [|[|c]]; simpl in Hc; try discriminate;
      destruct c' as [|[|c']]; simpl in Hc'; try discriminate;
      try reflexivity; congruence.
  - vm_compute. reflexivity.
  - vm_compute. reflexivity.
Defined.

(** X6 on two weights. *)
Lemma make_epochs_per_sample_periods_witness :
  exists wmax result e,
    make_epochs_per_sample [1; 0.5] 500 = Ok result /\
    wmax ∈ [1; 0.5] /\ Forall (fun x => x <= wmax) [1; 0.5] /\
    result !! 1%nat = Some e /\
    (0 < 0.5 -> e == wmax / 0.5 /\ 1 <= e) /\
    (0.5 <= 0 -> e = -1).
Proof.
  apply (make_epochs_per_sample_periods [1; 0.5] 500 1 0.5).
  - reflexivity.
  - exists 1. split; [apply list_elem_of_here|reflexivity].
  - reflexivity.
Defined.

(** X7 on two vectors of the plane. *)
Lemma rdist_squared_distance_witness :
  exists r, rdist [1; 2] [4; 6] = Ok r /\ 0 <= r
            /\ (Forall2 Qeq [1; 2] [4; 6] -> r == 0)
            /\ exists r', rdist [4; 6] [1; 2] = Ok r' /\ r' == r.
Proof. apply (rdist_squared_distance [1; 2] [4; 6]). reflexivity. Defined.

(** X8 on two different vectors of equal sum. *)
Lemma rdist2_difference_of_sums_witness :
  exists r, rdist2 [1; 5] [4; 2] = Ok r /\ r == Qsum [1; 5] - Qsum [4; 2].
Proof. apply (rdist2_difference_of_sums [1; 5] [4; 2]). reflexivity. Defined.

(** X9 on a heavy and a light edge. *)
Lemma prune_coo_keeps_heaviest_witness :
  exists g' top,
    prune_coo 11 [(O, 1%nat, 1); (1%nat, O, 0.001)] = Ok g' /\ top ∈ g' /\
    Forall (fun e => snd e <= snd top) [(O, 1%nat, 1); (1%nat, O, 0.001)].
Proof.
  apply (prune_coo_keeps_heaviest 11 [(O, 1%nat, 1); (1%nat, O, 0.001)]).
  - discriminate.
  - exists (O, 1%nat, 1). split; [apply list_elem_of_here|reflexivity].
Defined.

(** X11 on one new point between two fitted points. *)
Lemma init_transform_weighted_sum_witness :
  exists result,
    init_transform [[O; 1%nat]] [[0.5; 0.5]] [[0; 0]; [2; 4]] = Ok result /\
    exists row r,
      result !! 0%nat = Some row /\ row !! 1%nat = Some r /\
      r == neighbour_average [[O; 1%nat]] [[0.5; 0.5]] [[0; 0]; [2; 4]] 0 1.
Proof.
  eexists. split; [vm_compute; reflexivity|].
  apply (init_transform_weighted_sum [[O; 1%nat]] [[0.5; 0.5]] [[0; 0]; [2; 4]]).
  - vm_compute. reflexivity.
  - simpl. lia.
  - simpl. lia.
Defined.

(** X10 on two points and one cluster. *)
Lemma simplicial_set_embedding_labels_witness :
  exists embedding y_pred cents,
    simplicial_set_embedding two_points two_point_graph 2 1 1 1
      (1577 # 1000) (895 # 1000) 0 5 11 0 (InitStr "spectral") None
    = Ok (embedding, y_pred, cents)
    /\ length y_pred = length embedding
    /\ Forall (fun label => (label < length cents)%nat) y_pred.
Proof.
  eexists. eexists. eexists. split; [vm_compute; reflexivity|].
  eapply (simplicial_set_embedding_labels two_points two_point_graph 2 1 1 1
            (1577 # 1000) (895 # 1000) 0 5 11 0 (InitStr "spectral") None).
  - vm_compute. reflexivity.
  - discriminate.
Defined.

(** X12 on two far points, one edge and one centroid. *)
Lemma optimize_layout_keeps_shapes_witness :
  exists st,
    @optimize_layout externals [[0]; [100]] None [O] [1%nat] 500 [0; 0]%Z
      [[50]] 0 2 [9] 1 1 1%nat 1%Z 1 0.00001 5 = Ok st
    /\ row_lengths (head_embedding st) = row_lengths [[0]; [100]]
    /\ row_lengths (centroids st) = row_lengths [[50]].
Proof.
  eexists. split; [vm_compute; reflexivity|].
  apply (@optimize_layout_keeps_shapes externals [[0]; [100]] None [O]
           [1%nat] 500 [0; 0]%Z [[50]] 0 2 [9] 1 1 1%nat 1%Z 1 0.00001 5).
  vm_compute. reflexivity.
Defined.

(** X13 on one edge with a period of ten epochs. *)
Lemma optimize_layout_late_edges_witness :
  exists st,
    @optimize_layout externals [[0]; [100]] None [O] [1%nat] 500 [0; 0]%Z
      [[50]] 0 2 [10] 1 1 1%nat 1%Z 1 0.00001 5 = Ok st
    /\ head_embedding st = [[0]; [100]] /\ tail_embedding st = None
    /\ Forall (fun u => u_term u = CentroidStep) (updates st).
Proof.
  eexists. split; [vm_compute; reflexivity|].
  apply (@optimize_layout_late_edges externals [[0]; [100]] None [O]
           [1%nat] 500 [0; 0]%Z [[50]] 0 2 [10] 1 1 1%nat 1%Z 1 0.00001 5).
  - repeat constructor.
  - vm_compute. reflexivity.
Defined.

(** X14 on two far points and one edge that is due in every epoch. *)
Lemma init_optimize_layout_updates_bounded_witness :
  exists st,
    @init_optimize_layout externals [[0]; [100]] None [O] [1%nat] 2 0 2 [1]
      1 1 1%Z 1 1 5 = Ok st
    /\ Forall (rate_bounded 1) (updates st).
Proof.
  eexists. split; [vm_compute; reflexivity|].
  apply (@init_optimize_layout_updates_bounded externals [[0]; [100]] None [O]
           [1%nat] 2 0 2 [1] 1 1 1%Z 1 1 5).
  - discriminate.
  - vm_compute. reflexivity.
Defined.

(** X15 on one sample and a new estimator. *)
Lemma fit_transform_single_sample_fails_witness :
  exists self',
    UEC_PV.fit (UEC_PV.new params) one_point None = Ok self'
    /\ UEC_PV.fit_transform (UEC_PV.new params) one_point None
       = Err (AttributeError "y_pred").
Proof.
  eexists. split; [vm_compute; reflexivity|].
  eapply (UEC_PV_Errors.fit_transform_single_sample_fails (UEC_PV.new params) _
            one_point None).
  - reflexivity.
  - vm_compute. reflexivity.
  - reflexivity.
Defined.

(** X16 on the sample the estimator was fitted on. *)
Lemma transform_after_single_sample_fit_witness :
  exists self',
    UEC_PV.fit (UEC_PV.new params) one_point None = Ok self'
    /\ exists msg, UEC_PV.transform self' one_point = Err (ValueError msg).
Proof.
  eexists. split; [vm_compute; reflexivity|].
  eapply (UEC_PV_Errors.transform_after_single_sample_fit (UEC_PV.new params) _
            one_point one_point None).
  - reflexivity.
  - vm_compute. reflexivity.
Defined.

(** X17 on one new point after a fit on a sparse matrix of two rows. *)
Lemma transform_new_data_unavailable_witness :
  exists self',
    UEC_PV.fit (UEC_PV.new params) sparse_points None = Ok self'
    /\ exists msg, UEC_PV.transform self' new_point = Err (ValueError msg).
Proof.
  eexists. split; [vm_compute; reflexivity|].
  eapply (UEC_PV_Errors.transform_new_data_unavailable (UEC_PV.new params) _
            sparse_points new_point None).
  - vm_compute. reflexivity.
  - reflexivity.
  - simpl. lia.
  - discriminate.
  - left. reflexivity.
Defined.

(** X18 on two points with one label each. *)
Lemma fit_labels_length_witness :
  exists self',
    UEC_PV.fit (UEC_PV.new params) two_points (Some [0; 1]) = Ok self'
    /\ length [0; 1] = length (samples two_points).
Proof.
  eexists. split; [vm_compute; reflexivity|].
  eapply (UEC_PV_Errors.fit_labels_length (UEC_PV.new params) _ two_points
            [0; 1]).
  - reflexivity.
  - simpl. lia.
  - vm_compute. reflexivity.
Defined.

(** X19 on two entries, the second with an unknown label at one end. *)
Lemma fast_intersection_entry_witness :
  exists out,
    fast_intersection [O; 1%nat] [1%nat; O] [1; 0.5] [0; -1] 1 5 = Ok out
    /\ out !! 1%nat
       = Some (if Qeq_bool (-1) (-1) || Qeq_bool 0 (-1)
               then 0.5 * np_exp (- 1)
               else if negb (Qeq_bool (-1) 0) then 0.5 * np_exp (- 5)
               else 0.5).
Proof.
  eexists. split; [vm_compute; reflexivity|].
  apply (@fast_intersection_entry externals [O; 1%nat] [1%nat; O] [1; 0.5]
           [0; -1] 1 5 _ 1 1 0 (-1) 0 0.5).
  - vm_compute. reflexivity.
  - reflexivity.
  - reflexivity.
  - reflexivity.
  - reflexivity.
  - reflexivity.
Defined.

(** X21 on one edge, with a normalisation that leaves it as it is. *)
Lemma reset_local_connectivity_full_confidence_witness :
  exists v', reset_local_connectivity (fun m => m) one_edge !! (O, 1%nat) = Some v'
             /\ v' == 1.
Proof.
  apply (reset_local_connectivity_full_confidence (fun m => m) one_edge 0 1 1).
  - reflexivity.
  - reflexivity.
Defined.

(** X22 on one edge between two points of label 3. *)
Lemma categorical_intersection_same_labels_witness :
  @categorical_simplicial_set_intersection (fun m => m) externals one_edge
    [3; 3] 1 5
  = Ok (reset_local_connectivity (fun m => m) (Sparse.eliminate_zeros one_edge)).
Proof.
  apply (@categorical_intersection_same_labels (fun m => m) externals one_edge
           [3; 3] 1 5 3).
  - discriminate.
  - repeat constructor.
  - intros i j v Hv. unfold one_edge in Hv.
    apply lookup_singleton_Some in Hv as [[= <- <-] _]. simpl. lia.
Defined.

(** X24 on the identity, with the target 300. *)
Lemma sigma_binary_search_bracket_witness :
  Qabs (300 - (fun x => x) (sigma_binary_search (fun x => x) 300)) <= 1 # 100000
  \/ Qabs (sigma_binary_search (fun x => x) 300 - 300) <= 1000 # 1048576.
Proof.
  apply (sigma_binary_search_bracket (fun x => x) 300 300).
  - intros x y Hxy. exact Hxy.
  - reflexivity.
  - split; discriminate.
Defined.

(** X25 on three epochs. *)
Lemma clustering_layout_SGD_few_epochs_witness :
  exists e,
    @clustering_layout_SGD externals [[0]; [100]] [[50]] 1 1 1 3 [0; 0]%Z = Err e.
Proof.
  apply (@clustering_layout_SGD_few_epochs externals [[0]; [100]] [[50]] 1 1 1 3
           [0; 0]%Z).
  lia.
Defined.

(** X26 on five epochs, two points and one centroid. *)
Lemma clustering_layout_SGD_updates_bounded_witness :
  exists st,
    @clustering_layout_SGD_run externals [[0]; [100]] [[50]] 1 1 1 5 [0; 0]%Z
    = Ok st
    /\ Forall (rate_bounded (1 # 1000000000000000000000000000000))
              (sgd_updates st).
Proof.
  eexists. split; [vm_compute; reflexivity|].
  apply (@clustering_layout_SGD_updates_bounded externals [[0]; [100]] [[50]]
           1 1 1 5 [0; 0]%Z).
  vm_compute. reflexivity.
Defined.

(** X27 on three samples and two labels. *)
Lemma best_cluster_fit_counts_every_sample_witness :
  exists best_fit ind w,
    best_cluster_fit swap_assignment [0; 1; 1]%Z [1; 0; 0]%Z
    = Ok (best_fit, ind, w)
    /\ Zsum (concat w) = Z.of_nat (length [1; 0; 0]%Z)
    /\ Forall (Forall (fun v => (0 <= v)%Z)) w.
Proof.
  eexists. eexists. eexists. split; [vm_compute; reflexivity|].
  eapply (best_cluster_fit_counts_every_sample swap_assignment [0; 1; 1]%Z
            [1; 0; 0]%Z).
  vm_compute. reflexivity.
Defined.

(** X28 on the same labels. *)
Lemma cluster_acc_bounds_witness :
  exists acc,
    cluster_acc swap_assignment [0; 1; 1]%Z [1; 0; 0]%Z = Ok acc
    /\ 0 <= acc /\ acc <= 1.
Proof.
  eexists. split; [vm_compute; reflexivity|].
  apply (cluster_acc_bounds swap_assignment [0; 1; 1]%Z [1; 0; 0]%Z).
  - intros cost. unfold swap_assignment. split.
    + apply NoDup_cons. split; [|apply NoDup_singleton].
      intros Hin. apply list_elem_of_singleton in Hin. discriminate.
    + repeat constructor; simpl; lia.
  - vm_compute. reflexivity.
Defined.

(** X29 on one line of two predictions. *)
Lemma get_tptnfpfn_counts_every_cell_witness :
  exists a b c d,
    (fst (ClusteringUmap.get_tptnfpfn [[0.9; 0.2]] [[1; 1]])) !! "tp" = Some a
    /\ (fst (ClusteringUmap.get_tptnfpfn [[0.9; 0.2]] [[1; 1]])) !! "fp" = Some b
    /\ (fst (ClusteringUmap.get_tptnfpfn [[0.9; 0.2]] [[1; 1]])) !! "tn" = Some c
    /\ (fst (ClusteringUmap.get_tptnfpfn [[0.9; 0.2]] [[1; 1]])) !! "fn" = Some d
    /\ (0 <= a)%Z /\ (0 <= b)%Z /\ (0 <= c)%Z /\ (0 <= d)%Z
    /\ (a + b + c + d)%Z = Z.of_nat (length (concat [[1; 1]])).
Proof.
  apply (ClusteringUmapFacts.get_tptnfpfn_counts_every_cell [[0.9; 0.2]] [[1; 1]]).
  repeat constructor.
Defined.

(** X30 on the same arrays. *)
Lemma get_accuracy_of_counts_witness :
  (concat [[1; 1]] = [] ->
   ClusteringUmap.get_accuracy (fst (ClusteringUmap.get_tptnfpfn [[0.9; 0.2]] [[1; 1]]))
   = ClusteringUmap.Raises ClusteringUmap.ZeroDivision)
  /\ (concat [[1; 1]] <> [] ->
      ClusteringUmap.get_accuracy
        (fst (ClusteringUmap.get_tptnfpfn [[0.9; 0.2]] [[1; 1]]))
      = ClusteringUmap.Returns
          (inject_Z (Z.of_nat (agreements [[0.9; 0.2]] [[1; 1]]))
           / inject_Z (Z.of_nat (length (concat [[1; 1]]))))).
Proof.
  apply (ClusteringUmapFacts.get_accuracy_of_counts [[0.9; 0.2]] [[1; 1]]).
  repeat constructor.
Defined.

End FurtherRuns.
